(** * AnalyticsMesh: a shallow embedding of the gossip node and its committer

    The development follows [src/analytics_mesh.py], [src/thrift_helper.py]
    and the validation code of [src/main.py].

    - Python objects that are mutated in place ([self], the process
      environment) are threaded through a state-and-exception monad.
    - The operating system (files, signals, threads, sockets) is a record
      [World]: every system call appends an [event] to a chronological
      [trace], consults a schedule of injected failures, and then acts on the
      modelled file system.
    - The [datasketches] library is an interface ([SketchLib]); nothing is
      assumed about it.
    - Threads are not interleaved: every method is run to completion on the
      state it is given.  Loops that need not terminate take fuel and end in
      [OutOfFuel]. *)

From Stdlib Require Import ZArith List String Ascii Strings.Byte Bool Lia Floats.
From stdpp Require Import base gmap strings list pretty.

Local Open Scope Z_scope.
Local Open Scope string_scope.
Local Open Scope list_scope.

Abbreviation bytes := (list Byte.byte).

#[global] Instance byte_eq_dec : EqDecision Byte.byte := Byte.byte_eq_dec.

(** ** Exceptions *)

(** The Python exceptions the three modules raise, catch or let through.
    [OSError] stands for every [OSError] that is not a [FileNotFoundError],
    a [FileExistsError] or an [IsADirectoryError]; [KeyboardInterrupt] is a
    [BaseException] that is not an [Exception]. *)
Inductive exn : Type :=
| ValueError (msg : string)
| TypeError (msg : string)
| ArgumentTypeError (msg : string)
| SystemExit (code : Z)
| FileNotFoundError (path : string)
| FileExistsError (path : string)
| IsADirectoryError (path : string)
| IndexError (msg : string)
| OSError (errno : Z)
| TTransportException (msg : string)
| TApplicationException (msg : string)
| SketchError (msg : string)
| KeyboardInterrupt.

#[global] Instance exn_eq_dec : EqDecision exn.
Proof. solve_decision. Defined.

(** [except FileNotFoundError] *)
Definition is_FileNotFoundError (e : exn) : bool :=
  match e with FileNotFoundError _ => true | _ => false end.

(** [except thrift.transport.TTransport.TTransportException] *)
Definition is_TTransportException (e : exn) : bool :=
  match e with TTransportException _ => true | _ => false end.

(** [except ValueError] *)
Definition is_ValueError (e : exn) : bool :=
  match e with ValueError _ => true | _ => false end.

(** [except BaseException] *)
Definition is_BaseException (e : exn) : bool := true.

(** ** The monad *)

Inductive result (A : Type) : Type :=
| Ok (a : A)
| Raise (e : exn)
| OutOfFuel.
Arguments Ok {A} a.
Arguments Raise {A} e.
Arguments OutOfFuel {A}.

Definition M (Σ A : Type) : Type := Σ → result A * Σ.

Definition ret {Σ A} (a : A) : M Σ A := λ s, (Ok a, s).

Definition bind {Σ A B} (m : M Σ A) (k : A → M Σ B) : M Σ B :=
  λ s, match m s with
       | (Ok a, s') => k a s'
       | (Raise e, s') => (Raise e, s')
       | (OutOfFuel, s') => (OutOfFuel, s')
       end.

Definition raise {Σ A} (e : exn) : M Σ A := λ s, (Raise e, s).
Definition out_of_fuel {Σ A} : M Σ A := λ s, (OutOfFuel, s).
Definition get {Σ} : M Σ Σ := λ s, (Ok s, s).
Definition gets {Σ A} (f : Σ → A) : M Σ A := λ s, (Ok (f s), s).
Definition modify {Σ} (f : Σ → Σ) : M Σ unit := λ s, (Ok tt, f s).

Declare Scope mesh_scope.
Delimit Scope mesh_scope with mesh.
Notation "x <- y ;; z" := (bind y (λ x, z))
  (at level 100, y at next level, z at level 200, right associativity) : mesh_scope.
Notation "y ;;; z" := (bind y (λ _, z))
  (at level 100, z at level 200, right associativity) : mesh_scope.
Local Open Scope mesh_scope.

(** [try: m except <class> as e: h e].  The handler runs on the state the
    body left behind; an exception outside the class passes through. *)
Definition try_except {Σ A} (m : M Σ A) (cls : exn → bool) (h : exn → M Σ A) : M Σ A :=
  λ s, match m s with
       | (Raise e, s') => if cls e then h e s' else (Raise e, s')
       | r => r
       end.

(** [try: m finally: fin], also the exit of a [with] block.  An exception
    of the finaliser replaces the one of the body. *)
Definition try_finally {Σ A} (m : M Σ A) (fin : M Σ unit) : M Σ A :=
  λ s, match m s with
       | (Ok a, s') => (_ <- fin ;; ret a) s'
       | (Raise e, s') => (_ <- fin ;; raise e) s'
       | (OutOfFuel, s') => (OutOfFuel, s')
       end.

(** Run a computation on a component of the state. *)
Definition zoom {Σ S A} (g : Σ → S) (p : S → Σ → Σ) (m : M S A) : M Σ A :=
  λ s, let '(r, x) := m (g s) in (r, p x s).

(** A Python local variable that a [try] body assigns and its handler
    reads: the body runs on the state paired with the variable. *)
Definition with_local {Σ L A} (init : L) (m : M (Σ * L) A) : M Σ A :=
  λ s, let '(r, (s', _)) := m (s, init) in (r, s').
Definition outer {Σ L A} (m : M Σ A) : M (Σ * L) A :=
  zoom fst (λ x '(_, l), (x, l)) m.
Definition get_local {Σ L} : M (Σ * L) L := gets snd.
Definition set_local {Σ L} (l : L) : M (Σ * L) unit := modify (λ '(s, _), (s, l)).

(** ** Data of the program *)

Inductive DurabilityLevel : Type := STRICT | DELAYED | VOLATILE.

#[global] Instance DurabilityLevel_eq_dec : EqDecision DurabilityLevel.
Proof. solve_decision. Defined.

(** [str(level)] of the [StrEnum]. *)
Definition DurabilityLevel_str (d : DurabilityLevel) : string :=
  match d with STRICT => "strict" | DELAYED => "delayed" | VOLATILE => "volatile" end.

(** The argument of [update_sketch]: [int | float | str]. *)
Inductive datum : Type :=
| DInt (i : Z)
| DFloat (f : float)
| DStr (s : string).

Definition address : Type := string * Z.

Definition ANTI_ENTROPY_INTERVAL : Z := 1.
Definition ANTI_ENTROPY_MAX_CLIENTS : nat := 3.
Definition ANTI_ENTROPY_TIMEOUT : Z := 1000.
Definition COMMITTER_INTERVAL : Z := 5.
Definition LOG_K : Z := 21.

(** ** The process environment *)

Inductive level : Type := DEBUG | WARNING.

(** What [signal.signal] installs and returns.  [mesh_signal_handler] is the
    bound method [self.signal_handler]; [HNone] is Python's [None] (a handler
    that was not installed from Python). *)
Inductive handler : Type :=
| SIG_DFL
| SIG_IGN
| HNone
| default_int_handler
| mesh_signal_handler
| other_handler (id : nat).

#[global] Instance handler_eq_dec : EqDecision handler.
Proof. solve_decision. Defined.

Inductive thread : Type := ServerThread | ClientThread | CommitterThread.

Definition SIGHUP : Z := 1.
Definition SIGINT : Z := 2.
Definition SIGQUIT : Z := 3.
Definition SIGABRT : Z := 6.
Definition SIGTERM : Z := 15.
Definition SIGTSTP : Z := 20.
Definition SIGPWR : Z := 30.

(** One entry per call that leaves the interpreter.  Files are named by
    their path; a file object or descriptor is the path it was opened on. *)
Inductive event : Type :=
| EvIsDir (p : string)
| EvExists (p : string)
| EvAccessW (p : string)
| EvOpenRead (p : string)
| EvRead (p : string)
| EvMkstemp (dir prefix suffix : string)
| EvOpenWrite (p : string)
| EvWrite (p : string) (data : bytes)
| EvFlush (p : string)
| EvFsync (p : string)
| EvClose (p : string)
| EvReplace (src dst : string)
| EvRemove (p : string)
| EvOpenDir (d : string)
| EvFsyncDir (d : string)
| EvCloseDir (d : string)
| EvLog (lvl : level) (msg : string)
| EvSleep (ms : Z)
| EvSignal (sig : Z) (h : handler)
| EvKill (sig : Z)
| EvThreadStart (t : thread)
| EvServerStop
| EvConnOpen (a : address)
| EvConnClose (a : address)
| EvRpcPush (a : address) (data : bytes)
| EvRpcPull (a : address).

(** The event is an operation on the file (or directory entry) [p]. *)
Definition file_io_on (p : string) (ev : event) : bool :=
  match ev with
  | EvIsDir q | EvExists q | EvAccessW q | EvOpenRead q | EvRead q
  | EvOpenWrite q | EvWrite q _ | EvFlush q | EvFsync q | EvClose q
  | EvRemove q => bool_decide (q = p)
  | EvReplace src dst => bool_decide (src = p) || bool_decide (dst = p)
  | _ => false
  end.

(** The event is an operation of the file system at all. *)
Definition is_file_io (ev : event) : bool :=
  match ev with
  | EvIsDir _ | EvExists _ | EvAccessW _ | EvOpenRead _ | EvRead _
  | EvMkstemp _ _ _ | EvOpenWrite _ | EvWrite _ _ | EvFlush _ | EvFsync _
  | EvClose _ | EvReplace _ _ | EvRemove _ | EvOpenDir _ | EvFsyncDir _
  | EvCloseDir _ => true
  | _ => false
  end.

Record World : Type := mkWorld {
  files : gmap string bytes;        (* regular files and their contents *)
  dirs : gset string;               (* directories *)
  writable : gset string;           (* paths with os.access(p, os.W_OK) *)
  faults : list (option exn);       (* outcome of the upcoming system calls *)
  tmp_names : list string;          (* random parts tempfile will propose *)
  pulled : list bytes;              (* what peers answer to the upcoming pulls *)
  randoms : list nat;               (* draws of the random module *)
  conns : gset address;             (* transports that are open *)
  dispositions : gmap Z handler;    (* installed signal handlers *)
  cwd : string;                     (* os.getcwd() *)
  trace : list event
}.

Definition set_files (x : gmap string bytes) (w : World) : World :=
  mkWorld x (dirs w) (writable w) (faults w) (tmp_names w) (pulled w)
          (randoms w) (conns w) (dispositions w) (cwd w) (trace w).
Definition set_faults (x : list (option exn)) (w : World) : World :=
  mkWorld (files w) (dirs w) (writable w) x (tmp_names w) (pulled w)
          (randoms w) (conns w) (dispositions w) (cwd w) (trace w).
Definition set_tmp_names (x : list string) (w : World) : World :=
  mkWorld (files w) (dirs w) (writable w) (faults w) x (pulled w)
          (randoms w) (conns w) (dispositions w) (cwd w) (trace w).
Definition set_pulled (x : list bytes) (w : World) : World :=
  mkWorld (files w) (dirs w) (writable w) (faults w) (tmp_names w) x
          (randoms w) (conns w) (dispositions w) (cwd w) (trace w).
Definition set_randoms (x : list nat) (w : World) : World :=
  mkWorld (files w) (dirs w) (writable w) (faults w) (tmp_names w) (pulled w)
          x (conns w) (dispositions w) (cwd w) (trace w).
Definition set_conns (x : gset address) (w : World) : World :=
  mkWorld (files w) (dirs w) (writable w) (faults w) (tmp_names w) (pulled w)
          (randoms w) x (dispositions w) (cwd w) (trace w).
Definition set_dispositions (x : gmap Z handler) (w : World) : World :=
  mkWorld (files w) (dirs w) (writable w) (faults w) (tmp_names w) (pulled w)
          (randoms w) (conns w) x (cwd w) (trace w).
Definition set_trace (x : list event) (w : World) : World :=
  mkWorld (files w) (dirs w) (writable w) (faults w) (tmp_names w) (pulled w)
          (randoms w) (conns w) (dispositions w) (cwd w) x.

Definition emit (ev : event) : M World unit :=
  modify (λ w, set_trace (trace w ++ [ev]) w).

(** The head of the failure schedule decides whether the call that is being
    entered fails; an exhausted schedule means no further failure. *)
Definition may_fail : M World unit :=
  λ w, match hd None (faults w) with
       | Some e => (Raise e, set_faults (tl (faults w)) w)
       | None => (Ok tt, set_faults (tl (faults w)) w)
       end.

Definition syscall (ev : event) : M World unit := emit ev ;;; may_fail.

(** *** Paths ([posixpath]) *)

Definition slash : ascii := "/"%char.

(** [(p[:i], p[i:])] with [i = p.rfind(c) + 1], when [c] occurs in [p]. *)
Fixpoint cut_after_last (c : ascii) (p : string) : option (string * string) :=
  match p with
  | EmptyString => None
  | String a r =>
      match cut_after_last c r with
      | Some (h, t) => Some (String a h, t)
      | None => if Ascii.eqb a c then Some (String a EmptyString, r) else None
      end
  end.

Fixpoint all_char (c : ascii) (s : string) : bool :=
  match s with
  | EmptyString => true
  | String a r => Ascii.eqb a c && all_char c r
  end.

(** [s.rstrip(chars)] and [s.lstrip(chars)] *)
Fixpoint rstrip (chars : list ascii) (s : string) : string :=
  match s with
  | EmptyString => EmptyString
  | String a r =>
      match rstrip chars r with
      | EmptyString => if bool_decide (a ∈ chars) then EmptyString else String a EmptyString
      | r' => String a r'
      end
  end.
Fixpoint lstrip (chars : list ascii) (s : string) : string :=
  match s with
  | EmptyString => EmptyString
  | String a r => if bool_decide (a ∈ chars) then lstrip chars r else s
  end.
Definition strip (chars : list ascii) (s : string) : string :=
  rstrip chars (lstrip chars s).

(** [os.path.split] *)
Definition os_path_split (p : string) : string * string :=
  let '(head, tail) := default (EmptyString, p) (cut_after_last slash p) in
  let head := if negb (String.eqb head "") && negb (all_char slash head)
              then rstrip [slash] head else head in
  (head, tail).

(** [os.path.isabs] *)
Definition os_path_isabs (s : string) : bool := String.prefix "/" s.

(** [os.path.join(a, b)] *)
Definition os_path_join (a b : string) : string :=
  if os_path_isabs b then b
  else if String.eqb a "" then b
  else if all_char slash (String.substring (String.length a - 1) 1 a)
       then a +:+ b else a +:+ "/" +:+ b.

(** [path.split("/")] and ["/".join(comps)] *)
Fixpoint split_slash (s : string) : list string :=
  match s with
  | EmptyString => [EmptyString]
  | String a r =>
      if Ascii.eqb a slash then EmptyString :: split_slash r
      else match split_slash r with
           | c :: cs => String a c :: cs
           | [] => [String a EmptyString]
           end
  end.
Fixpoint join_slash (comps : list string) : string :=
  match comps with
  | [] => EmptyString
  | [c] => c
  | c :: cs => c +:+ "/" +:+ join_slash cs
  end.

(** The body of the loop of [os.path.normpath] over the components. *)
Definition normpath_step (initial_slashes : nat) (new_comps : list string)
    (comp : string) : list string :=
  if String.eqb comp "" || String.eqb comp "." then new_comps
  else if negb (String.eqb comp "..")
          || ((initial_slashes =? 0)%nat && bool_decide (new_comps = []))
          || match last new_comps with
             | Some c => String.eqb c ".."
             | None => false
             end
       then (new_comps ++ [comp])%list
       else removelast new_comps.

(** [os.path.normpath]: a purely lexical normalisation; it does not look at
    the file system. *)
Definition os_path_normpath (path : string) : string :=
  if String.eqb path "" then "."
  else
    let initial_slashes :=
      if String.prefix "/" path then
        if String.prefix "//" path && negb (String.prefix "///" path) then 2%nat else 1%nat
      else 0%nat in
    let comps := foldl (normpath_step initial_slashes) [] (split_slash path) in
    let path := join_slash comps in
    let path := match initial_slashes with
                | O => path
                | S O => "/" +:+ path
                | _ => "//" +:+ path
                end in
    if String.eqb path "" then "." else path.

(** [os.path.abspath] in the working directory [cwd] *)
Definition os_path_abspath (cwd path : string) : string :=
  if os_path_isabs path then os_path_normpath path
  else os_path_normpath (os_path_join cwd path).

(** [name, _, rest = rest.partition("/")] *)
Fixpoint partition_slash (s : string) : string * string :=
  match s with
  | EmptyString => (EmptyString, EmptyString)
  | String a r =>
      if Ascii.eqb a slash then (EmptyString, r)
      else let '(name, rest) := partition_slash r in (String a name, rest)
  end.

(** The entry of [posixpath._joinrealpath(path, rest)]: an absolute
    [rest] restarts at the root. *)
Definition joinrealpath_start (path rest : string) : string * string :=
  if os_path_isabs rest
  then ("/", String.substring 1 (String.length rest - 1) rest)
  else (path, rest).

(** The loop of [posixpath._joinrealpath], which resolves a path one
    component at a time, following symbolic links.  [links] maps the
    absolute name of each symbolic link to what [os.readlink] returns for
    it; [newpath] has no link left in it and is looked up from [cwd].
    [None] stands for a resolution that does not end (a loop of links). *)
Fixpoint joinrealpath (links : gmap string string) (cwd : string) (fuel : nat)
    (path rest : string) : option string :=
  match fuel with
  | O => None
  | S fuel' =>
      if String.eqb rest "" then Some path
      else
        let '(name, rest) := partition_slash rest in
        if String.eqb name "" || String.eqb name "." then
          joinrealpath links cwd fuel' path rest
        else if String.eqb name ".." then
          let path :=
            if String.eqb path "" then ".."
            else let '(head, tail) := os_path_split path in
                 if String.eqb tail ".."
                 then os_path_join (os_path_join head "..") ".."
                 else head in
          joinrealpath links cwd fuel' path rest
        else
          let newpath := os_path_join path name in
          match links !! os_path_abspath cwd newpath with
          | None => joinrealpath links cwd fuel' newpath rest
          | Some target =>
              let '(p0, r0) := joinrealpath_start path target in
              match joinrealpath links cwd fuel' p0 r0 with
              | Some path' => joinrealpath links cwd fuel' path' rest
              | None => None
              end
          end
  end.

(** [os.path.realpath]: the name of the object that the kernel reaches
    through [filename]. *)
Definition os_path_realpath (links : gmap string string) (cwd : string) (fuel : nat)
    (filename : string) : option string :=
  let '(p0, r0) := joinrealpath_start "" filename in
  os_path_abspath cwd <$> joinrealpath links cwd fuel p0 r0.

(** *** File system calls *)

Definition path_exists (w : World) (p : string) : bool :=
  bool_decide (is_Some (files w !! p)) || bool_decide (p ∈ dirs w).

Definition os_path_isdir (p : string) : M World bool :=
  emit (EvIsDir p) ;;; gets (λ w, bool_decide (p ∈ dirs w)).
Definition os_path_exists (p : string) : M World bool :=
  emit (EvExists p) ;;; gets (λ w, path_exists w p).
Definition os_access_W_OK (p : string) : M World bool :=
  emit (EvAccessW p) ;;; gets (λ w, bool_decide (p ∈ writable w)).

(** [open(p, "rb")] *)
Definition open_rb (p : string) : M World unit :=
  syscall (EvOpenRead p) ;;;
  w <- get ;;
  if bool_decide (p ∈ dirs w) then raise (IsADirectoryError p)
  else match files w !! p with
       | None => raise (FileNotFoundError p)
       | Some _ => ret tt
       end.

(** [fd.read()] *)
Definition file_read (p : string) : M World bytes :=
  syscall (EvRead p) ;;; gets (λ w, default [] (files w !! p)).

(** [open(p, "wb")]: creates or truncates *)
Definition open_wb (p : string) : M World unit :=
  syscall (EvOpenWrite p) ;;;
  w <- get ;;
  if bool_decide (p ∈ dirs w) then raise (IsADirectoryError p)
  else modify (λ w, set_files (<[p := []]> (files w)) w).

(** [f.write(data)]; the bytes land at the end of the file *)
Definition file_write (p : string) (data : bytes) : M World unit :=
  syscall (EvWrite p data) ;;;
  modify (λ w, set_files (alter (λ c, (c ++ data)%list) p (files w)) w).

Definition file_flush (p : string) : M World unit := syscall (EvFlush p).
Definition os_fsync (p : string) : M World unit := syscall (EvFsync p).
Definition file_close (p : string) : M World unit := syscall (EvClose p).

(** The loop of [tempfile._mkstemp_inner] over the candidate names: the
    first [os.path.join(dir, pre + name + suf)] that names nothing yet; the
    others fail with [FileExistsError] and are skipped.  [dir] is the
    absolute directory already. *)
Fixpoint pick_fresh (w : World) (dir prefix suffix : string) (cands : list string)
  : option (string * list string) :=
  match cands with
  | [] => None
  | c :: rest =>
      let p := os_path_join dir (prefix +:+ c +:+ suffix) in
      if path_exists w p then pick_fresh w dir prefix suffix rest
      else Some (p, rest)
  end.

(** [tempfile.NamedTemporaryFile(mode="wb", dir=, prefix=, suffix=, delete=False)];
    the result is the [name] of the file object.  [_mkstemp_inner] begins
    with [dir = os.path.abspath(dir)]: the name is absolute and lexically
    normalised. *)
Definition NamedTemporaryFile (dir prefix suffix : string) : M World string :=
  syscall (EvMkstemp dir prefix suffix) ;;;
  w <- get ;;
  match pick_fresh w (os_path_abspath (cwd w) dir) prefix suffix (tmp_names w) with
  | None => raise (FileExistsError "No usable temporary file name found")
  | Some (p, rest) =>
      modify (λ w, set_tmp_names rest (set_files (<[p := []]> (files w)) w)) ;;;
      ret p
  end.

(** [os.replace(src, dst)] of a regular file *)
Definition os_replace (src dst : string) : M World unit :=
  syscall (EvReplace src dst) ;;;
  w <- get ;;
  match files w !! src with
  | None => raise (FileNotFoundError src)
  | Some c =>
      if bool_decide (dst ∈ dirs w) then raise (IsADirectoryError dst)
      else modify (λ w, set_files (<[dst := c]> (delete src (files w))) w)
  end.

(** [os.remove(p)] *)
Definition os_remove (p : string) : M World unit :=
  syscall (EvRemove p) ;;;
  w <- get ;;
  match files w !! p with
  | None =>
      if bool_decide (p ∈ dirs w) then raise (IsADirectoryError p)
      else raise (FileNotFoundError p)
  | Some _ => modify (λ w, set_files (delete p (files w)) w)
  end.

(** [os.open(d, os.O_RDONLY | os.O_DIRECTORY)], [os.fsync(dir_fd)], [os.close(dir_fd)] *)
Definition os_open_dir (d : string) : M World string := syscall (EvOpenDir d) ;;; ret d.
Definition os_fsync_dir (d : string) : M World unit := syscall (EvFsyncDir d).
Definition os_close_dir (d : string) : M World unit := syscall (EvCloseDir d).

(** *** Logging, time, signals, threads *)

Definition logging (lvl : level) (msg : string) : M World unit := emit (EvLog lvl msg).

(** [time.sleep]; the duration is in milliseconds *)
Definition time_sleep (ms : Z) : M World unit := emit (EvSleep ms).

(** [signal.signal(sig, h)] returns the handler it replaces. *)
Definition signal_signal (sig : Z) (h : handler) : M World handler :=
  syscall (EvSignal sig h) ;;;
  old <- gets (λ w, default SIG_DFL (dispositions w !! sig)) ;;
  modify (λ w, set_dispositions (<[sig := h]> (dispositions w)) w) ;;;
  ret old.

Definition signal_getsignal (sig : Z) : M World handler :=
  gets (λ w, default SIG_DFL (dispositions w !! sig)).

(** [os.kill(os.getpid(), sig)]: what the disposition then does is outside
    the program. *)
Definition os_kill_self (sig : Z) : M World unit := syscall (EvKill sig).

(** [threading.Thread(target=..., daemon=True).start()] *)
Definition thread_start (t : thread) : M World thread := syscall (EvThreadStart t) ;;; ret t.

(** *** The [random] module *)

(** [Random._randbelow(n)], for [n > 0]: the next draw of the source; a
    source that is used up yields 0. *)
Definition randbelow (n : nat) : M World nat :=
  λ w, match randoms w with
       | r :: rest => (Ok (r mod n)%nat, set_randoms rest w)
       | [] => (Ok 0%nat, w)
       end.

(** The first branch of [random.sample] ([n <= setsize]): [k] draws from a
    pool in which the last non-selected item is moved into the vacancy. *)
Fixpoint sample_pool {A} (pool : list A) (k : nat) : M World (list A) :=
  match k with
  | O => ret []
  | S k' =>
      let n := List.length pool in
      j <- randbelow n ;;
      match pool !! j, last pool with
      | Some x, Some y =>
          rest <- sample_pool (take (n - 1) (<[j := y]> pool)) k' ;;
          ret (x :: rest)
      | _, _ => raise (IndexError "list index out of range")
      end
  end.

(** [j = randbelow(n); while j in selected: j = randbelow(n)].  [upcoming]
    is what the random source holds after the draw: once it is used up
    every further draw is the same, and the loop does not end if that draw
    is selected. *)
Fixpoint draw_unselected (n : nat) (selected : gset nat) (upcoming : list nat)
  : M World nat :=
  j <- randbelow n ;;
  if bool_decide (j ∈ selected) then
    match upcoming with
    | [] =>
        j' <- randbelow n ;;
        if bool_decide (j' ∈ selected) then out_of_fuel else ret j'
    | _ :: rest => draw_unselected n selected rest
    end
  else ret j.

(** The second branch of [random.sample]: [k] draws of indices that are
    not selected yet. *)
Fixpoint sample_selected {A} (population : list A) (n : nat) (selected : gset nat)
    (k : nat) : M World (list A) :=
  match k with
  | O => ret []
  | S k' =>
      w <- get ;;
      j <- draw_unselected n selected (tl (randoms w)) ;;
      match population !! j with
      | Some x =>
          rest <- sample_selected population n ({[j]} ∪ selected) k' ;;
          ret (x :: rest)
      | None => raise (IndexError "list index out of range")
      end
  end.

(** [21 + 4 ** ceil(log(k * 3, 4))] for [k > 5], else 21 *)
Definition setsize (k : nat) : nat :=
  (21 + if (5 <? k)%nat then 4 ^ ((Nat.log2_up (k * 3) + 1) / 2) else 0)%nat.

Definition random_sample {A} (population : list A) (k : nat) : M World (list A) :=
  let n := List.length population in
  if (n <? k)%nat
  then raise (ValueError "Sample larger than population or is negative")
  else if (n <=? setsize k)%nat then sample_pool population k
  else sample_selected population n ∅ k.

(** ** [thrift_helper.py] *)

(** The two operations of the generated [AntiEntropy.Client]. *)
Inductive method : Type → Type :=
| push_rpc (payload : bytes) : method unit
| pull_rpc : method bytes.

Definition transport_isOpen (a : address) : M World bool :=
  gets (λ w, bool_decide (a ∈ conns w)).
Definition transport_open (a : address) : M World unit :=
  syscall (EvConnOpen a) ;;; modify (λ w, set_conns ({[a]} ∪ conns w) w).
Definition transport_close (a : address) : M World unit :=
  emit (EvConnClose a) ;;; modify (λ w, set_conns (conns w ∖ {[a]}) w).

(** A method call on the generated client: one request and its reply. *)
Definition client_call {A} (a : address) (m : method A) : M World A :=
  match m in method T return M World T with
  | push_rpc payload => syscall (EvRpcPush a payload)
  | pull_rpc =>
      syscall (EvRpcPull a) ;;;
      (λ w, match pulled w with
            | b :: rest => (Ok b, set_pulled rest w)
            | [] => (Ok [], w)
            end)
  end.

(** The transports and the client are cached per [(host, port, class,
    timeout)]: which of them are open is state of the process
    ([conns]), not of the helper object. *)
Record ThriftHelper : Type := mkThriftHelper {
  _host : string;
  _port : Z;
  _reliable : bool
}.

Definition ThriftHelper_init (host : string) (port : Z) (reliable : bool)
    (timeout : option Z) : ThriftHelper :=
  mkThriftHelper host port reliable.

Definition _invoke {A} (h : ThriftHelper) (m : method A) : M World A :=
  let a := (_host h, _port h) in
  try_except
    (o <- transport_isOpen a ;;
     (if negb o then transport_open a else ret tt) ;;;
     client_call a m)
    is_TTransportException
    (λ e, transport_close a ;;; raise e).

Definition _invoke_best_effort_broadcast {A} (h : ThriftHelper) (m : method A)
  : M World A :=
  try_except (_invoke h m) is_TTransportException
    (λ e, logging DEBUG "Thrift networking exception" ;;; raise e).

Fixpoint _invoke_reliable_broadcast {A} (fuel : nat) (h : ThriftHelper)
    (m : method A) : M World A :=
  match fuel with
  | O => out_of_fuel
  | S fuel' =>
      try_except (_invoke h m) is_TTransportException
        (λ _, logging DEBUG "Thrift networking exception, retrying" ;;;
              time_sleep 1000 ;;;
              _invoke_reliable_broadcast fuel' h m)
  end.

(** The callable that [ThriftHelper.__getattr__] returns, applied. *)
Definition wrapper {A} (fuel : nat) (h : ThriftHelper) (m : method A) : M World A :=
  if _reliable h then _invoke_reliable_broadcast fuel h m
  else _invoke_best_effort_broadcast h m.

(** ** [main.py]: argument validation *)

(** [s.rpartition(sep)] for a one-character separator *)
Definition rpartition (sep : ascii) (s : string) : string * string * string :=
  match cut_after_last sep s with
  | Some (h, t) =>
      (String.substring 0 (String.length h - 1) h, String sep EmptyString, t)
  | None => (EmptyString, EmptyString, s)
  end.

(** [c in s] *)
Fixpoint has_char (c : ascii) (s : string) : bool :=
  match s with
  | EmptyString => false
  | String a r => Ascii.eqb a c || has_char c r
  end.

Section ParseAddress.
(** Python's [int(str)]: [None] where it raises [ValueError]. *)
Variable py_int : string → option Z.

Definition parse_address (address_str : string) : exn + address :=
  let '(host, _, port_str) := rpartition ":"%char address_str in
  let host := strip ["["%char; "]"%char] host in
  if String.eqb host "" then
    inl (ArgumentTypeError "Host cannot be empty. Please specify a valid host.")
  else
    match py_int port_str with
    | None =>
        inl (ArgumentTypeError
               ("Port must be an integer in the range 0-65535, '" +:+ port_str
                +:+ "' provided."))
    | Some port_int =>
        if negb ((0 <=? port_int)%Z && (port_int <=? 65535)%Z) then
          inl (ArgumentTypeError
                 ("Port must be an integer in the range 0-65535, '"
                  +:+ pretty port_int +:+ "' provided."))
        else inr (host, port_int)
    end.
End ParseAddress.

(** [validate_sketch_file] of [main.py] (lines 84-101), the [type=] of
    [--sketch-file]. *)
Definition validate_sketch_file (sketch_file : string) : M World string :=
  let '(dirname, basename) := os_path_split sketch_file in
  let dirname := if String.eqb dirname "" then "." else dirname in
  if String.eqb basename "" then
    raise (ArgumentTypeError "The sketch file name cannot be empty or a directory.")
  else
    isdir <- os_path_isdir sketch_file ;;
    if isdir : bool then
      raise (ArgumentTypeError
               ("The path '" +:+ sketch_file +:+ "' is a directory, not a file."))
    else
      present <- os_path_exists sketch_file ;;
      unwritable <- (if present : bool
                     then ok <- os_access_W_OK sketch_file ;; ret (negb ok)
                     else ret false) ;;
      if unwritable : bool then
        raise (ArgumentTypeError ("The file '" +:+ sketch_file +:+ "' is not writable."))
      else
        ok <- os_access_W_OK dirname ;;
        if negb ok then
          raise (ArgumentTypeError ("No write permission in the directory '"
                                    +:+ dirname +:+ "'."))
        else ret sketch_file.

(** What [parse_args] does with the parsed namespace (lines 167-184);
    [parser.error] exits the process with status 2. *)
Record Namespace : Type := mkNamespace {
  ns_sketch_file : option string;
  ns_durability_level : DurabilityLevel;
  ns_atomicity : option bool
}.

(** [a or b] for [a : Optional[bool]] and [b : bool] *)
Definition py_or (a : option bool) (b : bool) : bool :=
  match a with
  | Some true => true
  | Some false | None => b
  end.

Definition parse_args_check (args : Namespace) : exn + Namespace :=
  let atomicity :=
    py_or (ns_atomicity args) (negb (bool_decide (ns_durability_level args = VOLATILE))) in
  let args := mkNamespace (ns_sketch_file args) (ns_durability_level args) (Some atomicity) in
  if bool_decide (ns_durability_level args = VOLATILE) then
    if atomicity then inl (SystemExit 2) else inr args
  else
    match ns_sketch_file args with
    | None => inl (SystemExit 2)
    | Some _ => inr args
    end.

(** ** The [datasketches] interface *)

(** [hll_sketch_update] is [sketch.update(datum)] (the sketch object is
    replaced by its updated value), [hll_sketch_deserialize] gives [None]
    where the library raises, [estimate_repr] is the [%r] rendering of
    [get_estimate()]. *)
Class SketchLib : Type := {
  hll_sketch : Type;
  hll_union : Type;
  hll_sketch_new : Z → hll_sketch;
  hll_sketch_update : hll_sketch → datum → hll_sketch;
  serialize_compact : hll_sketch → bytes;
  hll_sketch_deserialize : bytes → option hll_sketch;
  estimate_repr : hll_sketch → string;
  hll_union_new : Z → hll_union;
  hll_union_update : hll_union → hll_sketch → hll_union;
  get_result : hll_union → hll_sketch
}.

(** A Python [dict] with its insertion order. *)
Fixpoint dict_get {V} (d : list (Z * V)) (k : Z) : option V :=
  match d with
  | [] => None
  | (k', v) :: r => if bool_decide (k' = k) then Some v else dict_get r k
  end.
Fixpoint dict_set {V} (d : list (Z * V)) (k : Z) (v : V) : list (Z * V) :=
  match d with
  | [] => [(k, v)]
  | (k', v') :: r => if bool_decide (k' = k) then (k, v) :: r else (k', v') :: dict_set r k v
  end.

Fixpoint for_each {Σ A} (l : list A) (body : A → M Σ unit) : M Σ unit :=
  match l with
  | [] => ret tt
  | x :: r => body x ;;; for_each r body
  end.

Section Mesh.
Context `{SketchLib}.

(** ** [analytics_mesh.py] *)

(** The attributes of an [AnalyticsMesh] object. *)
Record AnalyticsMesh : Type := mkAnalyticsMesh {
  enable_server : bool;
  enable_client : bool;
  server_address : option address;
  client_addresses : option (list address);
  sketch_file : option string;
  durability_level : DurabilityLevel;
  atomicity : bool;
  sketch_file_dirname : option string;
  sketch_file_basename : option string;
  enable_committer : bool;
  continue_client : bool;
  continue_committer : bool;
  is_dirty : bool;
  server_thread : option thread;
  client_thread : option thread;
  committer_thread : option thread;
  prev_signal_handlers : list (Z * handler);
  server : option unit;
  sketch : hll_sketch
}.

Definition with_continue_client (x : bool) (n : AnalyticsMesh) : AnalyticsMesh :=
  mkAnalyticsMesh (enable_server n) (enable_client n) (server_address n)
    (client_addresses n) (sketch_file n) (durability_level n) (atomicity n)
    (sketch_file_dirname n) (sketch_file_basename n) (enable_committer n)
    x (continue_committer n) (is_dirty n) (server_thread n)
    (client_thread n) (committer_thread n) (prev_signal_handlers n) (server n)
    (sketch n).
Definition with_continue_committer (x : bool) (n : AnalyticsMesh) : AnalyticsMesh :=
  mkAnalyticsMesh (enable_server n) (enable_client n) (server_address n)
    (client_addresses n) (sketch_file n) (durability_level n) (atomicity n)
    (sketch_file_dirname n) (sketch_file_basename n) (enable_committer n)
    (continue_client n) x (is_dirty n) (server_thread n)
    (client_thread n) (committer_thread n) (prev_signal_handlers n) (server n)
    (sketch n).
Definition with_is_dirty (x : bool) (n : AnalyticsMesh) : AnalyticsMesh :=
  mkAnalyticsMesh (enable_server n) (enable_client n) (server_address n)
    (client_addresses n) (sketch_file n) (durability_level n) (atomicity n)
    (sketch_file_dirname n) (sketch_file_basename n) (enable_committer n)
    (continue_client n) (continue_committer n) x (server_thread n)
    (client_thread n) (committer_thread n) (prev_signal_handlers n) (server n)
    (sketch n).
Definition with_server_thread (x : option thread) (n : AnalyticsMesh) : AnalyticsMesh :=
  mkAnalyticsMesh (enable_server n) (enable_client n) (server_address n)
    (client_addresses n) (sketch_file n) (durability_level n) (atomicity n)
    (sketch_file_dirname n) (sketch_file_basename n) (enable_committer n)
    (continue_client n) (continue_committer n) (is_dirty n) x
    (client_thread n) (committer_thread n) (prev_signal_handlers n) (server n)
    (sketch n).
Definition with_client_thread (x : option thread) (n : AnalyticsMesh) : AnalyticsMesh :=
  mkAnalyticsMesh (enable_server n) (enable_client n) (server_address n)
    (client_addresses n) (sketch_file n) (durability_level n) (atomicity n)
    (sketch_file_dirname n) (sketch_file_basename n) (enable_committer n)
    (continue_client n) (continue_committer n) (is_dirty n) (server_thread n)
    x (committer_thread n) (prev_signal_handlers n) (server n)
    (sketch n).
Definition with_committer_thread (x : option thread) (n : AnalyticsMesh) : AnalyticsMesh :=
  mkAnalyticsMesh (enable_server n) (enable_client n) (server_address n)
    (client_addresses n) (sketch_file n) (durability_level n) (atomicity n)
    (sketch_file_dirname n) (sketch_file_basename n) (enable_committer n)
    (continue_client n) (continue_committer n) (is_dirty n) (server_thread n)
    (client_thread n) x (prev_signal_handlers n) (server n)
    (sketch n).
Definition with_prev_signal_handlers (x : list (Z * handler)) (n : AnalyticsMesh)
  : AnalyticsMesh :=
  mkAnalyticsMesh (enable_server n) (enable_client n) (server_address n)
    (client_addresses n) (sketch_file n) (durability_level n) (atomicity n)
    (sketch_file_dirname n) (sketch_file_basename n) (enable_committer n)
    (continue_client n) (continue_committer n) (is_dirty n) (server_thread n)
    (client_thread n) (committer_thread n) x (server n)
    (sketch n).
Definition with_server (x : option unit) (n : AnalyticsMesh) : AnalyticsMesh :=
  mkAnalyticsMesh (enable_server n) (enable_client n) (server_address n)
    (client_addresses n) (sketch_file n) (durability_level n) (atomicity n)
    (sketch_file_dirname n) (sketch_file_basename n) (enable_committer n)
    (continue_client n) (continue_committer n) (is_dirty n) (server_thread n)
    (client_thread n) (committer_thread n) (prev_signal_handlers n) x
    (sketch n).
Definition with_sketch (x : hll_sketch) (n : AnalyticsMesh) : AnalyticsMesh :=
  mkAnalyticsMesh (enable_server n) (enable_client n) (server_address n)
    (client_addresses n) (sketch_file n) (durability_level n) (atomicity n)
    (sketch_file_dirname n) (sketch_file_basename n) (enable_committer n)
    (continue_client n) (continue_committer n) (is_dirty n) (server_thread n)
    (client_thread n) (committer_thread n) (prev_signal_handlers n) (server n)
    x.

(** A method runs on the object and on the process environment. *)
Record State : Type := mkState { self : AnalyticsMesh; env : World }.

Definition io {A} (m : M World A) : M State A :=
  zoom env (λ w s, mkState (self s) w) m.
Definition attr {A} (f : AnalyticsMesh → A) : M State A :=
  gets (λ s, f (self s)).
Definition assign (upd : AnalyticsMesh → AnalyticsMesh) : M State unit :=
  modify (λ s, mkState (upd (self s)) (env s)).

(** *** Construction *)

(** Lines 51-58: the check of [server_address]. *)
Definition check_address (a : option address) : M World unit :=
  match a with
  | Some (host, port) =>
      if String.eqb host "" then
        raise (ValueError "Host cannot be empty. Please specify a valid host.")
      else if negb ((0 <=? port)%Z && (port <=? 65535)%Z) then
        raise (ValueError ("Port must be an integer in the range 0-65535, '"
                           +:+ pretty port +:+ "' provided."))
      else ret tt
  | None => ret tt
  end.

(** Lines 78-98: the checks of the sketch file; the result is
    [(sketch_file_dirname, sketch_file_basename)]. *)
Definition check_sketch_file (sketch_file : option string)
  : M World (option string * option string) :=
  match sketch_file with
  | None => ret (None, None)
  | Some path =>
      let '(dirname, basename) := os_path_split path in
      let dirname := if String.eqb dirname "" then "." else dirname in
      if String.eqb basename "" then
        raise (ValueError "The sketch file name cannot be empty or a directory.")
      else
        isdir <- os_path_isdir path ;;
        if isdir : bool then
          raise (ValueError ("The path '" +:+ path +:+ "' is a directory, not a file."))
        else
          present <- os_path_exists path ;;
          unwritable <- (if present : bool
                         then ok <- os_access_W_OK path ;; ret (negb ok)
                         else ret false) ;;
          if unwritable : bool then
            raise (ValueError ("The file '" +:+ path +:+ "' is not writable."))
          else
            ok <- os_access_W_OK dirname ;;
            if negb ok then
              raise (ValueError ("No write permission in the directory '"
                                 +:+ dirname +:+ "'."))
            else ret (Some dirname, Some basename)
  end.

Definition __init__ (enable_server enable_client : bool)
    (server_address : option address) (client_addresses : option (list address))
    (sketch_file : option string) (durability_level : DurabilityLevel)
    (atomicity : option bool) : M World AnalyticsMesh :=
  check_address server_address ;;;
  let atomicity := py_or atomicity (negb (bool_decide (durability_level = VOLATILE))) in
  (if bool_decide (durability_level = VOLATILE) then
     if atomicity then
       raise (ValueError ("Atomicity cannot be enabled with "
                          +:+ DurabilityLevel_str durability_level +:+ " durability. "
                          +:+ "Remove the atomicity flag or adjust the durability level."))
     else ret tt
   else
     match sketch_file with
     | None =>
         raise (ValueError ("A sketch file is required with "
                            +:+ DurabilityLevel_str durability_level +:+ " durability. "
                            +:+ "Provide a valid file path using the sketch_file argument "
                            +:+ "or set durability_level to "
                            +:+ DurabilityLevel_str VOLATILE +:+ "."))
     | Some _ => ret tt
     end) ;;;
  names <- check_sketch_file sketch_file ;;
  let enable_committer := bool_decide (durability_level = DELAYED) in
  ret {| enable_server := enable_server;
         enable_client := enable_client;
         server_address := server_address;
         client_addresses := client_addresses;
         sketch_file := sketch_file;
         durability_level := durability_level;
         atomicity := atomicity;
         sketch_file_dirname := fst names;
         sketch_file_basename := snd names;
         enable_committer := enable_committer;
         continue_client := enable_client;
         continue_committer := enable_committer;
         is_dirty := false;
         server_thread := None;
         client_thread := None;
         committer_thread := None;
         prev_signal_handlers := [];
         server := None;
         sketch := hll_sketch_new LOG_K |}.

(** *** Loading and committing *)

Definition deserialize (b : bytes) : M State hll_sketch :=
  match hll_sketch_deserialize b with
  | Some sk => ret sk
  | None => raise (SketchError "deserialize")
  end.

Definition reader_work : M State bool :=
  sf <- attr sketch_file ;;
  match sf with
  | None => ret false
  | Some path =>
      self_serialized <-
        try_except
          (io (open_rb path) ;;;
           try_finally (b <- io (file_read path) ;; ret (Some b))
                       (io (file_close path)))
          is_FileNotFoundError
          (λ _, ret None) ;;
      match self_serialized with
      | None => ret false
      | Some b =>
          sk <- deserialize b ;;
          assign (with_sketch sk) ;;;
          ret true
      end
  end.

(** [tempfile.gettempdir()], the directory [NamedTemporaryFile] uses for
    [dir=None]. *)
Definition gettempdir : string := "/tmp".

(** The body of the [try] of the atomic branch; the local variable
    [temp_file_path] is the second component of the state. *)
Definition atomic_try (dirname basename : option string) (target : string)
    (payload : bytes) : M (State * option string) unit :=
  (* 1. create a new temp file (on the same file system!) *)
  prefix <- match basename with
            | Some b => ret (b +:+ "_")
            | None => raise (TypeError "unsupported operand type(s) for +: 'NoneType' and 'str'")
            end ;;
  temp_file <- outer (io (NamedTemporaryFile (default gettempdir dirname) prefix ".tmp")) ;;
  try_finally
    (set_local (Some temp_file) ;;;
     (* 2. write data to the temp file *)
     outer (io (file_write temp_file payload)) ;;;
     (* 3. fsync() the temp file *)
     outer (io (file_flush temp_file)) ;;;
     outer (io (os_fsync temp_file)))
    (outer (io (file_close temp_file))) ;;;
  (* 4. rename the temp file to the appropriate name *)
  temp_file_path <- get_local ;;
  match temp_file_path with
  | None => raise (TypeError "expected str, bytes or os.PathLike object, not NoneType")
  | Some p => outer (io (os_replace p target))
  end ;;;
  (* 5. fsync() the containing directory *)
  dir_fd <- match dirname with
            | Some d => outer (io (os_open_dir d))
            | None => raise (TypeError "expected str, bytes or os.PathLike object, not NoneType")
            end ;;
  try_finally (outer (io (os_fsync_dir dir_fd))) (outer (io (os_close_dir dir_fd))).

(** The [except BaseException as e] clause of the atomic branch. *)
Definition atomic_except (e : exn) : M (State * option string) unit :=
  temp_file_path <- get_local ;;
  match temp_file_path with
  | Some p =>
      try_except (outer (io (os_remove p))) is_FileNotFoundError
        (λ _, outer (io (logging WARNING
                           ("Temporary file deletion failed: '" +:+ p +:+ "' not found."))))
  | None => ret tt
  end ;;;
  raise e.

Definition atomic_write (dirname basename : option string) (target : string)
    (payload : bytes) : M State unit :=
  with_local None
    (try_except (atomic_try dirname basename target payload)
                is_BaseException atomic_except).

Definition direct_write (target : string) (payload : bytes) : M State unit :=
  io (open_wb target) ;;;
  try_finally
    (io (file_write target payload) ;;;
     io (file_flush target) ;;;
     io (os_fsync target))
    (io (file_close target)).

Definition committer_work : M State bool :=
  n <- attr id ;;
  if bool_decide (durability_level n = VOLATILE) then ret false
  else
    match sketch_file n with
    | None => ret false
    | Some target =>
        if is_dirty n then
          (if atomicity n then
             atomic_write (sketch_file_dirname n) (sketch_file_basename n) target
                          (serialize_compact (sketch n))
           else direct_write target (serialize_compact (sketch n))) ;;;
          assign (with_is_dirty false) ;;;
          ret true
        else ret false
    end.

Fixpoint committer_work_periodic (fuel : nat) : M State unit :=
  match fuel with
  | O => out_of_fuel
  | S fuel' =>
      continue <- attr continue_committer ;;
      if continue : bool then
        io (time_sleep (COMMITTER_INTERVAL * 1000)) ;;;
        committer_work ;;;
        committer_work_periodic fuel'
      else ret tt
  end.

Definition start_committer : M State thread := io (thread_start CommitterThread).

Definition update_sketch (d : datum) : M State unit :=
  sk <- attr sketch ;;
  assign (with_sketch (hll_sketch_update sk d)) ;;;
  assign (with_is_dirty true) ;;;
  level <- attr durability_level ;;
  if bool_decide (level = STRICT) then committer_work ;;; ret tt else ret tt.

(** *** Signals and the life cycle *)

Definition signal_handler (signum : Z) : M State unit :=
  level <- attr durability_level ;;
  (if bool_decide (level = DELAYED) then committer_work ;;; ret tt else ret tt) ;;;
  prev <- attr prev_signal_handlers ;;
  match dict_get prev signum with
  | Some prev_handler =>
      curr_handler <- io (signal_getsignal signum) ;;
      if bool_decide (curr_handler = mesh_signal_handler) then
        io (signal_signal signum prev_handler) ;;;
        io (os_kill_self signum) ;;;
        io (signal_signal signum mesh_signal_handler) ;;;
        ret tt
      else ret tt
  | None => ret tt
  end.

Definition start_server (address : option address) : M State thread :=
  io (thread_start ServerThread).
Definition start_client (client_addresses : option (list address)) : M State thread :=
  io (thread_start ClientThread).

Definition start_handler : M State unit :=
  reader_work ;;;
  for_each [SIGINT; SIGTERM; SIGQUIT; SIGABRT; SIGHUP; SIGTSTP; SIGPWR]
    (λ sig,
       old <- io (signal_signal sig mesh_signal_handler) ;;
       prev <- attr prev_signal_handlers ;;
       assign (with_prev_signal_handlers (dict_set prev sig old))) ;;;
  n <- attr id ;;
  (if enable_server n then
     match server_thread n with
     | None =>
         t <- start_server (server_address n) ;;
         assign (with_server_thread (Some t))
     | Some _ =>
         io (logging WARNING
               "The server thread is already running. Ignoring duplicate start request.")
     end
   else ret tt) ;;;
  (if enable_client n then
     match client_thread n with
     | None =>
         t <- start_client (client_addresses n) ;;
         assign (with_client_thread (Some t))
     | Some _ =>
         io (logging WARNING
               "The client thread is already running. Ignoring duplicate start request.")
     end
   else ret tt) ;;;
  (if enable_committer n then
     match committer_thread n with
     | None =>
         t <- start_committer ;;
         assign (with_committer_thread (Some t))
     | Some _ =>
         io (logging WARNING
               "The committer thread is already running. Ignoring duplicate start request.")
     end
   else ret tt).

(** [while self.server is None: time.sleep(0.01)] *)
Fixpoint wait_for_server (fuel : nat) : M State unit :=
  match fuel with
  | O => out_of_fuel
  | S fuel' =>
      srv <- attr server ;;
      match srv with
      | None => io (time_sleep 10) ;;; wait_for_server fuel'
      | Some _ => ret tt
      end
  end.

Definition stop_server (fuel : nat) : M State unit :=
  enabled <- attr enable_server ;;
  if enabled : bool then
    wait_for_server fuel ;;;
    io (emit EvServerStop)
  else ret tt.

Definition stop_client : M State unit := assign (with_continue_client false).
Definition stop_committer : M State unit := assign (with_continue_committer false).

Definition stop_handler (fuel : nat) : M State unit :=
  stop_server fuel ;;;
  stop_client ;;;
  stop_committer ;;;
  level <- attr durability_level ;;
  (if bool_decide (level = DELAYED) then committer_work ;;; ret tt else ret tt) ;;;
  prev <- attr prev_signal_handlers ;;
  for_each prev
    (λ '(sig, prev_handler),
       curr_handler <- io (signal_getsignal sig) ;;
       if bool_decide (curr_handler = mesh_signal_handler) then
         io (signal_signal sig prev_handler) ;;; ret tt
       else ret tt).

(** *** Merging and the RPC endpoints *)

Definition merge (local other : hll_sketch) : hll_sketch :=
  let union := hll_union_new LOG_K in
  let union := hll_union_update union local in
  let union := hll_union_update union other in
  get_result union.

Definition imerge (other : hll_sketch) : M State unit :=
  before <- attr sketch ;;
  io (logging DEBUG ("The set has ~" +:+ estimate_repr before +:+ " elements")) ;;;
  let merged_sketch := merge before other in
  dirty <- attr is_dirty ;;
  assign (with_is_dirty
            (dirty || bool_decide (serialize_compact merged_sketch
                                   ≠ serialize_compact before))) ;;;
  assign (with_sketch merged_sketch) ;;;
  level <- attr durability_level ;;
  (if bool_decide (level = STRICT) then committer_work ;;; ret tt else ret tt) ;;;
  after <- attr sketch ;;
  io (logging DEBUG ("The set has ~" +:+ estimate_repr after +:+ " elements")).

Definition push (other_serialized : bytes) : M State unit :=
  other_deserialized <- deserialize other_serialized ;;
  imerge other_deserialized.

Definition pull : M State bytes :=
  sk <- attr sketch ;;
  ret (serialize_compact sk).

(** *** The gossip client *)

Definition push_pull (fuel : nat) (client : ThriftHelper) : M State unit :=
  sk <- attr sketch ;;
  let self_serialized := serialize_compact sk in
  io (wrapper fuel client (push_rpc self_serialized)) ;;;
  other_serialized <- io (wrapper fuel client pull_rpc) ;;
  other_deserialized <- deserialize other_serialized ;;
  imerge other_deserialized.

Definition anti_entropy (fuel : nat) (host : string) (port : Z) : M State unit :=
  let client := ThriftHelper_init host port false (Some ANTI_ENTROPY_TIMEOUT) in
  push_pull fuel client.

Definition try_anti_entropy (fuel : nat) (host : string) (port : Z) : M State bool :=
  try_except (anti_entropy fuel host port ;;; ret true)
             is_TTransportException
             (λ _, ret false).

Definition client_work (fuel : nat) (client_addresses : list address) : M State unit :=
  addresses <- io (random_sample client_addresses
                     (Nat.min (List.length client_addresses) ANTI_ENTROPY_MAX_CLIENTS)) ;;
  for_each addresses (λ '(host, port), try_anti_entropy fuel host port ;;; ret tt).

Fixpoint client_work_periodic (fuel : nat) (client_addresses : list address)
  : M State unit :=
  match fuel with
  | O => out_of_fuel
  | S fuel' =>
      continue <- attr continue_client ;;
      if continue : bool then
        client_work fuel' client_addresses ;;;
        io (time_sleep (ANTI_ENTROPY_INTERVAL * 1000)) ;;;
        client_work_periodic fuel' client_addresses
      else ret tt
  end.

End Mesh.

(** ** A small sketch library to run the model on

    A sketch is the list of the hashes it has seen, in the order and with
    the repetitions of their arrival; its compact form lists the hashes
    present in increasing order.  Different in-memory sketches can have the
    same compact form, as with the real library. *)
Module ToySketch.

Definition hash (d : datum) : nat :=
  match d with
  | DInt i => Z.to_nat (i mod 8)
  | DFloat _ => 8
  | DStr s => (9 + String.length s mod 7)%nat
  end.

Definition byte_of (n : nat) : Byte.byte := default Byte.x00 (Byte.of_nat n).

Definition compact (l : list nat) : bytes :=
  flat_map (λ n, if bool_decide (n ∈ l) then [byte_of n] else []) (seq 0 16).

Fixpoint increasing (lo : nat) (l : list nat) : bool :=
  match l with
  | [] => true
  | x :: r => (lo <=? x)%nat && (x <? 16)%nat && increasing (S x) r
  end.

Definition parse (b : bytes) : option (list nat) :=
  let l := Byte.to_nat <$> b in
  if increasing 0 l then Some l else None.

#[export] Instance lib : SketchLib := {|
  hll_sketch := list nat;
  hll_union := list nat;
  hll_sketch_new := λ _, [];
  hll_sketch_update := λ sk d, (sk ++ [hash d])%list;
  serialize_compact := compact;
  hll_sketch_deserialize := parse;
  estimate_repr := λ sk, pretty (List.length (compact sk));
  hll_union_new := λ _, [];
  hll_union_update := λ u sk, (u ++ sk)%list;
  get_result := λ u, u
|}.

Definition world0 : World :=
  {| files := ∅; dirs := {["."]}; writable := {["."]}; faults := [];
     tmp_names := ["k3x9"; "q7w1"]; pulled := []; randoms := [];
     conns := ∅; dispositions := ∅; cwd := "/srv/mesh"; trace := [] |}.

End ToySketch.

(** * Vocabulary of the statements *)

(** The world after a system call was entered: the event is recorded and
    the head of the failure schedule is used up. *)
Definition tick (ev : event) (w : World) : World :=
  set_faults (tl (faults w)) (set_trace (trace w ++ [ev]) w).

(** [sketch_file_dirname] and [sketch_file_basename] as the constructor
    derives them from the path of the sketch file. *)
Definition target_dir (target : string) : string :=
  let head := (os_path_split target).1 in
  if String.eqb head "" then "." else head.
Definition target_base (target : string) : string := (os_path_split target).2.

(** The temporary file [<abspath(dirname)>/<basename>_<random>.tmp] of a
    process whose working directory is [cwd]. *)
Definition temp_name (cwd dirname basename rnd : string) : string :=
  os_path_join (os_path_abspath cwd dirname) ((basename +:+ "_") +:+ rnd +:+ ".tmp").

(** The system calls of an atomic flush that meets no failure, in order. *)
Definition atomic_protocol (dirname basename tmp target : string) (payload : bytes)
  : list event :=
  [EvMkstemp dirname (basename +:+ "_") ".tmp";
   EvWrite tmp payload; EvFlush tmp; EvFsync tmp; EvClose tmp;
   EvReplace tmp target;
   EvOpenDir dirname; EvFsyncDir dirname; EvCloseDir dirname].

(** The system calls of a non-atomic flush that meets no failure. *)
Definition direct_protocol (target : string) (payload : bytes) : list event :=
  [EvOpenWrite target; EvWrite target payload; EvFlush target; EvFsync target;
   EvClose target].

Definition removal_warning (p : string) : event :=
  EvLog WARNING ("Temporary file deletion failed: '" +:+ p +:+ "' not found.").

(** No failure is scheduled for the next [k] system calls. *)
Definition calm (k : nat) (w : World) : Prop :=
  ∀ i e, (i < k)%nat → faults w !! i ≠ Some (Some e).

(** The number of system calls of a flush. *)
Definition flush_calls (atomic : bool) : nat := if atomic then 9%nat else 5%nat.

(** The calls that an atomic flush has recorded when its call number [k]
    (from 0) fails: the protocol up to that call, then the close that the
    [with] block or the [finally] clause still makes. *)
Definition atomic_calls_until (k : nat) (d b tmp target : string) (payload : bytes)
  : list event :=
  take (S k) (atomic_protocol d b tmp target payload) ++
  (if bool_decide (1 ≤ k ≤ 3)%nat then [EvClose tmp]
   else if bool_decide (k = 7%nat) then [EvCloseDir d] else []).

(** The schedule in which the first [k] calls succeed and the next one
    fails with [e]; nothing else fails. *)
Definition fails_at (k : nat) (e : exn) : list (option exn) :=
  replicate k None ++ [Some e].

(** The files when call [k] of an atomic flush to [target] has failed. *)
Definition atomic_files_until (k : nat) (tmp target : string) (payload : bytes)
    (fs : gmap string bytes) : gmap string bytes :=
  if bool_decide (k = 0%nat) then fs
  else if bool_decide (k = 1%nat) then <[tmp := []]> fs
  else if bool_decide (k ≤ 5)%nat then <[tmp := payload]> fs
  else <[target := payload]> fs.

(** What the handler of an atomic flush records after call [k] has failed:
    nothing when no temporary file was created, else the removal, and the
    warning when the rename had already moved the file away. *)
Definition atomic_cleanup (k : nat) (tmp : string) : list event :=
  if bool_decide (k = 0%nat) then []
  else if bool_decide (k ≤ 5)%nat then [EvRemove tmp]
  else [EvRemove tmp; removal_warning tmp].

(** The three calls of a load that meets no failure. *)
Definition loaded (path : string) (w : World) : World :=
  tick (EvClose path) (tick (EvRead path) (tick (EvOpenRead path) w)).

(** The request that a method call on the generated client sends. *)
Definition rpc_event {A} (a : address) (m : method A) : event :=
  match m with
  | push_rpc payload => EvRpcPush a payload
  | pull_rpc => EvRpcPull a
  end.

(** What one failed attempt of a reliable call records. *)
Definition failed_attempt (a : address) : list event :=
  [EvConnOpen a; EvConnClose a;
   EvLog DEBUG "Thrift networking exception, retrying"; EvSleep 1000].

Definition transport_down (msg : string) : option exn := Some (TTransportException msg).

(** The reply of the peer to a method call. *)
Definition reply {A} (m : method A) (w : World) : A :=
  match m in method T return T with
  | push_rpc _ => tt
  | pull_rpc => hd [] (pulled w)
  end.


(** [steps I R m]: started in a state satisfying [I], the computation [m]
    ends (normally or not) in a state that satisfies [I] again and is
    related to the initial one by [R]. *)
Definition steps {Σ A} (I : Σ → Prop) (R : Σ → Σ → Prop) (m : M Σ A) : Prop :=
  ∀ s, I s → I (m s).2 ∧ R s (m s).2.

(** The computation does not run out of fuel. *)
Definition total {Σ A} (m : M Σ A) : Prop := ∀ s, (m s).1 ≠ OutOfFuel.

(** The events recorded between two worlds all satisfy [P]. *)
Definition trace_ext (P : event → Prop) (w w' : World) : Prop :=
  ∃ t, trace w' = trace w ++ t ∧ Forall P t.

Definition I_local {Σ L} (I : Σ → Prop) : Σ * L → Prop := λ x, I x.1.
Definition R_local {Σ L} (R : Σ → Σ → Prop) : Σ * L → Σ * L → Prop :=
  λ x y, R x.1 y.1.

Definition any {Σ} : Σ → Prop := λ _, True.

(** Events that are no file-system operation. *)
Definition no_file (ev : event) : Prop := is_file_io ev = false.

(** Events that are no file-system operation, or read the file [p]. *)
Definition no_file_but_read (p : string) (ev : event) : Prop :=
  is_file_io ev = false ∨ ev = EvOpenRead p ∨ ev = EvRead p ∨ ev = EvClose p.

Section MeshVocabulary.
Context `{SketchLib}.

(** What the constructor establishes about the attributes that no method
    assigns afterwards. *)
Definition node_ok (n : AnalyticsMesh) : Prop :=
  match sketch_file n with
  | Some target =>
      sketch_file_dirname n = Some (target_dir target) ∧
      sketch_file_basename n = Some (target_base target)
  | None =>
      durability_level n = VOLATILE ∧
      sketch_file_dirname n = None ∧ sketch_file_basename n = None
  end.

(** The configuration of a node: the attributes fixed at construction. *)
Definition config (n : AnalyticsMesh)
  : option string * DurabilityLevel * bool * option string * option string :=
  (sketch_file n, durability_level n, atomicity n,
   sketch_file_dirname n, sketch_file_basename n).

Definition on_self (J : AnalyticsMesh → Prop) : State → Prop := λ s, J (self s).
Definition same_self : State → State → Prop := λ s s', self s' = self s.
Definition same_config : State → State → Prop :=
  λ s s', config (self s') = config (self s).
Definition emits (P : event → Prop) : State → State → Prop :=
  λ s s', trace_ext P (env s) (env s').

(** A run of [m] from [s] records no file-system operation. *)
Definition no_file_io {A} (m : M State A) (s : State) : Prop :=
  emits no_file s (m s).2.

(** One gossip round over the sampled addresses (the loop of
    [client_work]). *)
Definition round (fuel : nat) (addresses : list address) : M State unit :=
  for_each addresses (λ '(host, port), try_anti_entropy fuel host port ;;; ret tt).
(** While the temporary file is being filled and renamed, the local
    [temp_file_path] keeps its value, the object is untouched, and the
    trace only grows. *)
Definition path_kept (tmp : string) : State * option string → Prop :=
  λ x, x.2 = Some tmp.
Definition self_kept_trace_grows : State * option string → State * option string → Prop :=
  λ x y, self y.1 = self x.1 ∧ trace_ext any (env x.1) (env y.1).

(** While the temporary file [tmp] is in use, the file [target] holds [c]. *)
Definition target_holds (target : string) (c : bytes) (tmp : string)
  : State * option string → Prop :=
  λ x, x.2 = Some tmp ∧ files (env x.1) !! target = Some c.
Definition unrelated : State * option string → State * option string → Prop :=
  λ _ _, True.



(** [m] changes nothing of the configuration, and keeps the invariant of
    the constructor. *)
Definition keeps_config {A} (m : M State A) : Prop :=
  ∀ s, config (self (m s).2) = config (self s) ∧
       (node_ok (self s) → node_ok (self (m s).2)).

(** The flag of the client loop is left as it is. *)
Definition same_continue_client : State → State → Prop :=
  λ s s', continue_client (self s') = continue_client (self s).

(** A node of VOLATILE durability whose sketch file is [sf]. *)
Definition volatile_with (sf : option string) (n : AnalyticsMesh) : Prop :=
  durability_level n = VOLATILE ∧ sketch_file n = sf.
End MeshVocabulary.

(** ** Concrete states for runs on the small sketch library *)
Module Runs.
Import ToySketch.

(** A node as the constructor leaves it, with the given durability,
    sketch file, dirty flag and sketch. *)
Definition node (d : DurabilityLevel) (sf : option string) (dirty : bool)
    (sk : list nat) : AnalyticsMesh :=
  {| enable_server := true; enable_client := true;
     server_address := Some ("::", 6000); client_addresses := Some [("::1", 6000)];
     sketch_file := sf; durability_level := d;
     atomicity := negb (bool_decide (d = VOLATILE));
     sketch_file_dirname := target_dir <$> sf;
     sketch_file_basename := target_base <$> sf;
     enable_committer := bool_decide (d = DELAYED);
     continue_client := true; continue_committer := bool_decide (d = DELAYED);
     is_dirty := dirty;
     server_thread := None; client_thread := None; committer_thread := None;
     prev_signal_handlers := []; server := None; sketch := sk |}.

Definition strict_dirty : State := mkState (node STRICT (Some "s1") true [3%nat]) world0.

(** The same node with the atomicity flag off. *)
Definition direct_dirty : State :=
  mkState {| enable_server := true; enable_client := true;
             server_address := Some ("::", 6000); client_addresses := Some [("::1", 6000)];
             sketch_file := Some "s1"; durability_level := STRICT; atomicity := false;
             sketch_file_dirname := Some (target_dir "s1");
             sketch_file_basename := Some (target_base "s1");
             enable_committer := false; continue_client := true;
             continue_committer := false; is_dirty := true;
             server_thread := None; client_thread := None; committer_thread := None;
             prev_signal_handlers := []; server := None; sketch := [3%nat] |}
          world0.
Definition delayed_clean : State := mkState (node DELAYED (Some "s1") false [1%nat; 2%nat]) world0.
Definition volatile_clean : State := mkState (node VOLATILE None false [1%nat; 2%nat]) world0.

(** A world whose working directory holds an entry [b], so that [b/..] is
    a directory in which the process may write. *)
Definition world_linked : World :=
  {| files := ∅; dirs := {["."; "b/.."]}; writable := {["."; "b/.."]}; faults := [];
     tmp_names := ["k3x9"; "q7w1"]; pulled := []; randoms := [];
     conns := ∅; dispositions := ∅; cwd := "/srv/mesh"; trace := [] |}.

(** The entry [b] of the working directory is a symbolic link to the
    directory [/data/x]. *)
Definition b_links_to_data : gmap string string := {["/srv/mesh/b" := "/data/x"]}.

(** A world in which the sketch file exists. *)
Definition world_with_file : World :=
  {| files := {["s1" := []]}; dirs := {["."]}; writable := {["."; "s1"]}; faults := [];
     tmp_names := ["k3x9"; "q7w1"]; pulled := []; randoms := [];
     conns := ∅; dispositions := ∅; cwd := "/srv/mesh"; trace := [] |}.

(** A VOLATILE node that names a sketch file, with unsaved changes, whose
    server is up. *)
Definition volatile_serving : State :=
  mkState (with_server (Some tt) (node VOLATILE (Some "s1") true [3%nat])) world_with_file.

(** A world in which the next peer answers [pull] with bytes that are no
    compact sketch. *)
Definition world_bad_peer : World :=
  set_pulled [[Byte.x05; Byte.x01]] world0.
Definition gossiping : State := mkState (node VOLATILE None false [1%nat; 2%nat]) world_bad_peer.
Definition the_peer : ThriftHelper :=
  ThriftHelper_init "::1" 6000 false (Some ANTI_ENTROPY_TIMEOUT).
Definition after_push : State :=
  Eval vm_compute in
    (io (wrapper 0 the_peer (push_rpc (compact [1%nat; 2%nat]))) gossiping).2.
Definition after_pull : State :=
  Eval vm_compute in (io (wrapper 0 the_peer pull_rpc) after_push).2.
(** The STRICT node with unsaved changes in a world where the sixth call
    (the rename of an atomic flush) fails. *)
Definition rename_fails : State :=
  mkState (node STRICT (Some "s1") true [3%nat]) (set_faults (fails_at 5 (OSError 5)) world0).

(** ... and where the sketch file already exists. *)
Definition rename_fails_on_file : State :=
  mkState (node STRICT (Some "s1") true [3%nat])
          (set_faults (fails_at 5 (OSError 5)) world_with_file).

(** The node without atomicity, in a world where the sketch file holds a
    sketch and the write after the open fails. *)
Definition write_fails : State :=
  mkState (self direct_dirty)
          (set_faults [None; Some (OSError 28)]
             (set_files {["s1" := compact [1%nat; 2%nat]]} world0)).

(** The state after the flush of [strict_dirty]. *)
Definition strict_flushed : State := Eval vm_compute in (committer_work strict_dirty).2.

(** A DELAYED node next to its sketch file. *)
Definition delayed_with_file : State :=
  mkState (node DELAYED (Some "s1") false [1%nat; 2%nat]) world_with_file.

(** A DELAYED node with unsaved changes whose first system call fails. *)
Definition delayed_failing : State :=
  mkState (node DELAYED (Some "s1") true [3%nat]) (set_faults [Some (OSError 28)] world0).
Definition delayed_failed : State :=
  Eval vm_compute in (committer_work_periodic 2 delayed_failing).2.

(** A world in which the peer refuses two connections. *)
Definition world_refusing : World :=
  set_faults [Some (TTransportException "refused"); Some (TTransportException "refused")]
             world0.
Definition reliable_peer : ThriftHelper := ThriftHelper_init "::1" 6000 true None.

(** A world in which the next system call fails for a reason that is no
    transport exception. *)
Definition world_broken : World := set_faults [Some (OSError 24)] world0.

(** A node whose peer is down. *)
Definition peer_down : State :=
  mkState (node VOLATILE None false [1%nat; 2%nat])
          (set_faults [Some (TTransportException "down")] world0).
Definition after_peer_down : State :=
  Eval vm_compute in (try_anti_entropy 0 "::1" 6000 peer_down).2.

(** [int] on the strings of the runs. *)
Definition int_of_run (s : string) : option Z :=
  if String.eqb s "6000" then Some 6000 else None.



(** The VOLATILE node with the flag of its client loop cleared. *)
Definition client_stopped : State :=
  mkState (with_continue_client false (node VOLATILE None false [1%nat; 2%nat])) world0.

End Runs.

(** * Reasoning about runs *)

(** ** Inversion of normal termination *)

Lemma bind_Ok_inv {Σ A B} (m : M Σ A) (k : A → M Σ B) s b s2 :
  bind m k s = (Ok b, s2) → ∃ a s1, m s = (Ok a, s1) ∧ k a s1 = (Ok b, s2).
Proof.
  unfold bind. destruct (m s) as [[a|e|] s1]; intros Hk; try discriminate Hk. eauto.
Qed.

Lemma try_finally_Ok_inv {Σ A} (m : M Σ A) fin s a s2 :
  try_finally m fin s = (Ok a, s2) → ∃ s1, m s = (Ok a, s1) ∧ fin s1 = (Ok tt, s2).
Proof.
  unfold try_finally, bind, ret, raise. destruct (m s) as [[a'|e|] s1];
    [destruct (fin s1) as [[[]|e'|] s3] eqn:Hf | destruct (fin s1) as [[[]|e'|] s3] |];
    intros Hk; inversion Hk; subst; eauto.
Qed.

Lemma bind_Ok {Σ A B} (m : M Σ A) (k : A → M Σ B) s a s1 :
  m s = (Ok a, s1) → bind m k s = k a s1.
Proof. unfold bind. by intros ->. Qed.

Lemma bind_Raise {Σ A B} (m : M Σ A) (k : A → M Σ B) s e s1 :
  m s = (Raise e, s1) → bind m k s = (Raise e, s1).
Proof. unfold bind. by intros ->. Qed.

Lemma bind_OutOfFuel {Σ A B} (m : M Σ A) (k : A → M Σ B) s s1 :
  m s = (OutOfFuel, s1) → bind m k s = (OutOfFuel, s1).
Proof. unfold bind. by intros ->. Qed.

Lemma try_except_Ok {Σ A} (m : M Σ A) cls h s a s1 :
  m s = (Ok a, s1) → try_except m cls h s = (Ok a, s1).
Proof. unfold try_except. by intros ->. Qed.

Lemma try_except_caught {Σ A} (m : M Σ A) cls h s e s1 :
  m s = (Raise e, s1) → cls e = true → try_except m cls h s = h e s1.
Proof. unfold try_except. by intros -> ->. Qed.

Lemma try_except_passed {Σ A} (m : M Σ A) cls h s e s1 :
  m s = (Raise e, s1) → cls e = false → try_except m cls h s = (Raise e, s1).
Proof. unfold try_except. by intros -> ->. Qed.

Lemma try_finally_Ok {Σ A} (m : M Σ A) fin s a s1 s2 :
  m s = (Ok a, s1) → fin s1 = (Ok tt, s2) → try_finally m fin s = (Ok a, s2).
Proof. unfold try_finally, bind, ret. by intros -> ->. Qed.

Lemma try_finally_Raise {Σ A} (m : M Σ A) fin s e s1 s2 :
  m s = (Raise e, s1) → fin s1 = (Ok tt, s2) → try_finally m fin s = (Raise e, s2).
Proof. unfold try_finally, bind, raise. by intros -> ->. Qed.

Lemma try_finally_fin_Raise {Σ A} (m : M Σ A) fin s a s1 e s2 :
  m s = (Ok a, s1) → fin s1 = (Raise e, s2) → try_finally m fin s = (Raise e, s2).
Proof. unfold try_finally, bind. by intros -> ->. Qed.

(** ** The logic of steps *)

Section StepLogic.
Context {Σ : Type} (I : Σ → Prop) (R : Σ → Σ → Prop).
Hypothesis R_refl : ∀ s, R s s.
Hypothesis R_trans : ∀ a b c, R a b → R b c → R a c.

Lemma steps_ret {A} (a : A) : steps I R (ret a).
Proof using R_refl. intros s Hs; cbn; auto. Qed.

Lemma steps_raise {A} e : steps I R (@raise Σ A e).
Proof using R_refl. intros s Hs; cbn; auto. Qed.

Lemma steps_out_of_fuel {A} : steps I R (@out_of_fuel Σ A).
Proof using R_refl. intros s Hs; cbn; auto. Qed.

Lemma steps_gets {A} (f : Σ → A) : steps I R (gets f).
Proof using R_refl. intros s Hs; cbn; auto. Qed.

Lemma steps_get : steps I R get.
Proof using R_refl. intros s Hs; cbn; auto. Qed.

Lemma steps_modify (f : Σ → Σ) :
  (∀ s, I s → I (f s) ∧ R s (f s)) → steps I R (modify f).
Proof. intros Hf s Hs; cbn; auto. Qed.

Lemma steps_bind {A B} (m : M Σ A) (k : A → M Σ B) :
  steps I R m → (∀ a, steps I R (k a)) → steps I R (bind m k).
Proof using R_trans.
  intros Hm Hk s Hs. unfold bind.
  destruct (Hm s Hs) as [HI HR]. destruct (m s) as [[a|e|] s1]; cbn in *; auto.
  destruct (Hk a s1 HI) as [HI' HR']. eauto.
Qed.

Lemma steps_try_except {A} (m : M Σ A) cls h :
  steps I R m → (∀ e, steps I R (h e)) → steps I R (try_except m cls h).
Proof using R_trans.
  intros Hm Hh s Hs. unfold try_except.
  destruct (Hm s Hs) as [HI HR]. destruct (m s) as [[a|e|] s1]; cbn in *; auto.
  destruct (cls e); cbn; auto.
  destruct (Hh e s1 HI) as [HI' HR']. eauto.
Qed.

Lemma steps_try_finally {A} (m : M Σ A) fin :
  steps I R m → steps I R fin → steps I R (try_finally m fin).
Proof using R_trans.
  intros Hm Hf s Hs. unfold try_finally, bind.
  destruct (Hm s Hs) as [HI HR]. destruct (m s) as [[a|e|] s1]; cbn in *; auto;
    destruct (Hf s1 HI) as [HI' HR']; destruct (fin s1) as [[[]|e'|] s2]; cbn in *; eauto.
Qed.

Lemma steps_for_each {A} (l : list A) (body : A → M Σ unit) :
  (∀ x, steps I R (body x)) → steps I R (for_each l body).
Proof using R_refl R_trans.
  intros Hb. induction l as [|x l IH]; cbn.
  - apply steps_ret.
  - apply steps_bind; auto.
Qed.

Lemma steps_outer {L A} (m : M Σ A) :
  steps I R m → steps (I_local I) (R_local R) (@outer Σ L A m).
Proof.
  intros Hm [s l] Hs. unfold outer, zoom, I_local, R_local in *; cbn in *.
  destruct (Hm s Hs) as [HI HR]. destruct (m s) as [r s1]; cbn in *. auto.
Qed.

Lemma steps_with_local {L A} (init : L) (m : M (Σ * L) A) :
  steps (I_local I) (R_local R) m → steps I R (with_local init m).
Proof.
  intros Hm s Hs. unfold with_local.
  destruct (Hm (s, init) Hs) as [HI HR].
  destruct (m (s, init)) as [r [s1 l1]]; cbn in *. auto.
Qed.

Lemma steps_get_local {L} : steps (I_local I) (R_local R) (@get_local Σ L).
Proof using R_refl. intros [s l] Hs; split; [exact Hs | apply R_refl]. Qed.

Lemma steps_set_local {L} (l : L) : steps (I_local I) (R_local R) (@set_local Σ L l).
Proof using R_refl. intros [s l0] Hs; split; [exact Hs | apply R_refl]. Qed.
End StepLogic.

(** ** Running out of fuel *)

Lemma total_ret {Σ A} (a : A) : total (@ret Σ A a).
Proof. intros s; cbn; discriminate. Qed.

Lemma total_raise {Σ A} e : total (@raise Σ A e).
Proof. intros s; cbn; discriminate. Qed.

Lemma total_gets {Σ A} (f : Σ → A) : total (gets f).
Proof. intros s; cbn; discriminate. Qed.

Lemma total_modify {Σ} (f : Σ → Σ) : total (modify f).
Proof. intros s; cbn; discriminate. Qed.

Lemma total_bind {Σ A B} (m : M Σ A) (k : A → M Σ B) :
  total m → (∀ a, total (k a)) → total (bind m k).
Proof.
  intros Hm Hk s. unfold bind. specialize (Hm s).
  destruct (m s) as [[a|e|] s1]; cbn in *; [apply Hk | discriminate | done].
Qed.

Lemma total_try_except {Σ A} (m : M Σ A) cls h :
  total m → (∀ e, total (h e)) → total (try_except m cls h).
Proof.
  intros Hm Hh s. unfold try_except. specialize (Hm s).
  destruct (m s) as [[a|e|] s1]; cbn in *; [discriminate | | done].
  destruct (cls e); [apply Hh | cbn; discriminate].
Qed.

Lemma total_try_finally {Σ A} (m : M Σ A) fin :
  total m → total fin → total (try_finally m fin).
Proof.
  intros Hm Hf s. unfold try_finally, bind. specialize (Hm s).
  destruct (m s) as [[a|e|] s1]; cbn in *; [| | done];
    specialize (Hf s1); destruct (fin s1) as [[[]|e'|] s2]; cbn in *;
    try discriminate; done.
Qed.

Lemma total_zoom {Σ S A} (g : Σ → S) p (m : M S A) : total m → total (zoom g p m).
Proof.
  intros Hm s. unfold zoom. specialize (Hm (g s)). by destruct (m (g s)) as [r x].
Qed.

Lemma total_with_local {Σ L A} (init : L) (m : M (Σ * L) A) :
  total m → total (with_local init m).
Proof.
  intros Hm s. unfold with_local. specialize (Hm (s, init)).
  by destruct (m (s, init)) as [r [s1 l1]].
Qed.

Lemma total_for_each {Σ A} (l : list A) (body : A → M Σ unit) :
  (∀ x, total (body x)) → total (for_each l body).
Proof.
  intros Hb. induction l as [|x l IH]; cbn; [apply total_ret|].
  apply total_bind; auto.
Qed.

(** ** System calls *)

Lemma syscall_eq ev w :
  syscall ev w =
  (match hd None (faults w) with Some e => Raise e | None => Ok tt end, tick ev w).
Proof.
  unfold syscall, bind, emit, modify, may_fail, tick. cbn.
  destruct (hd None (faults w)); reflexivity.
Qed.

Lemma file_write_eq p data w :
  file_write p data w =
  match hd None (faults w) with
  | Some e => (Raise e, tick (EvWrite p data) w)
  | None => (Ok tt, set_files (alter (λ c, c ++ data) p (files w)) (tick (EvWrite p data) w))
  end.
Proof.
  unfold file_write, bind. rewrite syscall_eq. destruct (hd None (faults w)); reflexivity.
Qed.

Lemma open_wb_eq p w :
  open_wb p w =
  match hd None (faults w) with
  | Some e => (Raise e, tick (EvOpenWrite p) w)
  | None =>
      if bool_decide (p ∈ dirs w) then (Raise (IsADirectoryError p), tick (EvOpenWrite p) w)
      else (Ok tt, set_files (<[p := []]> (files w)) (tick (EvOpenWrite p) w))
  end.
Proof.
  unfold open_wb, bind. rewrite syscall_eq.
  destruct (hd None (faults w)); [reflexivity|]. cbn.
  destruct (bool_decide (p ∈ dirs w)); reflexivity.
Qed.

Lemma open_rb_eq p w :
  open_rb p w =
  let w1 := tick (EvOpenRead p) w in
  match hd None (faults w) with
  | Some e => (Raise e, w1)
  | None =>
      if bool_decide (p ∈ dirs w) then (Raise (IsADirectoryError p), w1)
      else match files w !! p with
           | None => (Raise (FileNotFoundError p), w1)
           | Some _ => (Ok tt, w1)
           end
  end.
Proof.
  unfold open_rb, bind. rewrite syscall_eq.
  destruct (hd None (faults w)); [reflexivity|]. cbn.
  destruct (bool_decide (p ∈ dirs w)); [reflexivity|].
  destruct (files w !! p); reflexivity.
Qed.

Lemma file_read_eq p w :
  file_read p w =
  match hd None (faults w) with
  | Some e => (Raise e, tick (EvRead p) w)
  | None => (Ok (default [] (files w !! p)), tick (EvRead p) w)
  end.
Proof.
  unfold file_read, bind. rewrite syscall_eq. destruct (hd None (faults w)); reflexivity.
Qed.

Lemma pick_fresh_tick ev w dir prefix suffix cands :
  pick_fresh (tick ev w) dir prefix suffix cands = pick_fresh w dir prefix suffix cands.
Proof. induction cands as [|c l IH]; cbn; [done|]. by rewrite IH. Qed.

Lemma pick_fresh_spec w dir prefix suffix cands p rest :
  pick_fresh w dir prefix suffix cands = Some (p, rest) →
  ∃ c, c ∈ cands ∧ p = os_path_join dir (prefix +:+ c +:+ suffix) ∧ path_exists w p = false.
Proof.
  induction cands as [|c cands IH]; cbn; [discriminate|].
  destruct (path_exists w (os_path_join dir (prefix +:+ c +:+ suffix))) eqn:Hex.
  - intros Hp. destruct (IH Hp) as (c' & Hin & Heq & Hne). exists c'. split; [by right|done].
  - intros Hp. inversion Hp; subst. exists c. split; [by left|done].
Qed.

Lemma path_exists_false w p : path_exists w p = false → files w !! p = None.
Proof.
  unfold path_exists. intros Hp. apply orb_false_elim in Hp as [Hp _].
  apply bool_decide_eq_false in Hp. by apply eq_None_not_Some.
Qed.

Lemma NamedTemporaryFile_eq dir prefix suffix w :
  NamedTemporaryFile dir prefix suffix w =
  let w1 := tick (EvMkstemp dir prefix suffix) w in
  match hd None (faults w) with
  | Some e => (Raise e, w1)
  | None =>
      match pick_fresh w (os_path_abspath (cwd w) dir) prefix suffix (tmp_names w) with
      | None => (Raise (FileExistsError "No usable temporary file name found"), w1)
      | Some (p, rest) => (Ok p, set_tmp_names rest (set_files (<[p := []]> (files w)) w1))
      end
  end.
Proof.
  unfold NamedTemporaryFile, bind. rewrite syscall_eq.
  destruct (hd None (faults w)); [reflexivity|].
  cbn. rewrite pick_fresh_tick.
  destruct (pick_fresh w _ prefix suffix (tmp_names w)) as [[p rest]|]; reflexivity.
Qed.

Lemma os_replace_eq src dst w :
  os_replace src dst w =
  let w1 := tick (EvReplace src dst) w in
  match hd None (faults w) with
  | Some e => (Raise e, w1)
  | None =>
      match files w !! src with
      | None => (Raise (FileNotFoundError src), w1)
      | Some c =>
          if bool_decide (dst ∈ dirs w) then (Raise (IsADirectoryError dst), w1)
          else (Ok tt, set_files (<[dst := c]> (delete src (files w))) w1)
      end
  end.
Proof.
  unfold os_replace, bind. rewrite syscall_eq.
  destruct (hd None (faults w)); [reflexivity|]. cbn.
  destruct (files w !! src); [|reflexivity].
  destruct (bool_decide (dst ∈ dirs w)); reflexivity.
Qed.

Lemma os_remove_eq p w :
  os_remove p w =
  let w1 := tick (EvRemove p) w in
  match hd None (faults w) with
  | Some e => (Raise e, w1)
  | None =>
      match files w !! p with
      | None =>
          if bool_decide (p ∈ dirs w) then (Raise (IsADirectoryError p), w1)
          else (Raise (FileNotFoundError p), w1)
      | Some c => (Ok tt, set_files (delete p (files w)) w1)
      end
  end.
Proof.
  unfold os_remove, bind. rewrite syscall_eq.
  destruct (hd None (faults w)); [reflexivity|]. cbn.
  destruct (files w !! p); [reflexivity|].
  destruct (bool_decide (p ∈ dirs w)); reflexivity.
Qed.

Lemma os_open_dir_eq d w :
  os_open_dir d w =
  (match hd None (faults w) with Some e => Raise e | None => Ok d end,
   tick (EvOpenDir d) w).
Proof.
  unfold os_open_dir, bind. rewrite syscall_eq. destruct (hd None (faults w)); reflexivity.
Qed.

(** ** What system calls record *)

Lemma trace_ext_refl P w : trace_ext P w w.
Proof. exists []. by rewrite app_nil_r. Qed.

Lemma trace_ext_trans P a b c : trace_ext P a b → trace_ext P b c → trace_ext P a c.
Proof.
  intros (t1 & H1 & F1) (t2 & H2 & F2). exists (t1 ++ t2). split.
  - by rewrite H2, H1, app_assoc.
  - by apply Forall_app.
Qed.

Lemma trace_ext_weaken (P Q : event → Prop) w w' :
  (∀ ev, P ev → Q ev) → trace_ext P w w' → trace_ext Q w w'.
Proof. intros HPQ (t & Ht & Hf). exists t. split; [done|]. eapply Forall_impl; eauto. Qed.

Lemma steps_emit P ev : P ev → steps any (trace_ext P) (emit ev).
Proof. intros Hev w _. split; [done|]. exists [ev]. split; [done|]. by constructor. Qed.

Lemma steps_quiet {A} P (m : M World A) :
  (∀ w, trace (m w).2 = trace w) → steps any (trace_ext P) m.
Proof. intros Hm w _. split; [done|]. exists []. by rewrite app_nil_r, Hm. Qed.

Lemma steps_may_fail P : steps any (trace_ext P) may_fail.
Proof. apply steps_quiet. intros w. unfold may_fail. by destruct (hd None (faults w)). Qed.

Lemma steps_syscall P ev : P ev → steps any (trace_ext P) (syscall ev).
Proof.
  intros Hev. apply steps_bind; [apply trace_ext_trans | by apply steps_emit |].
  intros _. apply steps_may_fail.
Qed.

Lemma steps_randbelow P n : steps any (trace_ext P) (randbelow n).
Proof. apply steps_quiet. intros w. unfold randbelow. by destruct (randoms w). Qed.

Lemma total_syscall ev : total (syscall ev).
Proof. intros w. rewrite syscall_eq. by destruct (hd None (faults w)). Qed.

Lemma total_randbelow n : total (randbelow n).
Proof. intros w. unfold randbelow. by destruct (randoms w). Qed.

(** Decomposing a program into its system calls. *)
Ltac steps_go refl trans leaf :=
  lazymatch goal with
  | |- steps _ _ (bind _ _) =>
      apply steps_bind;
      [ apply trans | steps_go refl trans leaf | intros ?; steps_go refl trans leaf ]
  | |- steps _ _ (ret _) => apply steps_ret; apply refl
  | |- steps _ _ (raise _) => apply steps_raise; apply refl
  | |- steps _ _ out_of_fuel => apply steps_out_of_fuel; apply refl
  | |- steps _ _ (gets _) => apply steps_gets; apply refl
  | |- steps _ _ get => apply steps_get; apply refl
  | |- steps _ _ (try_except _ _ _) =>
      apply steps_try_except;
      [ apply trans | steps_go refl trans leaf | intros ?; steps_go refl trans leaf ]
  | |- steps _ _ (try_finally _ _) =>
      apply steps_try_finally;
      [ apply trans | steps_go refl trans leaf | steps_go refl trans leaf ]
  | |- steps _ _ (for_each _ _) =>
      apply steps_for_each;
      [ apply refl | apply trans | intros ?; steps_go refl trans leaf ]
  | |- steps _ _ (match ?x with _ => _ end) => destruct x; steps_go refl trans leaf
  | |- _ => leaf tt
  end.

Ltac total_go leaf :=
  lazymatch goal with
  | |- total (bind _ _) => apply total_bind; [ total_go leaf | intros ?; total_go leaf ]
  | |- total (ret _) => apply total_ret
  | |- total (raise _) => apply total_raise
  | |- total (gets _) => apply total_gets
  | |- total get => apply (total_gets id)
  | |- total (modify _) => apply total_modify
  | |- total (try_except _ _ _) =>
      apply total_try_except; [ total_go leaf | intros ?; total_go leaf ]
  | |- total (try_finally _ _) =>
      apply total_try_finally; [ total_go leaf | total_go leaf ]
  | |- total (for_each _ _) => apply total_for_each; intros ?; total_go leaf
  | |- total (zoom _ _ _) => apply total_zoom; total_go leaf
  | |- total (with_local _ _) => apply total_with_local; total_go leaf
  | |- total (syscall _) => apply total_syscall
  | |- total (randbelow _) => apply total_randbelow
  | |- total (match ?x with _ => _ end) => destruct x; total_go leaf
  | |- _ => leaf tt
  end.

Ltac world_leaf :=
  lazymatch goal with
  | |- steps _ _ (syscall _) => apply steps_syscall; try done; cbv; auto
  | |- steps _ _ (emit _) => apply steps_emit; try done; cbv; auto
  | |- steps _ _ (modify _) => apply steps_quiet; intros ?; reflexivity
  | |- steps _ _ (randbelow _) => apply steps_randbelow
  | |- _ => idtac
  end.

Ltac world_steps := steps_go trace_ext_refl trace_ext_trans ltac:(fun _ => world_leaf).

Lemma steps_logging P lvl msg : P (EvLog lvl msg) → steps any (trace_ext P) (logging lvl msg).
Proof. intros HP. by apply steps_emit. Qed.

Lemma steps_time_sleep P ms : P (EvSleep ms) → steps any (trace_ext P) (time_sleep ms).
Proof. intros HP. by apply steps_emit. Qed.

Lemma steps_signal_signal P sig h :
  P (EvSignal sig h) → steps any (trace_ext P) (signal_signal sig h).
Proof. intros HP. unfold signal_signal. world_steps. Qed.

Lemma steps_signal_getsignal P sig : steps any (trace_ext P) (signal_getsignal sig).
Proof. unfold signal_getsignal. world_steps. Qed.

Lemma steps_os_kill_self P sig : P (EvKill sig) → steps any (trace_ext P) (os_kill_self sig).
Proof. intros HP. unfold os_kill_self. world_steps. Qed.

Lemma steps_thread_start P t :
  P (EvThreadStart t) → steps any (trace_ext P) (thread_start t).
Proof. intros HP. unfold thread_start. world_steps. Qed.

Lemma steps_sample_pool {A} P (pool : list A) k : steps any (trace_ext P) (sample_pool pool k).
Proof. revert pool. induction k as [|k IH]; intros pool; cbn; world_steps. apply IH. Qed.

Lemma steps_draw_unselected P n selected upcoming :
  steps any (trace_ext P) (draw_unselected n selected upcoming).
Proof.
  induction upcoming as [|r upcoming IH]; cbn [draw_unselected]; world_steps. apply IH.
Qed.

Lemma steps_sample_selected {A} P (l : list A) n selected k :
  steps any (trace_ext P) (sample_selected l n selected k).
Proof.
  revert selected. induction k as [|k IH]; intros selected; cbn [sample_selected];
    world_steps; [apply steps_draw_unselected | apply IH].
Qed.

Lemma steps_random_sample {A} P (l : list A) k : steps any (trace_ext P) (random_sample l k).
Proof.
  unfold random_sample. world_steps; [apply steps_sample_pool | apply steps_sample_selected].
Qed.

Lemma steps_client_call {A} P a (m : method A) :
  (∀ ev, is_file_io ev = false → P ev) → steps any (trace_ext P) (client_call a m).
Proof.
  intros HP. destruct m; cbn; world_steps.
  apply steps_quiet. intros w. by destruct (pulled w).
Qed.

Lemma steps_invoke {A} P h (m : method A) :
  (∀ ev, is_file_io ev = false → P ev) → steps any (trace_ext P) (_invoke h m).
Proof.
  intros HP. unfold _invoke, transport_isOpen, transport_open, transport_close.
  world_steps. by apply steps_client_call.
Qed.

Lemma steps_wrapper {A} P fuel h (m : method A) :
  (∀ ev, is_file_io ev = false → P ev) → steps any (trace_ext P) (wrapper fuel h m).
Proof.
  intros HP. unfold wrapper. destruct (_reliable h).
  - induction fuel as [|fuel IH]; cbn; world_steps; try by apply steps_invoke.
    + apply steps_logging; auto.
    + apply steps_time_sleep; auto.
    + apply IH.
  - unfold _invoke_best_effort_broadcast. world_steps; try by apply steps_invoke.
    apply steps_logging; auto.
Qed.

(** * The node *)

Ltac mesh_total :=
  total_go ltac:(fun _ =>
    try (progress (unfold outer, io, attr, assign, get_local, set_local,
                   open_rb, file_read, open_wb, file_write, file_flush, os_fsync,
                   file_close, NamedTemporaryFile, os_replace, os_remove, os_open_dir,
                   os_fsync_dir, os_close_dir, logging, time_sleep, emit, signal_signal,
                   signal_getsignal, os_kill_self, thread_start);
         mesh_total)).

Section MeshFacts.
Context `{SketchLib}.

(** ** Lifting to methods *)

Lemma io_inv {A} (m : M World A) s r s' :
  io m s = (r, s') → ∃ w', s' = mkState (self s) w' ∧ m (env s) = (r, w').
Proof.
  unfold io, zoom. destruct (m (env s)) as [r' w']. intros Hk; inversion Hk; subst; eauto.
Qed.

Lemma outer_io_inv {A L} (m : M World A) s (l : L) r s' l' :
  outer (io m) (s, l) = (r, (s', l')) →
  ∃ w', l' = l ∧ s' = mkState (self s) w' ∧ m (env s) = (r, w').
Proof.
  unfold outer, zoom; cbn. destruct (io m s) as [r' s1] eqn:Hio.
  intros Hk; inversion Hk; subst.
  apply io_inv in Hio as (w' & -> & Hm). eauto.
Qed.

Lemma same_self_refl s : same_self s s.
Proof. done. Qed.
Lemma same_self_trans a b c : same_self a b → same_self b c → same_self a c.
Proof. unfold same_self. congruence. Qed.

Lemma same_config_refl s : same_config s s.
Proof. done. Qed.
Lemma same_config_trans a b c : same_config a b → same_config b c → same_config a c.
Proof. unfold same_config. congruence. Qed.

Lemma emits_refl P s : emits P s s.
Proof. apply trace_ext_refl. Qed.
Lemma emits_trans P a b c : emits P a b → emits P b c → emits P a c.
Proof. apply trace_ext_trans. Qed.

Lemma steps_io_same_self {A} (m : M World A) : steps any same_self (io m).
Proof. intros s _. unfold io, zoom. by destruct (m (env s)). Qed.

Lemma steps_io_same_config {A} (m : M World A) : steps any same_config (io m).
Proof. intros s _. unfold io, zoom. by destruct (m (env s)). Qed.

Lemma steps_assign_same_config upd :
  (∀ n, config (upd n) = config n) → steps any same_config (assign upd).
Proof. intros Hupd s _. split; [done|]. apply Hupd. Qed.

Lemma steps_io_emits {A} J P (m : M World A) :
  steps any (trace_ext P) m → steps (on_self J) (emits P) (io m).
Proof.
  intros Hm s Hs. unfold io, zoom. destruct (Hm (env s) I) as [_ Ht].
  by destruct (m (env s)).
Qed.

Lemma steps_assign_emits J P upd :
  (∀ n, J n → J (upd n)) → steps (on_self J) (emits P) (assign upd).
Proof. intros Hupd s Hs. split; [by apply Hupd | apply (trace_ext_refl P (env s))]. Qed.

Lemma total_io {A} (m : M World A) : total m → total (io m).
Proof. apply total_zoom. Qed.

Lemma total_outer {A L} (m : M State A) : total m → total (@outer State L A m).
Proof. apply total_zoom. Qed.

(** ** The committer *)

Lemma committer_work_eq s :
  committer_work s =
  let n := self s in
  if bool_decide (durability_level n = VOLATILE) then (Ok false, s)
  else match sketch_file n with
       | None => (Ok false, s)
       | Some target =>
           if is_dirty n then
             match (if atomicity n
                    then atomic_write (sketch_file_dirname n) (sketch_file_basename n)
                           target (serialize_compact (sketch n))
                    else direct_write target (serialize_compact (sketch n))) s with
             | (Ok _, s1) => (Ok true, mkState (with_is_dirty false (self s1)) (env s1))
             | (Raise e, s1) => (Raise e, s1)
             | (OutOfFuel, s1) => (OutOfFuel, s1)
             end
           else (Ok false, s)
       end.
Proof.
  unfold committer_work, bind, attr, gets. cbn.
  destruct (bool_decide _); [done|].
  destruct (sketch_file (self s)); [|done].
  destruct (is_dirty (self s)); [|done].
  unfold bind. destruct (atomicity (self s)).
  - by destruct (atomic_write _ _ _ _ s) as [[[]|e|] s1].
  - by destruct (direct_write _ _ s) as [[[]|e|] s1].
Qed.

Ltac self_leaf :=
  lazymatch goal with
  | |- steps _ _ (outer (io _)) => apply steps_outer, steps_io_same_self
  | |- steps _ _ (io _) => apply steps_io_same_self
  | |- steps _ _ get_local => apply steps_get_local, same_self_refl
  | |- steps _ _ (set_local _) => apply steps_set_local, same_self_refl
  | |- _ => idtac
  end.

Lemma R_local_refl {Σ L} (R : Σ → Σ → Prop) : (∀ s, R s s) → ∀ x : Σ * L, R_local R x x.
Proof. intros Hr x. apply Hr. Qed.
Lemma R_local_trans {Σ L} (R : Σ → Σ → Prop) :
  (∀ a b c, R a b → R b c → R a c) →
  ∀ a b c : Σ * L, R_local R a b → R_local R b c → R_local R a c.
Proof. intros Hr a b c. apply Hr. Qed.

Lemma atomic_write_same_self dirname basename target payload :
  steps any same_self (atomic_write dirname basename target payload).
Proof.
  unfold atomic_write. apply steps_with_local.
  unfold atomic_try, atomic_except.
  steps_go (R_local_refl (L:=option string) same_self same_self_refl)
           (R_local_trans (L:=option string) same_self same_self_trans)
           ltac:(fun _ => self_leaf).
Qed.

Lemma direct_write_same_self target payload :
  steps any same_self (direct_write target payload).
Proof.
  unfold direct_write.
  steps_go same_self_refl same_self_trans ltac:(fun _ => self_leaf).
Qed.


Ltac sys_inv H :=
  first [ rewrite syscall_eq in H | rewrite file_write_eq in H
        | rewrite os_open_dir_eq in H ];
  cbn zeta in H;
  let F := fresh "Hfault" in
  destruct (hd None (faults _)) eqn:F in H; [discriminate H|];
  clear F; injection H as <-.

Lemma atomic_try_Ok d b target payload s s1 loc :
  atomic_try (Some d) (Some b) target payload (s, None) = (Ok tt, (s1, loc)) →
  ∃ rnd, let tmp := temp_name (cwd (env s)) d b rnd in
    rnd ∈ tmp_names (env s) ∧ path_exists (env s) tmp = false ∧
    loc = Some tmp ∧ self s1 = self s ∧
    trace (env s1) = trace (env s) ++ atomic_protocol d b tmp target payload ∧
    files (env s1) = <[target := payload]> (files (env s)).
Proof.
  destruct s as [n w].
  unfold atomic_try. intros Hrun.
  apply bind_Ok_inv in Hrun as (prefix & [s0 l0] & Hpre & Hrun).
  inversion Hpre; subst; clear Hpre.
  apply bind_Ok_inv in Hrun as (tmp & [s2 l2] & Hmk & Hrun).
  apply outer_io_inv in Hmk as (w2 & -> & -> & Hmk).
  apply bind_Ok_inv in Hrun as ([] & [s3 l3] & Hwith & Hrun).
  apply try_finally_Ok_inv in Hwith as ([s4 l4] & Hbody & Hclose).
  apply bind_Ok_inv in Hbody as ([] & [s5 l5] & Hset & Hbody).
  inversion Hset; subst; clear Hset.
  apply bind_Ok_inv in Hbody as ([] & [s6 l6] & Hwr & Hbody).
  apply outer_io_inv in Hwr as (w6 & -> & -> & Hwr).
  apply bind_Ok_inv in Hbody as ([] & [s7 l7] & Hfl & Hfs).
  apply outer_io_inv in Hfl as (w7 & -> & -> & Hfl).
  apply outer_io_inv in Hfs as (w4 & -> & -> & Hfs).
  apply outer_io_inv in Hclose as (w3 & -> & -> & Hclose).
  apply bind_Ok_inv in Hrun as (p & [s8 l8] & Hget & Hrun).
  inversion Hget; subst; clear Hget.
  cbn [snd] in Hrun.
  apply bind_Ok_inv in Hrun as ([] & [s9 l9] & Hrep & Hrun).
  apply outer_io_inv in Hrep as (w9 & -> & -> & Hrep).
  apply bind_Ok_inv in Hrun as (dfd & [s10 l10] & Hod & Hrun).
  apply outer_io_inv in Hod as (w10 & -> & -> & Hod).
  apply try_finally_Ok_inv in Hrun as ([s11 l11] & Hfd & Hcd).
  apply outer_io_inv in Hfd as (w11 & -> & -> & Hfd).
  apply outer_io_inv in Hcd as (w1 & -> & -> & Hcd).
  cbn [self env] in *. change (default gettempdir (Some d)) with d in Hmk.
  rewrite NamedTemporaryFile_eq in Hmk. cbn zeta in Hmk.
  destruct (hd None (faults w)) eqn:F0; [discriminate Hmk|].
  destruct (pick_fresh w _ (b +:+ "_") ".tmp" (tmp_names w)) as [[p rest]|] eqn:Hpick;
    [|discriminate Hmk].
  injection Hmk as -> <-.
  apply pick_fresh_spec in Hpick as (rnd & Hin & -> & Hfresh).
  unfold file_flush, os_fsync, file_close, os_fsync_dir, os_close_dir in *.
  sys_inv Hwr. sys_inv Hfl. sys_inv Hfs. sys_inv Hclose.
  rewrite os_replace_eq in Hrep. cbn zeta in Hrep.
  destruct (hd None (faults _)) eqn:F5 in Hrep; [discriminate Hrep|]. clear F5.
  cbn [files set_files tick set_faults set_trace set_tmp_names] in Hrep.
  rewrite lookup_alter_eq, lookup_insert_eq in Hrep. cbn [fmap option_fmap option_map] in Hrep.
  destruct (bool_decide (target ∈ dirs _)) in Hrep; [discriminate Hrep|].
  injection Hrep as <-.
  rewrite os_open_dir_eq in Hod.
  destruct (hd None (faults _)) eqn:F6 in Hod; [discriminate Hod|]. clear F6.
  injection Hod as <- <-.
  sys_inv Hfd. sys_inv Hcd.
  exists rnd. cbn zeta. fold (temp_name (cwd w) d b rnd) in *.
  split; [done|]. split; [done|]. split; [done|]. split; [done|]. split.
  - cbn. rewrite <- !app_assoc. reflexivity.
  - cbn. rewrite delete_alter_eq, delete_insert_eq.
    rewrite delete_id by by apply path_exists_false. done.
Qed.


Lemma direct_write_Ok target payload s s1 :
  direct_write target payload s = (Ok tt, s1) →
  self s1 = self s ∧
  trace (env s1) = trace (env s) ++ direct_protocol target payload ∧
  files (env s1) = <[target := payload]> (files (env s)).
Proof.
  destruct s as [n w]. unfold direct_write. intros Hrun.
  apply bind_Ok_inv in Hrun as ([] & s2 & Hop & Hrun).
  apply io_inv in Hop as (w2 & -> & Hop).
  apply try_finally_Ok_inv in Hrun as (s3 & Hbody & Hclose).
  apply bind_Ok_inv in Hbody as ([] & s4 & Hwr & Hbody).
  apply io_inv in Hwr as (w4 & -> & Hwr).
  apply bind_Ok_inv in Hbody as ([] & s5 & Hfl & Hfs).
  apply io_inv in Hfl as (w5 & -> & Hfl).
  apply io_inv in Hfs as (w3 & -> & Hfs).
  apply io_inv in Hclose as (w1 & -> & Hclose).
  cbn [self env] in *.
  unfold file_flush, os_fsync, file_close in *.
  rewrite open_wb_eq in Hop.
  destruct (hd None (faults w)) in Hop; [discriminate Hop|].
  destruct (bool_decide (target ∈ dirs w)) in Hop; [discriminate Hop|].
  injection Hop as <-.
  sys_inv Hwr. sys_inv Hfl. sys_inv Hfs. sys_inv Hclose.
  split; [done|]. split.
  - cbn. rewrite <- !app_assoc. reflexivity.
  - cbn. by rewrite alter_insert_eq.
Qed.

(** The handler of the atomic branch, when the temporary file was created. *)
Lemma atomic_except_eq e n w tmp :
  atomic_except e (mkState n w, Some tmp) =
  let w1 := tick (EvRemove tmp) w in
  let logged := set_trace (trace w1 ++ [removal_warning tmp]) w1 in
  match hd None (faults w) with
  | Some e' =>
      if is_FileNotFoundError e' then (Raise e, (mkState n logged, Some tmp))
      else (Raise e', (mkState n w1, Some tmp))
  | None =>
      match files w !! tmp with
      | None =>
          if bool_decide (tmp ∈ dirs w) then (Raise (IsADirectoryError tmp), (mkState n w1, Some tmp))
          else (Raise e, (mkState n logged, Some tmp))
      | Some _ => (Raise e, (mkState n (set_files (delete tmp (files w)) w1), Some tmp))
      end
  end.
Proof.
  unfold atomic_except, bind, get_local, gets, try_except, outer, io, zoom. cbn.
  rewrite os_remove_eq. cbn zeta.
  destruct (hd None (faults w)) as [e'|].
  - by destruct e'.
  - destruct (files w !! tmp); [done|]. by destruct (bool_decide (tmp ∈ dirs w)).
Qed.

Lemma atomic_except_None e s : atomic_except e (s, None) = (Raise e, (s, None)).
Proof. reflexivity. Qed.

Lemma atomic_except_not_Ok e x u y : atomic_except e x ≠ (Ok u, y).
Proof.
  destruct x as [[n w] [tmp|]].
  - rewrite atomic_except_eq. cbn zeta.
    destruct (hd None (faults w)) as [e'|];
      [destruct (is_FileNotFoundError e')
      | destruct (files w !! tmp); [|destruct (bool_decide (tmp ∈ dirs w))]]; discriminate.
  - rewrite atomic_except_None. discriminate.
Qed.

Lemma self_kept_trace_grows_refl x : self_kept_trace_grows x x.
Proof. split; [done | apply trace_ext_refl]. Qed.
Lemma self_kept_trace_grows_trans a b c :
  self_kept_trace_grows a b → self_kept_trace_grows b c → self_kept_trace_grows a c.
Proof.
  intros [Ha Ta] [Hb Tb]. split; [congruence | by eapply trace_ext_trans].
Qed.

Lemma trace_ext_any w w' : (∃ t, trace w' = trace w ++ t) → trace_ext any w w'.
Proof.
  intros [t Ht]. exists t. split; [done|]. by apply Forall_forall.
Qed.

Lemma syscall_grows ev w : trace_ext any w (syscall ev w).2.
Proof. rewrite syscall_eq. apply trace_ext_any. by exists [ev]. Qed.

Lemma steps_outer_io_kept {A} tmp (m : M World A) :
  (∀ w, trace_ext any w (m w).2) →
  steps (path_kept tmp) self_kept_trace_grows (outer (io m)).
Proof.
  intros Hm [[n w] l] Hl. unfold outer, io, zoom; cbn.
  specialize (Hm w). destruct (m w) as [r w']. cbn in *. done.
Qed.


Lemma quiet_grows {A} (m : M World A) :
  (∀ w, trace (m w).2 = trace w) → ∀ w, trace_ext any w (m w).2.
Proof. intros Hm w. apply trace_ext_any. exists []. by rewrite app_nil_r. Qed.

Lemma file_write_grows p data w : trace_ext any w (file_write p data w).2.
Proof.
  rewrite file_write_eq. apply trace_ext_any. exists [EvWrite p data].
  by destruct (hd None (faults w)).
Qed.

Lemma os_replace_grows src dst w : trace_ext any w (os_replace src dst w).2.
Proof.
  rewrite os_replace_eq. apply trace_ext_any. exists [EvReplace src dst]. cbn zeta.
  destruct (hd None (faults w)); [done|].
  destruct (files w !! src); [|done]. by destruct (bool_decide (dst ∈ dirs w)).
Qed.

Lemma os_open_dir_grows d w : trace_ext any w (os_open_dir d w).2.
Proof. rewrite os_open_dir_eq. apply trace_ext_any. by exists [EvOpenDir d]. Qed.

Ltac kept_leaf :=
  lazymatch goal with
  | |- steps _ _ (outer (io (file_write _ _))) =>
      apply steps_outer_io_kept, file_write_grows
  | |- steps _ _ (outer (io (os_replace _ _))) =>
      apply steps_outer_io_kept, os_replace_grows
  | |- steps _ _ (outer (io (os_open_dir _))) =>
      apply steps_outer_io_kept, os_open_dir_grows
  | |- steps _ _ (outer (io _)) => apply steps_outer_io_kept, syscall_grows
  | |- steps _ _ get_local =>
      intros [? ?] ?; split; [done | apply self_kept_trace_grows_refl]
  | |- _ => idtac
  end.

(** The part of the [try] body that follows the assignment of
    [temp_file_path]. *)
Lemma atomic_try_rest_kept tmp d target payload :
  steps (path_kept tmp) self_kept_trace_grows
    (try_finally
       (outer (io (file_write tmp payload)) ;;;
        outer (io (file_flush tmp)) ;;;
        outer (io (os_fsync tmp)))
       (outer (io (file_close tmp))) ;;;
     temp_file_path <- get_local ;;
     match temp_file_path with
     | None => raise (TypeError "expected str, bytes or os.PathLike object, not NoneType")
     | Some p => outer (io (os_replace p target))
     end ;;;
     dir_fd <- outer (io (os_open_dir d)) ;;
     try_finally (outer (io (os_fsync_dir dir_fd))) (outer (io (os_close_dir dir_fd)))).
Proof.
  unfold file_flush, os_fsync, file_close, os_fsync_dir, os_close_dir.
  steps_go self_kept_trace_grows_refl self_kept_trace_grows_trans ltac:(fun _ => kept_leaf).
Qed.

Lemma atomic_try_Raise d b target payload s e s1 loc :
  atomic_try (Some d) (Some b) target payload (s, None) = (Raise e, (s1, loc)) →
  self s1 = self s ∧
  match loc with
  | None => env s1 = tick (EvMkstemp d (b +:+ "_") ".tmp") (env s)
  | Some tmp =>
      ∃ rnd pre, tmp = temp_name (cwd (env s)) d b rnd ∧ rnd ∈ tmp_names (env s) ∧
        path_exists (env s) tmp = false ∧
        trace (env s1) = trace (env s) ++ EvMkstemp d (b +:+ "_") ".tmp" :: pre
  end.
Proof.
  destruct s as [n w]. unfold atomic_try.
  erewrite bind_Ok by reflexivity.
  change (default gettempdir (Some d)) with d.
  destruct (NamedTemporaryFile d (b +:+ "_") ".tmp" w) as [r w2] eqn:Hmk.
  assert (Hout : outer (L:=option string) (io (NamedTemporaryFile d (b +:+ "_") ".tmp"))
                   (mkState n w, None) = (r, (mkState n w2, None))).
  { unfold outer, io, zoom. cbn. by rewrite Hmk. }
  rewrite NamedTemporaryFile_eq in Hmk. cbn zeta in Hmk.
  destruct (hd None (faults w)) as [e0|] eqn:F0.
  { injection Hmk as <- <-. erewrite bind_Raise by exact Hout.
    intros Hr. by injection Hr as <- <- <-. }
  destruct (pick_fresh w _ (b +:+ "_") ".tmp" (tmp_names w)) as [[p rest]|] eqn:Hpick.
  2:{ injection Hmk as <- <-. erewrite bind_Raise by exact Hout.
      intros Hr. by injection Hr as <- <- <-. }
  injection Hmk as <- <-. erewrite bind_Ok by exact Hout.
  apply pick_fresh_spec in Hpick as (rnd & Hin & -> & Hfresh).
  fold (temp_name (cwd w) d b rnd) in *. set (tmp := temp_name (cwd w) d b rnd) in *.
  match goal with
  | |- ?m (?s0, None) = _ → _ =>
      change (m (s0, None)) with
        ((try_finally
            (outer (io (file_write tmp payload)) ;;;
             outer (io (file_flush tmp)) ;;;
             outer (io (os_fsync tmp)))
            (outer (io (file_close tmp))) ;;;
          temp_file_path <- get_local ;;
          match temp_file_path with
          | None => raise (TypeError "expected str, bytes or os.PathLike object, not NoneType")
          | Some p => outer (io (os_replace p target))
          end ;;;
          dir_fd <- outer (io (os_open_dir d)) ;;
          try_finally (outer (io (os_fsync_dir dir_fd))) (outer (io (os_close_dir dir_fd))))
           (s0, Some tmp))
  end.
  intros Hrun.
  match type of Hrun with
  | _ ?x = _ =>
      destruct (atomic_try_rest_kept tmp d target payload x eq_refl)
        as [Hk [Hs (t & Ht & _)]]
  end.
  rewrite Hrun in Hk, Hs, Ht. cbn in Hk, Hs, Ht. unfold path_kept in Hk. cbn in Hk. subst loc.
  split; [done|]. exists rnd, t. repeat split; try done.
  rewrite Ht. by rewrite <- app_assoc.
Qed.


Lemma atomic_write_total dirname basename target payload :
  total (atomic_write dirname basename target payload).
Proof. unfold atomic_write, atomic_try, atomic_except. mesh_total. Qed.

Lemma direct_write_total target payload : total (direct_write target payload).
Proof. unfold direct_write. mesh_total. Qed.

Lemma atomic_try_total dirname basename target payload :
  total (atomic_try dirname basename target payload).
Proof. unfold atomic_try. mesh_total. Qed.


Lemma atomic_write_Ok d b target payload s s1 :
  atomic_write (Some d) (Some b) target payload s = (Ok tt, s1) →
  ∃ loc, atomic_try (Some d) (Some b) target payload (s, None) = (Ok tt, (s1, loc)).
Proof.
  unfold atomic_write, with_local, try_except.
  destruct (atomic_try (Some d) (Some b) target payload (s, None))
    as [[[]|e|] [s2 l2]] eqn:Htry; cbv beta iota delta [is_BaseException].
  - intros Hr. injection Hr as <-. eauto.
  - destruct (atomic_except e (s2, l2)) as [[[]|e'|] [s3 l3]] eqn:Hex;
      intros Hr; try discriminate Hr.
    by apply atomic_except_not_Ok in Hex.
  - discriminate.
Qed.

(** ** A flush that meets no failure *)

Lemma calm_hd k w : calm (S k) w → hd None (faults w) = None.
Proof.
  intros Hc. specialize (Hc 0%nat). destruct (faults w) as [|[e|] fs]; [done| |done].
  by destruct (Hc e ltac:(lia)).
Qed.

Lemma calm_tick k ev w : calm (S k) w → calm k (tick ev w).
Proof.
  intros Hc i e Hi. specialize (Hc (S i) e ltac:(lia)).
  change (faults (tick ev w)) with (tl (faults w)).
  destruct (faults w) as [|f fs]; [done|]. exact Hc.
Qed.

Lemma calm_nil k w : faults w = [] → calm k w.
Proof. intros Hf i e _. by rewrite Hf, lookup_nil. Qed.

Lemma io_run {A} (m : M World A) n w r w' :
  m w = (r, w') → io m (mkState n w) = (r, mkState n w').
Proof. unfold io, zoom. cbn. by intros ->. Qed.

Lemma outer_io_run {A L} (m : M World A) n w (l : L) r w' :
  m w = (r, w') → outer (io m) (mkState n w, l) = (r, (mkState n w', l)).
Proof. unfold outer, io, zoom. cbn. by intros ->. Qed.

Lemma syscall_calm k ev w : calm (S k) w → syscall ev w = (Ok tt, tick ev w).
Proof. intros Hc. by rewrite syscall_eq, (calm_hd k w Hc). Qed.

Lemma pick_fresh_Some w dir prefix suffix cands c :
  c ∈ cands → path_exists w (os_path_join dir (prefix +:+ c +:+ suffix)) = false →
  is_Some (pick_fresh w dir prefix suffix cands).
Proof.
  intros Hin Hfree. induction cands as [|c' cands IH]; [by apply elem_of_nil in Hin|].
  cbn. destruct (path_exists w (os_path_join dir (prefix +:+ c' +:+ suffix))) eqn:Hex; [|eauto].
  apply IH. apply elem_of_cons in Hin as [->|Hin]; [congruence|done].
Qed.

Lemma direct_write_calm target payload s :
  calm 5 (env s) → target ∉ dirs (env s) →
  ∃ s1, direct_write target payload s = (Ok tt, s1).
Proof.
  destruct s as [n w]. cbn [env]. intros Hc Hdir. unfold direct_write.
  assert (Hop : io (open_wb target) (mkState n w)
                = (Ok tt, mkState n (set_files (<[target := []]> (files w))
                                       (tick (EvOpenWrite target) w)))).
  { apply io_run. rewrite open_wb_eq, (calm_hd _ _ Hc).
    by rewrite bool_decide_eq_false_2. }
  erewrite bind_Ok by exact Hop.
  apply (calm_tick _ (EvOpenWrite target)) in Hc.
  set (w1 := set_files _ _). change (calm 4 w1) in Hc.
  assert (Hwr : io (file_write target payload) (mkState n w1)
                = (Ok tt, mkState n (set_files (alter (λ c, c ++ payload) target (files w1))
                                       (tick (EvWrite target payload) w1)))).
  { apply io_run. by rewrite file_write_eq, (calm_hd _ _ Hc). }
  apply (calm_tick _ (EvWrite target payload)) in Hc.
  set (w2 := set_files _ (tick _ w1)) in *. change (calm 3 w2) in Hc.
  assert (Hfl : io (file_flush target) (mkState n w2)
                = (Ok tt, mkState n (tick (EvFlush target) w2))).
  { apply io_run. by apply (syscall_calm 2). }
  apply (calm_tick _ (EvFlush target)) in Hc.
  assert (Hfs : io (os_fsync target) (mkState n (tick (EvFlush target) w2))
                = (Ok tt, mkState n (tick (EvFsync target) (tick (EvFlush target) w2)))).
  { apply io_run. by apply (syscall_calm 1). }
  apply (calm_tick _ (EvFsync target)) in Hc.
  eexists. eapply try_finally_Ok.
  - erewrite bind_Ok by exact Hwr. erewrite bind_Ok by exact Hfl. exact Hfs.
  - apply io_run. by apply (syscall_calm 0).
Qed.

Lemma atomic_try_calm d b target payload s rnd :
  calm 9 (env s) → target ∉ dirs (env s) →
  rnd ∈ tmp_names (env s) →
  path_exists (env s) (temp_name (cwd (env s)) d b rnd) = false →
  ∃ s1 loc, atomic_try (Some d) (Some b) target payload (s, None) = (Ok tt, (s1, loc)).
Proof.
  destruct s as [n w]. cbn [env]. intros Hc Hdir Hin Hfree. unfold atomic_try.
  erewrite bind_Ok by reflexivity.
  change (default gettempdir (Some d)) with d.
  destruct (pick_fresh_Some w (os_path_abspath (cwd w) d) (b +:+ "_") ".tmp"
              (tmp_names w) rnd Hin Hfree) as [[tmp rest] Hpick].
  assert (Hmk : outer (L:=option string) (io (NamedTemporaryFile d (b +:+ "_") ".tmp"))
                  (mkState n w, None)
                = (Ok tmp, (mkState n (set_tmp_names rest
                                         (set_files (<[tmp := []]> (files w))
                                            (tick (EvMkstemp d (b +:+ "_") ".tmp") w))),
                            None))).
  { apply outer_io_run. by rewrite NamedTemporaryFile_eq, (calm_hd _ _ Hc), Hpick. }
  erewrite bind_Ok by exact Hmk.
  apply (calm_tick _ (EvMkstemp d (b +:+ "_") ".tmp")) in Hc.
  set (w1 := set_tmp_names _ _). change (calm 8 w1) in Hc.
  assert (Hdir1 : target ∉ dirs w1) by exact Hdir.
  assert (Hf1 : files w1 !! tmp = Some []) by apply lookup_insert_eq.
  assert (Hwr : outer (L:=option string) (io (file_write tmp payload))
                  (mkState n w1, Some tmp)
                = (Ok tt, (mkState n (set_files (alter (λ c, c ++ payload) tmp (files w1))
                                        (tick (EvWrite tmp payload) w1)), Some tmp))).
  { apply outer_io_run. by rewrite file_write_eq, (calm_hd _ _ Hc). }
  apply (calm_tick _ (EvWrite tmp payload)) in Hc.
  set (w2 := set_files _ (tick _ w1)) in *. change (calm 7 w2) in Hc.
  assert (Hf2 : files w2 !! tmp = Some payload).
  { unfold w2. cbn [files set_files]. by rewrite lookup_alter_eq, Hf1. }
  assert (Hfl : outer (L:=option string) (io (file_flush tmp)) (mkState n w2, Some tmp)
                = (Ok tt, (mkState n (tick (EvFlush tmp) w2), Some tmp))).
  { apply outer_io_run. by apply (syscall_calm 6). }
  apply (calm_tick _ (EvFlush tmp)) in Hc.
  assert (Hfs : outer (L:=option string) (io (os_fsync tmp))
                  (mkState n (tick (EvFlush tmp) w2), Some tmp)
                = (Ok tt, (mkState n (tick (EvFsync tmp) (tick (EvFlush tmp) w2)), Some tmp))).
  { apply outer_io_run. by apply (syscall_calm 5). }
  apply (calm_tick _ (EvFsync tmp)) in Hc.
  assert (Hcl : outer (L:=option string) (io (file_close tmp))
                  (mkState n (tick (EvFsync tmp) (tick (EvFlush tmp) w2)), Some tmp)
                = (Ok tt, (mkState n (tick (EvClose tmp) (tick (EvFsync tmp)
                                                            (tick (EvFlush tmp) w2))),
                           Some tmp))).
  { apply outer_io_run. by apply (syscall_calm 4). }
  apply (calm_tick _ (EvClose tmp)) in Hc.
  set (w3 := tick (EvClose tmp) _) in *.
  assert (Hwith : try_finally
                    (set_local (Some tmp) ;;;
                     outer (io (file_write tmp payload)) ;;;
                     outer (io (file_flush tmp)) ;;;
                     outer (io (os_fsync tmp)))
                    (outer (io (file_close tmp))) (mkState n w1, None)
                  = (Ok tt, (mkState n w3, Some tmp))).
  { eapply try_finally_Ok; [|exact Hcl].
    erewrite bind_Ok by reflexivity. cbn [set_local modify].
    erewrite bind_Ok by exact Hwr. erewrite bind_Ok by exact Hfl. exact Hfs. }
  erewrite bind_Ok by exact Hwith.
  erewrite bind_Ok by reflexivity. cbn [snd].
  assert (Hrep : outer (L:=option string) (io (os_replace tmp target)) (mkState n w3, Some tmp)
                 = (Ok tt, (mkState n (set_files (<[target := payload]> (delete tmp (files w3)))
                                        (tick (EvReplace tmp target) w3)), Some tmp))).
  { apply outer_io_run. rewrite os_replace_eq, (calm_hd _ _ Hc). cbn zeta.
    change (files w3) with (files w2). rewrite Hf2.
    by rewrite bool_decide_eq_false_2. }
  erewrite bind_Ok by exact Hrep.
  apply (calm_tick _ (EvReplace tmp target)) in Hc.
  set (w4 := set_files _ (tick _ w3)) in *. change (calm 3 w4) in Hc.
  assert (Hod : outer (L:=option string) (io (os_open_dir d)) (mkState n w4, Some tmp)
                = (Ok d, (mkState n (tick (EvOpenDir d) w4), Some tmp))).
  { apply outer_io_run. by rewrite os_open_dir_eq, (calm_hd _ _ Hc). }
  erewrite bind_Ok by exact Hod.
  apply (calm_tick _ (EvOpenDir d)) in Hc.
  eexists _, _. eapply try_finally_Ok.
  - apply outer_io_run. by apply (syscall_calm 1).
  - apply outer_io_run. apply (syscall_calm 0). by apply (calm_tick _ (EvFsyncDir d)) in Hc.
Qed.

Lemma node_ok_names n target :
  node_ok n → sketch_file n = Some target →
  sketch_file_dirname n = Some (target_dir target) ∧
  sketch_file_basename n = Some (target_base target).
Proof. unfold node_ok. intros Hok Ht. by rewrite Ht in Hok. Qed.

Lemma node_ok_target n :
  node_ok n → durability_level n ≠ VOLATILE → ∃ target, sketch_file n = Some target.
Proof.
  unfold node_ok. destruct (sketch_file n) as [target|]; [eauto|].
  intros [Hv _] Hnv. done.
Qed.

(** The outcomes of a flush that has something to write. *)
Lemma committer_work_dirty (s : State) (target : string) :
  durability_level (self s) ≠ VOLATILE →
  sketch_file (self s) = Some target →
  sketch_file_dirname (self s) = Some (target_dir target) →
  sketch_file_basename (self s) = Some (target_base target) →
  is_dirty (self s) = true →
  let payload := serialize_compact (sketch (self s)) in
  match committer_work s with
  | (Ok flushed, s') =>
      flushed = true ∧
      self s' = with_is_dirty false (self s) ∧
      files (env s') = <[target := payload]> (files (env s)) ∧
      (if atomicity (self s)
       then ∃ rnd,
           trace (env s') =
           trace (env s) ++
           atomic_protocol (target_dir target) (target_base target)
             (temp_name (cwd (env s)) (target_dir target) (target_base target) rnd)
             target payload
       else trace (env s') = trace (env s) ++ direct_protocol target payload)
  | (Raise e, s') => self s' = self s ∧ is_dirty (self s') = true
  | (OutOfFuel, _) => False
  end.
Proof.
  intros Hv Htarget Hdir Hbase Hd. cbn zeta.
  rewrite committer_work_eq. cbn zeta.
  rewrite bool_decide_eq_false_2 by done. rewrite Htarget, Hd, Hdir, Hbase.
  destruct (atomicity (self s)).
  - pose proof (atomic_write_same_self (Some (target_dir target))
                  (Some (target_base target)) target
                  (serialize_compact (sketch (self s))) s I) as [_ Hself].
    pose proof (atomic_write_total (Some (target_dir target))
                  (Some (target_base target)) target
                  (serialize_compact (sketch (self s))) s) as Htot.
    destruct (atomic_write _ _ _ _ s) as [[[]|e|] s1] eqn:Hw; cbn in *.
    + apply atomic_write_Ok in Hw as [loc Hw].
      apply atomic_try_Ok in Hw as (rnd & _ & _ & _ & Hs1 & Htr & Hfiles).
      rewrite Hs1. eauto.
    + unfold same_self in Hself. rewrite Hself. done.
    + done.
  - pose proof (direct_write_same_self target
                  (serialize_compact (sketch (self s))) s I) as [_ Hself].
    pose proof (direct_write_total target
                  (serialize_compact (sketch (self s))) s) as Htot.
    destruct (direct_write _ _ s) as [[[]|e|] s1] eqn:Hw; cbn in *.
    + apply direct_write_Ok in Hw as (Hs1 & Htr & Hfiles).
      rewrite Hs1. eauto.
    + unfold same_self in Hself. rewrite Hself. done.
    + done.
Qed.

(** A flush none of whose system calls fails returns [True]. *)
Lemma committer_work_succeeds (s : State) (target : string) :
  durability_level (self s) ≠ VOLATILE →
  sketch_file (self s) = Some target →
  sketch_file_dirname (self s) = Some (target_dir target) →
  sketch_file_basename (self s) = Some (target_base target) →
  is_dirty (self s) = true →
  calm (flush_calls (atomicity (self s))) (env s) →
  target ∉ dirs (env s) →
  (atomicity (self s) = true →
   ∃ rnd, rnd ∈ tmp_names (env s) ∧
          path_exists (env s)
            (temp_name (cwd (env s)) (target_dir target) (target_base target) rnd) = false) →
  (committer_work s).1 = Ok true.
Proof.
  intros Hv Htarget Hdir Hbase Hd Hcalm Hnodir Hfresh.
  rewrite committer_work_eq. cbn zeta.
  rewrite bool_decide_eq_false_2 by done. rewrite Htarget, Hd, Hdir, Hbase.
  destruct (atomicity (self s)); cbn [flush_calls] in Hcalm.
  - destruct (Hfresh eq_refl) as (rnd & Hin & Hfree).
    destruct (atomic_try_calm (target_dir target) (target_base target) target
                (serialize_compact (sketch (self s))) s rnd Hcalm Hnodir Hin Hfree)
      as (s1 & loc & Htry).
    unfold atomic_write, with_local, try_except. by rewrite Htry.
  - destruct (direct_write_calm target (serialize_compact (sketch (self s))) s Hcalm Hnodir)
      as (s1 & ->). done.
Qed.

(** C1. [committer_work] (flush_once) does nothing and returns [False]
    when the durability is VOLATILE or the dirty flag is unset.  Otherwise
    it writes the compact serialization of the current sketch to the
    sketch file, in the way the atomicity flag selects, clears the dirty
    flag and returns [True]: it does so whenever none of its system calls
    fails (no failure is scheduled for them, the target is no directory
    and, for the atomic way, a candidate name of the temporary file is
    free).  The flag is cleared only after every write call has
    succeeded, so a flush that raises leaves the object, and with it
    [is_dirty = True], as it was. *)
Theorem committer_work_flush_once (s : State) :
  node_ok (self s) →
  (durability_level (self s) = VOLATILE ∨ is_dirty (self s) = false →
   committer_work s = (Ok false, s)) ∧
  (durability_level (self s) ≠ VOLATILE → is_dirty (self s) = true →
   ∃ target, sketch_file (self s) = Some target ∧
     let payload := serialize_compact (sketch (self s)) in
     let tmp := temp_name (cwd (env s)) (target_dir target) (target_base target) in
     (calm (flush_calls (atomicity (self s))) (env s) →
      target ∉ dirs (env s) →
      (atomicity (self s) = true →
       ∃ rnd, rnd ∈ tmp_names (env s) ∧ path_exists (env s) (tmp rnd) = false) →
      (committer_work s).1 = Ok true) ∧
     match committer_work s with
     | (Ok flushed, s') =>
         flushed = true ∧
         self s' = with_is_dirty false (self s) ∧
         files (env s') = <[target := payload]> (files (env s)) ∧
         (if atomicity (self s)
          then ∃ rnd,
              trace (env s') =
              trace (env s) ++
              atomic_protocol (target_dir target) (target_base target) (tmp rnd)
                target payload
          else trace (env s') = trace (env s) ++ direct_protocol target payload)
     | (Raise e, s') => self s' = self s ∧ is_dirty (self s') = true
     | (OutOfFuel, _) => False
     end).
Proof.
  intros Hok. split.
  - intros Hnoop. rewrite committer_work_eq. cbn zeta.
    destruct (bool_decide_reflect (durability_level (self s) = VOLATILE)) as [Hv|Hv]; [done|].
    destruct Hnoop as [Hv'|Hd]; [done|]. rewrite Hd.
    by destruct (sketch_file (self s)).
  - intros Hv Hd.
    destruct (node_ok_target _ Hok Hv) as [target Htarget].
    destruct (node_ok_names _ _ Hok Htarget) as [Hdir Hbase].
    exists target. split; [done|]. cbn zeta. split.
    + by apply committer_work_succeeds.
    + by apply committer_work_dirty.
Qed.

Lemma syscall_files ev w : files (syscall ev w).2 = files w.
Proof. by rewrite syscall_eq. Qed.

Lemma committer_work_atomic s target e s1 loc :
  durability_level (self s) ≠ VOLATILE → sketch_file (self s) = Some target →
  is_dirty (self s) = true → atomicity (self s) = true →
  atomic_try (sketch_file_dirname (self s)) (sketch_file_basename (self s)) target
    (serialize_compact (sketch (self s))) (s, None) = (Raise e, (s1, loc)) →
  committer_work s =
  match atomic_except e (s1, loc) with
  | (Ok _, (s', _)) => (Ok true, mkState (with_is_dirty false (self s')) (env s'))
  | (Raise e', (s', _)) => (Raise e', s')
  | (OutOfFuel, (s', _)) => (OutOfFuel, s')
  end.
Proof.
  intros Hv Ht Hd Ha Htry. rewrite committer_work_eq. cbn zeta.
  rewrite bool_decide_eq_false_2 by done. rewrite Ht, Hd, Ha.
  unfold atomic_write, with_local, try_except. rewrite Htry.
  cbv beta iota delta [is_BaseException].
  by destruct (atomic_except e (s1, loc)) as [[[]|e'|] [s' l']].
Qed.

(** ** A flush in which one call fails *)

Lemma faults_tick ev w f fs : faults w = f :: fs → faults (tick ev w) = fs.
Proof. intros Hf. change (faults (tick ev w)) with (tl (faults w)). by rewrite Hf. Qed.

Lemma faults_tick_any w f fs : faults w = f :: fs → ∀ ev, faults (tick ev w) = fs.
Proof. intros Hf ev. by apply faults_tick with f. Qed.

Lemma faults_tick_nil ev w : faults w = [] → faults (tick ev w) = [].
Proof. intros Hf. change (faults (tick ev w)) with (tl (faults w)). by rewrite Hf. Qed.

Lemma syscall_at ev w f fs :
  faults w = f :: fs →
  syscall ev w = (match f with Some e => Raise e | None => Ok tt end, tick ev w).
Proof. intros Hf. by rewrite syscall_eq, Hf. Qed.

Lemma syscall_ok ev w fs : faults w = None :: fs → syscall ev w = (Ok tt, tick ev w).
Proof. intros Hf. by rewrite syscall_eq, Hf. Qed.

Lemma syscall_nil ev w : faults w = [] → syscall ev w = (Ok tt, tick ev w).
Proof. intros Hf. by rewrite syscall_eq, Hf. Qed.

(** The [with] block under a schedule with a single failure. *)
Lemma with_block_fails tmp payload n w (l : option string) j e :
  (j ≤ 3)%nat → faults w = fails_at j e →
  ∃ w1,
    try_finally
      (set_local (Some tmp) ;;;
       outer (io (file_write tmp payload)) ;;;
       outer (io (file_flush tmp)) ;;;
       outer (io (os_fsync tmp)))
      (outer (io (file_close tmp))) (mkState n w, l)
    = (Raise e, (mkState n w1, Some tmp)) ∧
    trace w1 = trace w ++ take (S j) [EvWrite tmp payload; EvFlush tmp; EvFsync tmp]
                       ++ [EvClose tmp] ∧
    faults w1 = [] ∧ dirs w1 = dirs w ∧
    files w1 = (if bool_decide (j = 0%nat) then files w
                else alter (λ c, c ++ payload) tmp (files w)).
Proof.
  intros Hj Hf. unfold fails_at in Hf. unfold file_flush, os_fsync, file_close.
  destruct j as [|j]; cbn [replicate app] in Hf.
  { (* the write fails *)
    eexists. split_and!.
    - eapply try_finally_Raise.
      + erewrite bind_Ok by reflexivity. cbn [set_local modify].
        erewrite bind_Raise; [reflexivity|].
        apply outer_io_run. by rewrite file_write_eq, Hf.
      + apply outer_io_run. apply syscall_nil. by apply (faults_tick _ _ _ _ Hf).
    - cbn. by rewrite <- app_assoc.
    - cbn. by rewrite Hf.
    - done.
    - done. }
  assert (Hwr : outer (L:=option string) (io (file_write tmp payload)) (mkState n w, Some tmp)
                = (Ok tt, (mkState n (set_files (alter (λ c, c ++ payload) tmp (files w))
                                        (tick (EvWrite tmp payload) w)), Some tmp))).
  { apply outer_io_run. by rewrite file_write_eq, Hf. }
  apply (faults_tick (EvWrite tmp payload)) in Hf.
  set (w2 := set_files _ (tick _ w)) in *.
  change (faults w2 = replicate j None ++ [Some e]) in Hf.
  destruct j as [|j]; cbn [replicate app] in Hf.
  { (* the flush fails *)
    eexists. split_and!.
    - eapply try_finally_Raise.
      + erewrite bind_Ok by reflexivity. cbn [set_local modify].
        erewrite bind_Ok by exact Hwr.
        erewrite bind_Raise; [reflexivity|].
        apply outer_io_run. exact (syscall_at _ _ _ _ Hf).
      + apply outer_io_run. apply syscall_nil. by apply (faults_tick _ _ _ _ Hf).
    - cbn. by rewrite <- !app_assoc.
    - cbn. change (faults w) with (faults w). apply (faults_tick (EvFlush tmp)) in Hf.
      apply (faults_tick_nil (EvClose tmp)) in Hf. exact Hf.
    - done.
    - done. }
  assert (Hfl : outer (L:=option string) (io (file_flush tmp)) (mkState n w2, Some tmp)
                = (Ok tt, (mkState n (tick (EvFlush tmp) w2), Some tmp))).
  { apply outer_io_run. exact (syscall_at _ _ _ _ Hf). }
  apply (faults_tick (EvFlush tmp)) in Hf.
  destruct j as [|j]; cbn [replicate app] in Hf.
  { (* the fsync fails *)
    eexists. split_and!.
    - eapply try_finally_Raise.
      + erewrite bind_Ok by reflexivity. cbn [set_local modify].
        erewrite bind_Ok by exact Hwr. erewrite bind_Ok by exact Hfl.
        apply outer_io_run. exact (syscall_at _ _ _ _ Hf).
      + apply outer_io_run. apply syscall_nil. by apply (faults_tick _ _ _ _ Hf).
    - cbn. by rewrite <- !app_assoc.
    - apply (faults_tick (EvFsync tmp)) in Hf.
      apply (faults_tick_nil (EvClose tmp)) in Hf. exact Hf.
    - done.
    - done. }
  assert (Hfs : outer (L:=option string) (io (os_fsync tmp))
                  (mkState n (tick (EvFlush tmp) w2), Some tmp)
                = (Ok tt, (mkState n (tick (EvFsync tmp) (tick (EvFlush tmp) w2)), Some tmp))).
  { apply outer_io_run. exact (syscall_at _ _ _ _ Hf). }
  apply (faults_tick (EvFsync tmp)) in Hf.
  destruct j as [|j]; [|lia]. cbn [replicate app] in Hf.
  (* the close fails *)
  eexists. split_and!.
  - eapply try_finally_fin_Raise.
    + erewrite bind_Ok by reflexivity. cbn [set_local modify].
      erewrite bind_Ok by exact Hwr. erewrite bind_Ok by exact Hfl. exact Hfs.
    + apply outer_io_run. exact (syscall_at _ _ _ _ Hf).
  - cbn. by rewrite <- !app_assoc.
  - by apply (faults_tick (EvClose tmp)) in Hf.
  - done.
  - done.
Qed.

Lemma with_block_ok tmp payload n w (l : option string) fs :
  faults w = None :: None :: None :: None :: fs →
  try_finally
    (set_local (Some tmp) ;;;
     outer (io (file_write tmp payload)) ;;;
     outer (io (file_flush tmp)) ;;;
     outer (io (os_fsync tmp)))
    (outer (io (file_close tmp))) (mkState n w, l)
  = (Ok tt, (mkState n (tick (EvClose tmp) (tick (EvFsync tmp) (tick (EvFlush tmp)
                          (set_files (alter (λ c, c ++ payload) tmp (files w))
                             (tick (EvWrite tmp payload) w))))), Some tmp)).
Proof.
  intros Hf. unfold file_flush, os_fsync, file_close.
  eapply try_finally_Ok.
  - erewrite bind_Ok by reflexivity. cbn [set_local modify].
    erewrite bind_Ok by (apply outer_io_run; by rewrite file_write_eq, Hf).
    apply (faults_tick (EvWrite tmp payload)) in Hf.
    erewrite bind_Ok by (apply outer_io_run; eapply syscall_ok; exact Hf).
    apply (faults_tick (EvFlush tmp)) in Hf.
    apply outer_io_run. eapply syscall_ok. exact Hf.
  - apply (faults_tick (EvWrite tmp payload)) in Hf.
    apply (faults_tick (EvFlush tmp)) in Hf.
    apply (faults_tick (EvFsync tmp)) in Hf.
    apply outer_io_run. eapply syscall_ok. exact Hf.
Qed.

Lemma dir_part_fails d n w (l : option string) j e :
  (j ≤ 2)%nat → faults w = fails_at j e →
  ∃ w1,
    (dir_fd <- outer (io (os_open_dir d)) ;;
     try_finally (outer (io (os_fsync_dir dir_fd))) (outer (io (os_close_dir dir_fd))))
      (mkState n w, l)
    = (Raise e, (mkState n w1, l)) ∧
    trace w1 = trace w ++ take (S j) [EvOpenDir d; EvFsyncDir d; EvCloseDir d]
                       ++ (if bool_decide (j = 1%nat) then [EvCloseDir d] else []) ∧
    faults w1 = [] ∧ dirs w1 = dirs w ∧ files w1 = files w.
Proof.
  intros Hj Hf. unfold fails_at in Hf. unfold os_fsync_dir, os_close_dir.
  destruct j as [|j]; cbn [replicate app] in Hf.
  { eexists. split_and!.
    - erewrite bind_Raise; [reflexivity|].
      apply outer_io_run. by rewrite os_open_dir_eq, Hf.
    - done.
    - by apply (faults_tick (EvOpenDir d)) in Hf.
    - done.
    - done. }
  erewrite bind_Ok by (apply outer_io_run; by rewrite os_open_dir_eq, Hf).
  apply (faults_tick (EvOpenDir d)) in Hf.
  destruct j as [|j]; cbn [replicate app] in Hf.
  { eexists. split_and!.
    - eapply try_finally_Raise.
      + apply outer_io_run. exact (syscall_at _ _ _ _ Hf).
      + apply outer_io_run. apply syscall_nil. by apply (faults_tick _ _ _ _ Hf).
    - cbn. by rewrite <- !app_assoc.
    - apply (faults_tick (EvFsyncDir d)) in Hf.
      by apply (faults_tick_nil (EvCloseDir d)) in Hf.
    - done.
    - done. }
  destruct j as [|j]; [|lia]. cbn [replicate app] in Hf.
  eexists. split_and!.
  - eapply try_finally_fin_Raise.
    + apply outer_io_run. exact (syscall_at _ _ _ _ Hf).
    + apply outer_io_run. apply (faults_tick (EvFsyncDir d)) in Hf.
      exact (syscall_at _ _ _ _ Hf).
  - cbn. by rewrite <- !app_assoc.
  - apply (faults_tick (EvFsyncDir d)) in Hf.
    by apply (faults_tick (EvCloseDir d)) in Hf.
  - done.
  - done.
Qed.

Lemma atomic_try_fails_at d b target payload n w tmp rest k e :
  (k ≤ 8)%nat →
  target ∉ dirs w →
  pick_fresh w (os_path_abspath (cwd w) d) (b +:+ "_") ".tmp" (tmp_names w) = Some (tmp, rest) →
  faults w = fails_at k e →
  ∃ w1,
    atomic_try (Some d) (Some b) target payload (mkState n w, None)
    = (Raise e, (mkState n w1, if bool_decide (k = 0%nat) then None else Some tmp)) ∧
    trace w1 = trace w ++ atomic_calls_until k d b tmp target payload ∧
    faults w1 = [] ∧ dirs w1 = dirs w ∧
    files w1 = atomic_files_until k tmp target payload (files w).
Proof.
  intros Hk Hnodir Hpick Hf. unfold atomic_try.
  erewrite bind_Ok by reflexivity.
  change (default gettempdir (Some d)) with d.
  pose proof Hpick as Hfresh.
  apply pick_fresh_spec in Hfresh as (rnd & _ & _ & Hfresh).
  apply path_exists_false in Hfresh.
  unfold fails_at in Hf.
  destruct k as [|k]; cbn [replicate app] in Hf.
  { (* the creation fails *)
    eexists. split_and!.
    - erewrite bind_Raise; [reflexivity|].
      apply outer_io_run. by rewrite NamedTemporaryFile_eq, Hf.
    - done.
    - by apply (faults_tick (EvMkstemp d (b +:+ "_") ".tmp")) in Hf.
    - done.
    - done. }
  erewrite bind_Ok
    by (apply outer_io_run; by rewrite NamedTemporaryFile_eq, Hf, Hpick).
  apply (faults_tick (EvMkstemp d (b +:+ "_") ".tmp")) in Hf.
  set (w1 := set_tmp_names rest _).
  change (faults w1 = replicate k None ++ [Some e]) in Hf.
  assert (Hf1 : files w1 = <[tmp := []]> (files w)) by done.
  assert (Htr1 : trace w1 = trace w ++ [EvMkstemp d (b +:+ "_") ".tmp"]) by done.
  assert (Hd1 : dirs w1 = dirs w) by done.
  clearbody w1.
  destruct (decide (k ≤ 3)%nat) as [Hwith|Hwith].
  { (* a call of the [with] block fails *)
    destruct (with_block_fails tmp payload n w1 None k e Hwith Hf)
      as (w2 & Hrun & Htr & Hf2 & Hd2 & Hfiles).
    exists w2. split_and!.
    - erewrite bind_Raise by exact Hrun. done.
    - rewrite Htr, Htr1. unfold atomic_calls_until, atomic_protocol.
      rewrite <- !app_assoc.
      do 4 (destruct k as [|k]; [reflexivity|]). lia.
    - done.
    - congruence.
    - rewrite Hfiles, Hf1. unfold atomic_files_until.
      do 4 (destruct k as [|k]; [cbn; by rewrite ?alter_insert_eq|]). lia. }
  do 4 (destruct k as [|k]; [lia|]). cbn [replicate app] in Hf.
  erewrite bind_Ok by (apply (with_block_ok tmp payload n w1 None _ Hf)).
  set (w3 := tick (EvClose tmp) _).
  assert (Hfl3 : faults w3 = replicate k None ++ [Some e]).
  { unfold w3. cbn [faults set_files tick set_faults set_trace]. by rewrite Hf. }
  assert (Hf3 : files w3 = <[tmp := payload]> (files w)).
  { unfold w3. cbn [files set_files tick set_faults set_trace].
    by rewrite Hf1, alter_insert_eq. }
  assert (Htr3 : trace w3 = trace w ++ [EvMkstemp d (b +:+ "_") ".tmp"; EvWrite tmp payload;
                                         EvFlush tmp; EvFsync tmp; EvClose tmp]).
  { unfold w3. cbn. rewrite Htr1. by rewrite <- !app_assoc. }
  assert (Hd3 : dirs w3 = dirs w) by done.
  clearbody w3. clear Htr1 Hf1 Hd1 Hf w1. rename Hfl3 into Hf.
  erewrite bind_Ok by reflexivity. cbn [snd].
  destruct k as [|k]; cbn [replicate app] in Hf.
  { (* the rename fails *)
    eexists. split_and!.
    - erewrite bind_Raise; [reflexivity|].
      apply outer_io_run. by rewrite os_replace_eq, Hf.
    - cbn. rewrite Htr3. by rewrite <- !app_assoc.
    - by apply (faults_tick (EvReplace tmp target)) in Hf.
    - done.
    - done. }
  assert (Hrep : outer (L:=option string) (io (os_replace tmp target)) (mkState n w3, Some tmp)
                 = (Ok tt, (mkState n (set_files (<[target := payload]> (delete tmp (files w3)))
                                        (tick (EvReplace tmp target) w3)), Some tmp))).
  { apply outer_io_run. rewrite os_replace_eq, Hf. cbn zeta.
    rewrite Hf3, lookup_insert_eq, Hd3. by rewrite bool_decide_eq_false_2. }
  erewrite bind_Ok by exact Hrep.
  apply (faults_tick (EvReplace tmp target)) in Hf.
  set (w4 := set_files _ (tick _ w3)) in *.
  change (faults w4 = replicate k None ++ [Some e]) in Hf.
  assert (Hf4 : files w4 = <[target := payload]> (files w)).
  { unfold w4. cbn [files set_files tick set_faults set_trace].
    rewrite Hf3, delete_insert_eq. by rewrite delete_id. }
  assert (Htr4 : trace w4 = trace w ++ [EvMkstemp d (b +:+ "_") ".tmp"; EvWrite tmp payload;
                                         EvFlush tmp; EvFsync tmp; EvClose tmp;
                                         EvReplace tmp target]).
  { unfold w4. cbn. rewrite Htr3. by rewrite <- !app_assoc. }
  assert (Hd4 : dirs w4 = dirs w) by done.
  clearbody w4.
  destruct (dir_part_fails d n w4 (Some tmp) k e ltac:(lia) Hf)
    as (w5 & Hrun & Htr & Hf5 & Hd5 & Hfiles).
  exists w5. split_and!.
  - exact Hrun.
  - rewrite Htr, Htr4. unfold atomic_calls_until, atomic_protocol.
    rewrite <- !app_assoc.
    do 3 (destruct k as [|k]; [reflexivity|]). lia.
  - done.
  - congruence.
  - rewrite Hfiles, Hf4. unfold atomic_files_until.
    do 3 (destruct k as [|k]; [reflexivity|]). lia.
Qed.
Lemma path_exists_false_dirs w p : path_exists w p = false → p ∉ dirs w.
Proof.
  unfold path_exists. intros Hp. apply orb_false_elim in Hp as [_ Hp].
  by apply bool_decide_eq_false in Hp.
Qed.

(** X1: when exactly one of the nine system calls of an atomic flush
    fails (call number [k], counted from 0), [committer_work] raises that
    very exception and the node is unchanged (still dirty).  The recorded
    calls are the protocol up to the failing call, the [close] that the
    [with] block or the [finally] clause still makes, and the clean-up of
    the handler: the removal of the temporary file if one was created, and
    the warning if the rename had already moved it.  The files are as
    before when the failure came before or at the rename, and have the
    new content under the target after it. *)
Theorem atomic_flush_single_failure (s : State) (target tmp : string)
    (rest : list string) (k : nat) (e : exn) :
  node_ok (self s) →
  durability_level (self s) ≠ VOLATILE →
  sketch_file (self s) = Some target →
  is_dirty (self s) = true →
  atomicity (self s) = true →
  let d := target_dir target in
  let b := target_base target in
  let payload := serialize_compact (sketch (self s)) in
  target ∉ dirs (env s) → tmp ≠ target →
  pick_fresh (env s) (os_path_abspath (cwd (env s)) d) (b +:+ "_") ".tmp"
    (tmp_names (env s)) = Some (tmp, rest) →
  (k ≤ 8)%nat →
  faults (env s) = fails_at k e →
  ∃ s',
    committer_work s = (Raise e, s') ∧
    self s' = self s ∧
    trace (env s') = trace (env s) ++ atomic_calls_until k d b tmp target payload
                                   ++ atomic_cleanup k tmp ∧
    files (env s') = if bool_decide (k ≤ 5)%nat then files (env s)
                     else <[target := payload]> (files (env s)).
Proof.
  intros Hok Hv Ht Hd Ha d b payload Hnodir Hne Hpick Hk Hf.
  destruct (node_ok_names _ _ Hok Ht) as [Hdir Hbase]. fold d in Hdir. fold b in Hbase.
  destruct s as [n w]. cbn [self env] in *.
  destruct (atomic_try_fails_at d b target payload n w tmp rest k e Hk Hnodir Hpick Hf)
    as (w1 & Htry & Htr & Hf1 & Hd1 & Hfiles).
  pose proof (committer_work_atomic (mkState n w) target e (mkState n w1)
                (if bool_decide (k = 0%nat) then None else Some tmp) Hv Ht Hd Ha) as Hcw.
  cbn [self env] in Hcw. rewrite Hdir, Hbase in Hcw. specialize (Hcw Htry).
  pose proof Hpick as Hfresh.
  apply pick_fresh_spec in Hfresh as (rnd & _ & _ & Hfresh).
  pose proof (path_exists_false _ _ Hfresh) as Hnofile.
  pose proof (path_exists_false_dirs _ _ Hfresh) as Hnodirtmp.
  unfold atomic_cleanup.
  destruct (bool_decide_reflect (k = 0%nat)) as [->|Hk0].
  - rewrite atomic_except_None in Hcw. eexists. split; [exact Hcw|].
    cbn [self env]. split_and!; [done| |].
    + rewrite app_nil_r. exact Htr.
    + exact Hfiles.
  - rewrite atomic_except_eq in Hcw. cbn zeta in Hcw. rewrite Hf1 in Hcw. cbn [hd] in Hcw.
    rewrite Hfiles in Hcw. unfold atomic_files_until in Hcw, Hfiles.
    rewrite (bool_decide_eq_false_2 (k = 0%nat)) in Hcw, Hfiles by done.
    destruct (bool_decide_reflect (k ≤ 5)%nat) as [Hk5|Hk5].
    + assert (Hthere : is_Some (( if bool_decide (k = 1%nat) then <[tmp := []]> (files w)
                                  else <[tmp := payload]> (files w)) !! tmp)).
      { destruct (bool_decide (k = 1%nat)); rewrite lookup_insert_eq; eauto. }
      destruct Hthere as [c Hc]. rewrite Hc in Hcw.
      eexists. split; [exact Hcw|]. cbn [self env]. split_and!; [done|..].
      * cbn [trace set_files tick set_faults set_trace]. rewrite Htr.
        by rewrite <- !app_assoc.
      * cbn [files set_files tick set_faults set_trace].
        destruct (bool_decide (k = 1%nat)); rewrite delete_insert_eq; by apply delete_id.
    + rewrite (bool_decide_eq_false_2 (k = 1%nat)) in Hcw by lia.
      rewrite lookup_insert_ne in Hcw by done. rewrite Hnofile in Hcw.
      rewrite Hd1 in Hcw. rewrite bool_decide_eq_false_2 in Hcw by done.
      eexists. split; [exact Hcw|]. cbn [self env]. split_and!; [done|..].
      * cbn [trace set_files tick set_faults set_trace]. rewrite Htr.
        by rewrite <- !app_assoc.
      * cbn [files set_files tick set_faults set_trace]. rewrite Hfiles.
        by rewrite !bool_decide_eq_false_2 by lia.
Qed.

(** ** Loading the sketch file *)

Lemma io_syscall_calm ev n w :
  faults w = [] → io (syscall ev) (mkState n w) = (Ok tt, mkState n (tick ev w)).
Proof. intros Hf. apply io_run. by rewrite syscall_eq, Hf. Qed.

Lemma reader_work_calm (s : State) :
  faults (env s) = [] →
  match sketch_file (self s) with
  | None => reader_work s = (Ok false, s)
  | Some path =>
      if bool_decide (path ∈ dirs (env s)) then
        reader_work s = (Raise (IsADirectoryError path),
                         mkState (self s) (tick (EvOpenRead path) (env s)))
      else
        match files (env s) !! path with
        | None =>
            reader_work s = (Ok false, mkState (self s) (tick (EvOpenRead path) (env s)))
        | Some b =>
            match hll_sketch_deserialize b with
            | Some sk =>
                reader_work s
                = (Ok true, mkState (with_sketch sk (self s)) (loaded path (env s)))
            | None =>
                reader_work s
                = (Raise (SketchError "deserialize"), mkState (self s) (loaded path (env s)))
            end
        end
  end.
Proof.
  destruct s as [n w]. cbn [self env]. intros Hf.
  unfold reader_work. erewrite bind_Ok by reflexivity. cbn beta.
  change (self (mkState n w)) with n.
  destruct (sketch_file n) as [path|]; [|reflexivity].
  destruct (bool_decide (path ∈ dirs w)) eqn:Hdir.
  { assert (Hopen : io (open_rb path) (mkState n w)
                    = (Raise (IsADirectoryError path), mkState n (tick (EvOpenRead path) w))).
    { apply io_run. by rewrite open_rb_eq, Hf, Hdir. }
    erewrite bind_Raise; [reflexivity|].
    eapply try_except_passed; [|reflexivity].
    erewrite bind_Raise by exact Hopen. reflexivity. }
  destruct (files w !! path) as [b|] eqn:Hb.
  - assert (Hopen : io (open_rb path) (mkState n w)
                    = (Ok tt, mkState n (tick (EvOpenRead path) w))).
    { apply io_run. by rewrite open_rb_eq, Hf, Hdir, Hb. }
    assert (Hread : io (file_read path) (mkState n (tick (EvOpenRead path) w))
                    = (Ok b, mkState n (tick (EvRead path) (tick (EvOpenRead path) w)))).
    { apply io_run. rewrite file_read_eq, faults_tick_nil by done.
      change (files (tick _ w)) with (files w). by rewrite Hb. }
    assert (Hclose : io (file_close path)
                       (mkState n (tick (EvRead path) (tick (EvOpenRead path) w)))
                     = (Ok tt, mkState n (loaded path w))).
    { apply io_syscall_calm. by do 2 apply faults_tick_nil. }
    erewrite bind_Ok.
    2:{ apply try_except_Ok. erewrite bind_Ok by exact Hopen.
        eapply try_finally_Ok; [|exact Hclose].
        erewrite bind_Ok by exact Hread. reflexivity. }
    cbn beta iota. unfold deserialize.
    destruct (hll_sketch_deserialize b) as [sk|]; reflexivity.
  - assert (Hopen : io (open_rb path) (mkState n w)
                    = (Raise (FileNotFoundError path), mkState n (tick (EvOpenRead path) w))).
    { apply io_run. by rewrite open_rb_eq, Hf, Hdir, Hb. }
    erewrite bind_Ok.
    2:{ etransitivity.
        - apply (try_except_caught _ _ _ _ (FileNotFoundError path)
                   (mkState n (tick (EvOpenRead path) w))); [|reflexivity].
          erewrite bind_Raise by exact Hopen. reflexivity.
        - reflexivity. }
    reflexivity.
Qed.

(** X2: [reader_work] when no system call fails.  It returns [True]
    exactly when the sketch file exists and deserializes, and then the
    node holds the stored sketch, after one open, one read and one close;
    it returns [False] without a sketch file (nothing is done) or when the
    file is missing (the open is swallowed); it raises when the path is a
    directory or when the content does not deserialize.  It never changes
    a file nor the dirty flag. *)
Theorem reader_work_load (s : State) :
  faults (env s) = [] →
  match reader_work s with
  | (Ok found, s') =>
      is_dirty (self s') = is_dirty (self s) ∧
      files (env s') = files (env s) ∧
      if found then
        ∃ path b sk,
          sketch_file (self s) = Some path ∧ files (env s) !! path = Some b ∧
          hll_sketch_deserialize b = Some sk ∧
          self s' = with_sketch sk (self s) ∧
          trace (env s') = trace (env s) ++ [EvOpenRead path; EvRead path; EvClose path]
      else
        self s' = self s ∧
        match sketch_file (self s) with
        | None => env s' = env s
        | Some path =>
            files (env s) !! path = None ∧
            trace (env s') = trace (env s) ++ [EvOpenRead path]
        end
  | (Raise e, s') =>
      self s' = self s ∧ files (env s') = files (env s) ∧
      ∃ path,
        sketch_file (self s) = Some path ∧
        ((path ∈ dirs (env s) ∧ e = IsADirectoryError path ∧
          trace (env s') = trace (env s) ++ [EvOpenRead path])
         ∨ (∃ b, files (env s) !! path = Some b ∧ hll_sketch_deserialize b = None ∧
                 e = SketchError "deserialize" ∧
                 trace (env s') = trace (env s)
                                  ++ [EvOpenRead path; EvRead path; EvClose path]))
  | (OutOfFuel, _) => False
  end.
Proof.
  intros Hf. pose proof (reader_work_calm s Hf) as Hr.
  destruct (sketch_file (self s)) as [path|] eqn:Hsf.
  - destruct (bool_decide_reflect (path ∈ dirs (env s))) as [Hdir|Hdir].
    { rewrite Hr. cbn. split_and!; [done..|]. exists path. split; [done|]. by left. }
    destruct (files (env s) !! path) as [b|] eqn:Hb.
    + destruct (hll_sketch_deserialize b) as [sk|] eqn:Hsk; rewrite Hr; cbn.
      * split_and!; [done..|]. exists path, b, sk. split_and!; try done.
        by rewrite <- !app_assoc.
      * split_and!; [done..|]. exists path. split; [done|]. right.
        exists b. split_and!; try done. by rewrite <- !app_assoc.
    + rewrite Hr. cbn. done.
  - rewrite Hr. cbn. done.
Qed.

(** X3: a flush that returned normally leaves nothing to flush: the
    next [committer_work] returns [False] and changes nothing. *)
Theorem committer_work_twice (s s1 : State) (flushed : bool) :
  committer_work s = (Ok flushed, s1) →
  committer_work s1 = (Ok false, s1).
Proof.
  intros Hrun. destruct flushed.
  - assert (Hclean : is_dirty (self s1) = false).
    { rewrite committer_work_eq in Hrun. cbn zeta in Hrun.
      destruct (bool_decide _); [discriminate Hrun|].
      destruct (sketch_file (self s)); [|discriminate Hrun].
      destruct (is_dirty (self s)); [|discriminate Hrun].
      destruct (if atomicity (self s) then _ else _) as [[[]|e|] s2];
        [|discriminate Hrun..].
      by injection Hrun as <-. }
    rewrite committer_work_eq. cbn zeta. rewrite Hclean.
    destruct (bool_decide _); [done|]. by destruct (sketch_file (self s1)).
  - assert (s1 = s) as ->; [|done].
    rewrite committer_work_eq in Hrun. cbn zeta in Hrun.
    destruct (bool_decide _); [by injection Hrun|].
    destruct (sketch_file (self s)); [|by injection Hrun].
    destruct (is_dirty (self s)); [|by injection Hrun].
    destruct (if atomicity (self s) then _ else _) as [[[]|e|] s2]; discriminate Hrun.
Qed.

(** X4: after a flush that returned [True], the target holds the
    compact serialization of the sketch, and a [reader_work] that meets no
    failure reads exactly these bytes: it returns [True] with the
    deserialized sketch, or raises when the library rejects them. *)
Theorem flush_then_load (s s1 : State) (target : string) :
  node_ok (self s) →
  sketch_file (self s) = Some target →
  committer_work s = (Ok true, s1) →
  faults (env s1) = [] → target ∉ dirs (env s1) →
  files (env s1) !! target = Some (serialize_compact (sketch (self s))) ∧
  match hll_sketch_deserialize (serialize_compact (sketch (self s))) with
  | Some sk =>
      reader_work s1 = (Ok true, mkState (with_sketch sk (self s1)) (loaded target (env s1)))
  | None =>
      reader_work s1
      = (Raise (SketchError "deserialize"), mkState (self s1) (loaded target (env s1)))
  end.
Proof.
  intros Hok Htarget Hrun Hcalm Hnodir.
  assert (Hv : durability_level (self s) ≠ VOLATILE ∧ is_dirty (self s) = true).
  { rewrite committer_work_eq in Hrun. cbn zeta in Hrun.
    destruct (bool_decide_reflect (durability_level (self s) = VOLATILE));
      [discriminate Hrun|].
    rewrite Htarget in Hrun.
    by destruct (is_dirty (self s)); [|discriminate Hrun]. }
  destruct Hv as [Hv Hd].
  destruct (node_ok_names _ _ Hok Htarget) as [Hdir Hbase].
  pose proof (committer_work_dirty s target Hv Htarget Hdir Hbase Hd) as Hcases.
  cbn zeta in Hcases. rewrite Hrun in Hcases.
  destruct Hcases as (_ & Hself & Hfiles & _).
  assert (Hthere : files (env s1) !! target = Some (serialize_compact (sketch (self s)))).
  { rewrite Hfiles. apply lookup_insert_eq. }
  split; [done|].
  pose proof (reader_work_calm s1 Hcalm) as Hr.
  assert (Hsf : sketch_file (self s1) = Some target) by (by rewrite Hself).
  rewrite Hsf, bool_decide_eq_false_2, Hthere in Hr by done. exact Hr.
Qed.

(** ** The target file during a flush *)

Lemma steps_outer_io_holds {A} target c tmp (m : M World A) :
  (∀ w, files w !! target = Some c → files (m w).2 !! target = Some c) →
  steps (target_holds target c tmp) unrelated (outer (io m)).
Proof.
  intros Hm [[n w] l] [Hl Hc]. unfold outer, io, zoom; cbn in *.
  specialize (Hm w Hc). destruct (m w) as [r w']. cbn in *. done.
Qed.

Lemma file_write_other target c p data w :
  p ≠ target → files w !! target = Some c →
  files (file_write p data w).2 !! target = Some c.
Proof.
  intros Hp Hc. rewrite file_write_eq. destruct (hd None (faults w)); cbn; [done|].
  by rewrite lookup_alter_ne.
Qed.

Ltac holds_leaf :=
  lazymatch goal with
  | |- steps _ _ (outer (io (file_write _ _))) =>
      apply steps_outer_io_holds; intros w; by apply file_write_other
  | |- steps _ _ (outer (io (os_open_dir _))) =>
      apply steps_outer_io_holds; intros w; by rewrite os_open_dir_eq
  | |- steps _ _ (outer (io (syscall _))) =>
      apply steps_outer_io_holds; intros w; by rewrite syscall_files
  | |- _ => idtac
  end.

Ltac holds_go :=
  steps_go (λ x : State * option string, I) (λ a b c : State * option string, λ (_ : unrelated a b) (_ : unrelated b c), I)
    ltac:(fun _ => holds_leaf).

(** The [with] block writes to the temporary file only. *)
Lemma atomic_with_block_holds target c tmp payload :
  tmp ≠ target →
  steps (target_holds target c tmp) unrelated
    (try_finally
       (outer (io (file_write tmp payload)) ;;;
        outer (io (file_flush tmp)) ;;;
        outer (io (os_fsync tmp)))
       (outer (io (file_close tmp)))).
Proof.
  intros Hne. unfold file_flush, os_fsync, file_close. holds_go.
Qed.

(** Syncing the directory changes no file. *)
Lemma atomic_dir_part_holds target c tmp d :
  steps (target_holds target c tmp) unrelated
    (dir_fd <- outer (io (os_open_dir d)) ;;
     try_finally (outer (io (os_fsync_dir dir_fd))) (outer (io (os_close_dir dir_fd)))).
Proof. unfold os_fsync_dir, os_close_dir. holds_go. Qed.

(** A [with] block that ends normally has appended the payload. *)
Lemma atomic_with_block_Ok tmp payload (s0 : State) (l0 : option string) s1 l1 :
  try_finally
    (outer (L:=option string) (io (file_write tmp payload)) ;;;
     outer (io (file_flush tmp)) ;;;
     outer (io (os_fsync tmp)))
    (outer (io (file_close tmp))) (s0, l0) = (Ok tt, (s1, l1)) →
  files (env s1) = alter (λ c, c ++ payload) tmp (files (env s0)).
Proof.
  destruct s0 as [n w]. intros Hrun.
  apply try_finally_Ok_inv in Hrun as ([s4 l4] & Hbody & Hclose).
  apply bind_Ok_inv in Hbody as ([] & [s6 l6] & Hwr & Hbody).
  apply outer_io_inv in Hwr as (w6 & -> & -> & Hwr).
  apply bind_Ok_inv in Hbody as ([] & [s7 l7] & Hfl & Hfs).
  apply outer_io_inv in Hfl as (w7 & -> & -> & Hfl).
  apply outer_io_inv in Hfs as (w4 & -> & -> & Hfs).
  apply outer_io_inv in Hclose as (w3 & -> & -> & Hclose).
  cbn [self env] in *.
  unfold file_flush, os_fsync, file_close in *.
  sys_inv Hwr. sys_inv Hfl. sys_inv Hfs. sys_inv Hclose. done.
Qed.

Lemma atomic_try_Raise_target d b target payload s e s1 tmp old :
  files (env s) !! target = Some old →
  atomic_try (Some d) (Some b) target payload (s, None) = (Raise e, (s1, Some tmp)) →
  tmp ≠ target ∧
  (files (env s1) !! target = Some old ∨ files (env s1) !! target = Some payload).
Proof.
  destruct s as [n w]. cbn [env]. intros Hold. unfold atomic_try.
  erewrite bind_Ok by reflexivity.
  change (default gettempdir (Some d)) with d.
  destruct (NamedTemporaryFile d (b +:+ "_") ".tmp" w) as [r w2] eqn:Hmk.
  assert (Hout : outer (L:=option string) (io (NamedTemporaryFile d (b +:+ "_") ".tmp"))
                   (mkState n w, None) = (r, (mkState n w2, None))).
  { unfold outer, io, zoom. cbn. by rewrite Hmk. }
  rewrite NamedTemporaryFile_eq in Hmk. cbn zeta in Hmk.
  destruct (hd None (faults w)) as [e0|] eqn:F0.
  { injection Hmk as <- <-. erewrite bind_Raise by exact Hout. discriminate. }
  destruct (pick_fresh w _ (b +:+ "_") ".tmp" (tmp_names w)) as [[p rest]|] eqn:Hpick.
  2:{ injection Hmk as <- <-. erewrite bind_Raise by exact Hout. discriminate. }
  injection Hmk as <- <-. erewrite bind_Ok by exact Hout. clear Hout F0.
  apply pick_fresh_spec in Hpick as (rnd & _ & _ & Hfresh).
  apply path_exists_false in Hfresh.
  assert (Hne : p ≠ target) by (intros ->; congruence).
  match goal with
  | |- ?m (?s0, None) = _ → _ =>
      change (m (s0, None)) with
        ((try_finally
            (outer (io (file_write p payload)) ;;;
             outer (io (file_flush p)) ;;;
             outer (io (os_fsync p)))
            (outer (io (file_close p))) ;;;
          temp_file_path <- get_local ;;
          match temp_file_path with
          | None => raise (TypeError "expected str, bytes or os.PathLike object, not NoneType")
          | Some q => outer (io (os_replace q target))
          end ;;;
          dir_fd <- outer (io (os_open_dir d)) ;;
          try_finally (outer (io (os_fsync_dir dir_fd))) (outer (io (os_close_dir dir_fd))))
           (s0, Some p))
  end.
  set (w0 := set_tmp_names rest _).
  assert (Hh0 : target_holds target old p (mkState n w0, Some p)).
  { split; [done|]. cbn. by rewrite lookup_insert_ne. }
  assert (Hp0 : files w0 !! p = Some []) by (cbn; apply lookup_insert_eq).
  intros Hrun.
  match type of Hrun with
  | _ ?x = _ =>
      destruct (atomic_try_rest_kept p d target payload x eq_refl) as [Hk _]
  end.
  rewrite Hrun in Hk. unfold path_kept in Hk. cbn in Hk. injection Hk as <-.
  split; [done|].
  destruct (atomic_with_block_holds target old tmp payload Hne _ Hh0) as [Hh1 _].
  destruct (try_finally _ _ (mkState n w0, Some tmp)) as [[[]|e1|] [[n1 w1] l1]] eqn:Hwb;
    cbn in Hh1.
  2:{ erewrite bind_Raise in Hrun by exact Hwb. injection Hrun as <- <-.
      left. apply Hh1. }
  2:{ erewrite bind_OutOfFuel in Hrun by exact Hwb. discriminate Hrun. }
  erewrite bind_Ok in Hrun by exact Hwb.
  apply atomic_with_block_Ok in Hwb. cbn [env] in Hwb.
  destruct Hh1 as [Hl1 Hh1]. cbn in Hl1, Hh1. subst l1.
  erewrite bind_Ok in Hrun by reflexivity. cbn [snd] in Hrun.
  assert (Hrep : outer (L:=option string) (io (os_replace tmp target))
                   (mkState n1 w1, Some tmp)
                 = ((os_replace tmp target w1).1,
                    (mkState n1 (os_replace tmp target w1).2, Some tmp))).
  { unfold outer, io, zoom. cbn. by destruct (os_replace tmp target w1). }
  rewrite os_replace_eq in Hrep. cbn zeta in Hrep.
  destruct (hd None (faults w1)) as [e0|].
  { erewrite bind_Raise in Hrun by exact Hrep. injection Hrun as <- <-. by left. }
  assert (Hc : files w1 !! tmp = Some payload).
  { rewrite Hwb, lookup_alter_eq, Hp0. done. }
  rewrite Hc in Hrep.
  destruct (bool_decide (target ∈ dirs w1)).
  { cbn [fst snd] in Hrep. erewrite bind_Raise in Hrun by exact Hrep.
    injection Hrun as <- <-. by left. }
  cbn [fst snd] in Hrep.
  erewrite bind_Ok in Hrun by exact Hrep.
  match type of Hrun with
  | _ ?x = _ =>
      assert (Hh2 : target_holds target payload tmp x)
        by (split; [done|]; cbn; apply lookup_insert_eq);
      destruct (atomic_dir_part_holds target payload tmp d x Hh2) as [Hh3 _]
  end.
  rewrite Hrun in Hh3. right. apply Hh3.
Qed.

(** The handler removes nothing but the temporary file. *)
Lemma atomic_except_target e s tmp target :
  tmp ≠ target →
  files (env (atomic_except e (s, Some tmp)).2.1) !! target = files (env s) !! target.
Proof.
  intros Hne. destruct s as [n w]. rewrite atomic_except_eq. cbn zeta.
  destruct (hd None (faults w)) as [e'|].
  - by destruct (is_FileNotFoundError e').
  - destruct (files w !! tmp); cbn; [by rewrite lookup_delete_ne|].
    by destruct (bool_decide (tmp ∈ dirs w)).
Qed.

(** X5: an atomic flush never leaves the target half-written.  If the
    target holds [old] before [committer_work] runs on a node with
    [atomicity], then afterwards it holds the new serialization when the
    flush returned [True], [old] when nothing was flushed, and one of the
    two when an exception escaped, whichever call failed. *)
Theorem atomic_flush_keeps_or_replaces (s : State) (target : string) (old : bytes) :
  node_ok (self s) →
  sketch_file (self s) = Some target →
  atomicity (self s) = true →
  files (env s) !! target = Some old →
  let payload := serialize_compact (sketch (self s)) in
  match committer_work s with
  | (Ok flushed, s') =>
      files (env s') !! target = Some (if flushed then payload else old)
  | (Raise _, s') =>
      files (env s') !! target = Some old ∨ files (env s') !! target = Some payload
  | (OutOfFuel, _) => False
  end.
Proof.
  intros Hok Ht Ha Hold payload.
  destruct (node_ok_names _ _ Hok Ht) as [Hdir Hbase].
  rewrite committer_work_eq. cbn zeta.
  destruct (bool_decide _); [done|]. rewrite Ht.
  destruct (is_dirty (self s)); [|done]. rewrite Ha, Hdir, Hbase. fold payload.
  set (d := target_dir target). set (b := target_base target).
  pose proof (atomic_try_total (Some d) (Some b) target payload (s, None)) as Htot.
  unfold atomic_write, with_local, try_except.
  destruct (atomic_try (Some d) (Some b) target payload (s, None))
    as [[[]|e|] [s1 loc]] eqn:Htry; cbn in Htot; [| |done].
  - apply atomic_try_Ok in Htry as (_ & _ & _ & _ & _ & _ & Hfiles).
    cbn. rewrite Hfiles. apply lookup_insert_eq.
  - cbv beta iota delta [is_BaseException].
    destruct loc as [tmp|].
    + destruct (atomic_try_Raise_target _ _ _ _ _ _ _ _ _ Hold Htry) as [Hne Hs1].
      pose proof (atomic_except_target e s1 tmp target Hne) as Hex.
      pose proof (atomic_except_not_Ok e (s1, Some tmp)) as Hnot.
      destruct (atomic_except e (s1, Some tmp)) as [[[]|e'|] [s2 l2]] eqn:Hrun.
      * by destruct (Hnot tt (s2, l2)).
      * cbn in Hex |- *. by rewrite Hex.
      * destruct s1 as [n1 w1].
        rewrite atomic_except_eq in Hrun. cbn zeta in Hrun.
        destruct (hd None (faults w1)) as [e'|];
          [destruct (is_FileNotFoundError e')
          | destruct (files w1 !! tmp); [|destruct (bool_decide (tmp ∈ dirs w1))]];
          discriminate Hrun.
    + apply atomic_try_Raise in Htry as [_ Henv].
      rewrite atomic_except_None. cbn. rewrite Henv. by left.
Qed.

(** X6: the non-atomic write is not safe against a failure: when the
    open succeeds and the write fails, [direct_write] raises and the
    target is left empty, whatever it held before. *)
Theorem direct_write_failure_truncates (target : string) (payload : bytes)
    (s : State) (e : exn) (rest : list (option exn)) :
  faults (env s) = None :: Some e :: rest →
  target ∉ dirs (env s) →
  ∃ e',
    (direct_write target payload s).1 = Raise e' ∧
    self (direct_write target payload s).2 = self s ∧
    files (env (direct_write target payload s).2) !! target = Some [].
Proof.
  destruct s as [n w]. cbn [env]. intros Hf Hnodir. unfold direct_write.
  assert (Hop : io (open_wb target) (mkState n w)
                = (Ok tt, mkState n (set_files (<[target := []]> (files w))
                                       (tick (EvOpenWrite target) w)))).
  { apply io_run. rewrite open_wb_eq, Hf. by rewrite bool_decide_eq_false_2. }
  erewrite bind_Ok by exact Hop.
  set (w1 := set_files _ _).
  assert (Hf1 : faults w1 = Some e :: rest) by (cbn; by rewrite Hf).
  assert (Hwr : io (file_write target payload) (mkState n w1)
                = (Raise e, mkState n (tick (EvWrite target payload) w1))).
  { apply io_run. by rewrite file_write_eq, Hf1. }
  unfold try_finally. erewrite bind_Raise by exact Hwr.
  unfold file_close, bind, raise, io, zoom. cbn [env self].
  rewrite syscall_eq.
  destruct (hd None (faults (tick (EvWrite target payload) w1))) as [e'|]; cbn.
  - exists e'. split_and!; try done. apply lookup_insert_eq.
  - exists e. split_and!; try done. apply lookup_insert_eq.
Qed.

End MeshFacts.

Section Operations.
Context `{SketchLib}.

(** ** Construction *)

Lemma check_address_cases a w :
  check_address a w = (Ok tt, w) ∧
    (∀ host port, a = Some (host, port) → host ≠ "" ∧ (0 ≤ port ≤ 65535)%Z)
  ∨ ∃ msg, check_address a w = (Raise (ValueError msg), w).
Proof.
  destruct a as [[host port]|]; cbn.
  - destruct (String.eqb_spec host ""); [right; eauto|].
    destruct (Z.leb_spec 0 port); cbn; [|right; eauto].
    destruct (Z.leb_spec port 65535); cbn; [|right; eauto].
    left. split; [done|]. intros ? ? [= <- <-]. split; [done|lia].
  - left. split; [done|]. discriminate.
Qed.

Lemma check_sketch_file_cases sf w :
  match check_sketch_file sf w with
  | (Ok names, _) =>
      match sf with
      | Some target => names = (Some (target_dir target), Some (target_base target))
      | None => names = (None, None)
      end
  | (Raise e, _) => is_ValueError e = true
  | (OutOfFuel, _) => False
  end.
Proof.
  destruct sf as [path|]; [|done].
  unfold check_sketch_file, target_dir, target_base.
  destruct (os_path_split path) as [dirname basename]. cbn [fst snd].
  destruct (String.eqb basename ""); [done|].
  unfold bind, os_path_isdir, os_path_exists, os_access_W_OK, emit, modify, gets, ret, raise.
  cbn.
  destruct (bool_decide (path ∈ dirs w)); [done|].
  destruct (path_exists _ path); cbn.
  - destruct (bool_decide (path ∈ writable w)); cbn; [|done].
    by destruct (bool_decide (_ ∈ writable w)).
  - by destruct (bool_decide (_ ∈ writable w)).
Qed.

(** What a successful construction returns. *)
Lemma init_Ok es ec sa ca sf d a w n w' :
  __init__ es ec sa ca sf d a w = (Ok n, w') →
  enable_server n = es ∧ enable_client n = ec ∧
  server_address n = sa ∧ client_addresses n = ca ∧
  sketch_file n = sf ∧ durability_level n = d ∧
  atomicity n = py_or a (negb (bool_decide (d = VOLATILE))) ∧
  is_dirty n = false ∧ sketch n = hll_sketch_new LOG_K ∧
  node_ok n ∧
  (∀ host port, sa = Some (host, port) → host ≠ "" ∧ (0 ≤ port ≤ 65535)%Z) ∧
  (d = VOLATILE → a ≠ Some true) ∧
  (d ≠ VOLATILE → is_Some sf).
Proof.
  unfold __init__. intros Hrun.
  apply bind_Ok_inv in Hrun as ([] & w1 & Haddr & Hrun).
  apply bind_Ok_inv in Hrun as ([] & w2 & Hrule & Hrun).
  apply bind_Ok_inv in Hrun as (names & w3 & Hfile & Hrun).
  injection Hrun as <- <-. cbn.
  pose proof (check_sketch_file_cases sf w2) as Hnames. rewrite Hfile in Hnames.
  destruct (check_address_cases sa w) as [[_ Hsa]|[msg Hbad]];
    [|rewrite Hbad in Haddr; discriminate Haddr].
  split_and!; try done.
  - unfold node_ok; cbn. destruct sf as [target|]; subst names; cbn; [done|].
    split; [|done].
    destruct (bool_decide_reflect (d = VOLATILE)); [done|]. discriminate Hrule.
  - intros -> ->. cbn in Hrule. discriminate Hrule.
  - intros Hd. rewrite bool_decide_eq_false_2 in Hrule by done.
    destruct sf; [eauto|discriminate Hrule].
Qed.

(** The checks of lines 62-77 come before any probe of the file system. *)
Lemma init_rejects es ec sa ca sf d a w :
  (d = VOLATILE ∧ a = Some true) ∨ (d ≠ VOLATILE ∧ sf = None) →
  ∃ msg, __init__ es ec sa ca sf d a w = (Raise (ValueError msg), w).
Proof.
  intros Hbad. unfold __init__.
  destruct (check_address_cases sa w) as [[Haddr _]|[msg Haddr]].
  2:{ exists msg. by erewrite bind_Raise by exact Haddr. }
  erewrite bind_Ok by exact Haddr.
  destruct Hbad as [[-> ->]|[Hd ->]].
  - eexists. erewrite bind_Raise by reflexivity. reflexivity.
  - rewrite !bool_decide_eq_false_2 by done.
    eexists. erewrite bind_Raise by reflexivity. reflexivity.
Qed.

Lemma parse_args_check_rejects sf d a :
  (d = VOLATILE ∧ a = Some true) ∨ (d ≠ VOLATILE ∧ sf = None) →
  parse_args_check (mkNamespace sf d a) = inl (SystemExit 2).
Proof.
  unfold parse_args_check. cbn. intros [[-> ->]|[Hd ->]]; [done|].
  by rewrite !bool_decide_eq_false_2 by done.
Qed.

(** Under VOLATILE durability the presence of a sketch file is not
    examined by the rule: the outcome is that of the file checks. *)
Lemma init_volatile es ec sa ca sf a w :
  a ≠ Some true →
  (∀ host port, sa = Some (host, port) → host ≠ "" ∧ (0 ≤ port ≤ 65535)%Z) →
  match check_sketch_file sf w with
  | (Ok names, w') =>
      ∃ n, __init__ es ec sa ca sf VOLATILE a w = (Ok n, w') ∧
           sketch_file n = sf ∧ durability_level n = VOLATILE ∧ atomicity n = false
  | (Raise e, w') => __init__ es ec sa ca sf VOLATILE a w = (Raise e, w')
  | (OutOfFuel, _) => False
  end.
Proof.
  intros Ha Hsa. unfold __init__.
  destruct (check_address_cases sa w) as [[Haddr _]|[msg Haddr]].
  2:{ exfalso. destruct sa as [[host port]|]; [|discriminate Haddr].
      destruct (Hsa host port eq_refl) as [Hh Hp]. cbn in Haddr.
      destruct (String.eqb_spec host ""); [done|].
      rewrite (proj2 (Z.leb_le 0 port)), (proj2 (Z.leb_le port 65535)) in Haddr by lia.
      discriminate Haddr. }
  erewrite bind_Ok by exact Haddr.
  assert (Hpy : py_or a (negb (bool_decide (VOLATILE = VOLATILE))) = false).
  { by destruct a as [[]|]. }
  rewrite Hpy. cbn [bool_decide decide_rel]. erewrite bind_Ok by reflexivity.
  pose proof (check_sketch_file_cases sf w) as Hc.
  destruct (check_sketch_file sf w) as [[names|e|] w'] eqn:Hfile; [| |done].
  - erewrite bind_Ok by exact Hfile. eexists. split; [reflexivity|]. done.
  - by erewrite bind_Raise by exact Hfile.
Qed.


(** C6 (amended). Validation rejects, before any side effect (the
    environment is untouched, no probe of the file system has been made),
    every configuration with VOLATILE durability and atomicity on, and
    every configuration with another durability and no sketch file; the
    command line does the same.  A VOLATILE configuration that names a
    sketch file, atomicity not being on, is not rejected for that: the
    outcome is the one of the checks of the path. *)
Theorem validation_rejects_bad_combinations es ec sa ca sf d a w :
  ((d = VOLATILE ∧ a = Some true) ∨ (d ≠ VOLATILE ∧ sf = None) →
   (∃ msg, __init__ es ec sa ca sf d a w = (Raise (ValueError msg), w)) ∧
   parse_args_check (mkNamespace sf d a) = inl (SystemExit 2)) ∧
  (d = VOLATILE → a ≠ Some true →
   (∀ host port, sa = Some (host, port) → host ≠ "" ∧ (0 ≤ port ≤ 65535)%Z) →
   parse_args_check (mkNamespace sf d a) = inr (mkNamespace sf d (Some false)) ∧
   match check_sketch_file sf w with
   | (Ok names, w') =>
       ∃ n, __init__ es ec sa ca sf d a w = (Ok n, w') ∧
            sketch_file n = sf ∧ durability_level n = VOLATILE ∧ atomicity n = false
   | (Raise e, w') => __init__ es ec sa ca sf d a w = (Raise e, w')
   | (OutOfFuel, _) => False
   end).
Proof.
  split.
  - intros Hbad. split; [by apply init_rejects | by apply parse_args_check_rejects].
  - intros -> Ha Hsa. split; [|by apply init_volatile].
    unfold parse_args_check. cbn. by destruct a as [[]|].
Qed.

(** ** Updating and merging *)

(** [committer_work] assigns nothing but [is_dirty]. *)
Lemma committer_work_self s :
  self (committer_work s).2 = self s ∨
  self (committer_work s).2 = with_is_dirty false (self s).
Proof.
  rewrite committer_work_eq. cbn zeta.
  destruct (bool_decide _); [by left|].
  destruct (sketch_file (self s)) as [target|]; [|by left].
  destruct (is_dirty (self s)); [|by left].
  destruct (atomicity (self s)).
  - destruct (atomic_write_same_self (sketch_file_dirname (self s))
                (sketch_file_basename (self s)) target
                (serialize_compact (sketch (self s))) s I) as [_ Hs].
    destruct (atomic_write _ _ _ _ s) as [[[]|e|] s1]; cbn in *;
      unfold same_self in Hs; rewrite Hs; auto.
  - destruct (direct_write_same_self target (serialize_compact (sketch (self s))) s I)
      as [_ Hs].
    destruct (direct_write _ _ s) as [[[]|e|] s1]; cbn in *;
      unfold same_self in Hs; rewrite Hs; auto.
Qed.

Lemma committer_work_sketch s : sketch (self (committer_work s).2) = sketch (self s).
Proof. by destruct (committer_work_self s) as [-> | ->]. Qed.

Lemma update_sketch_eq d s :
  update_sketch d s =
  let s1 := mkState (with_is_dirty true
                       (with_sketch (hll_sketch_update (sketch (self s)) d) (self s)))
                    (env s) in
  if bool_decide (durability_level (self s) = STRICT) then
    match committer_work s1 with
    | (Ok _, s2) => (Ok tt, s2)
    | (Raise e, s2) => (Raise e, s2)
    | (OutOfFuel, s2) => (OutOfFuel, s2)
    end
  else (Ok tt, s1).
Proof.
  unfold update_sketch. do 4 (erewrite bind_Ok by reflexivity). cbn zeta.
  change (durability_level (self _)) with (durability_level (self s)).
  destruct (bool_decide _); [|done].
  match goal with
  | |- bind committer_work _ ?x = _ =>
      change x with (mkState (with_is_dirty true
                       (with_sketch (hll_sketch_update (sketch (self s)) d) (self s)))
                    (env s));
      unfold bind at 1
  end.
  match goal with
  | |- context [committer_work ?x] => by destruct (committer_work x) as [[b|e|] s2]
  end.
Qed.

(** C3. [update_sketch] folds the datum (an integer, a float or a string)
    into the sketch and sets the dirty flag; with STRICT durability it then
    runs the committer's flush on that state before it returns, and
    returns normally only when the flush succeeded. *)
Theorem update_sketch_folds_marks_and_flushes (d : datum) (s : State) :
  node_ok (self s) →
  let folded := hll_sketch_update (sketch (self s)) d in
  let s1 := mkState (with_is_dirty true (with_sketch folded (self s))) (env s) in
  (durability_level (self s) ≠ STRICT → update_sketch d s = (Ok tt, s1)) ∧
  (durability_level (self s) = STRICT →
   ∃ target, sketch_file (self s) = Some target ∧
     match committer_work s1 with
     | (Ok flushed, s2) =>
         update_sketch d s = (Ok tt, s2) ∧ flushed = true ∧
         sketch (self s2) = folded ∧ is_dirty (self s2) = false ∧
         files (env s2) = <[target := serialize_compact folded]> (files (env s))
     | (Raise e, s2) =>
         update_sketch d s = (Raise e, s2) ∧
         sketch (self s2) = folded ∧ is_dirty (self s2) = true
     | (OutOfFuel, _) => False
     end).
Proof.
  intros Hok folded s1. rewrite update_sketch_eq. cbn zeta. fold folded. fold s1. split.
  - intros Hd. by rewrite bool_decide_eq_false_2.
  - intros Hd. rewrite bool_decide_eq_true_2 by done.
    assert (Hv : durability_level (self s) ≠ VOLATILE) by (by rewrite Hd).
    destruct (node_ok_target _ Hok Hv) as [target Htarget].
    destruct (node_ok_names _ _ Hok Htarget) as [Hdir Hbase].
    pose proof (committer_work_dirty s1 target Hv Htarget Hdir Hbase eq_refl) as Hcases.
    exists target. split; [done|]. cbn zeta in Hcases.
    destruct (committer_work s1) as [[flushed|e|] s2]; [| |done].
    + destruct Hcases as (-> & Hself & Hfiles & _). rewrite Hself. done.
    + destruct Hcases as [Hself Hdirty]. rewrite Hself. done.
Qed.

Lemma imerge_eq other s :
  imerge other s =
  let before := sketch (self s) in
  let merged := merge before other in
  let dirty := is_dirty (self s)
               || bool_decide (serialize_compact merged ≠ serialize_compact before) in
  let s1 := mkState (with_sketch merged (with_is_dirty dirty (self s)))
              (set_trace (trace (env s) ++
                          [EvLog DEBUG ("The set has ~" +:+ estimate_repr before
                                        +:+ " elements")]) (env s)) in
  let finish := λ s2 : State,
    (Ok tt, mkState (self s2)
              (set_trace (trace (env s2) ++
                          [EvLog DEBUG ("The set has ~" +:+ estimate_repr (sketch (self s2))
                                        +:+ " elements")]) (env s2))) in
  if bool_decide (durability_level (self s) = STRICT) then
    match committer_work s1 with
    | (Ok _, s2) => finish s2
    | (Raise e, s2) => (Raise e, s2)
    | (OutOfFuel, s2) => (OutOfFuel, s2)
    end
  else finish s1.
Proof.
  unfold imerge. do 6 (erewrite bind_Ok by reflexivity). cbn zeta.
  change (durability_level (self _)) with (durability_level (self s)).
  destruct (bool_decide _).
  - match goal with
    | |- bind (bind committer_work _) _ ?x = _ =>
        change x with (mkState (with_sketch (merge (sketch (self s)) other)
                         (with_is_dirty
                            (is_dirty (self s)
                             || bool_decide (serialize_compact (merge (sketch (self s)) other)
                                             ≠ serialize_compact (sketch (self s))))
                            (self s)))
                (set_trace (trace (env s) ++
                            [EvLog DEBUG ("The set has ~" +:+ estimate_repr (sketch (self s))
                                          +:+ " elements")]) (env s)));
        unfold bind at 1 2
    end.
    match goal with
    | |- context [committer_work ?x] => by destruct (committer_work x) as [[b|e|] s2]
    end.
  - reflexivity.
Qed.

(** C8. When the bytes do not deserialize, [push] raises the error of the
    deserialization and nothing else happens: the sketch, the dirty flag
    and the environment are as before, and the merge is not reached. *)
Theorem push_malformed_leaves_state (other_serialized : bytes) (s : State) :
  hll_sketch_deserialize other_serialized = None →
  push other_serialized s = (Raise (SketchError "deserialize"), s).
Proof. intros Hb. unfold push, deserialize, bind. by rewrite Hb. Qed.

(** C2. [imerge] replaces the local sketch with the union of the local
    and the inbound sketch, and assigns to the dirty flag the old flag or-ed
    with the inequality of the compact serializations of the union and of
    the old local sketch.  The comparison is between the serialized bytes:
    a union that differs in memory but serializes to the same bytes leaves
    a clean flag clean.  With STRICT durability the flush that follows runs
    on the state so assigned. *)
Theorem imerge_union_and_dirty (other : hll_sketch) (s : State) :
  let local := sketch (self s) in
  let union :=
    get_result (hll_union_update (hll_union_update (hll_union_new LOG_K) local) other) in
  let dirty :=
    is_dirty (self s)
    || bool_decide (serialize_compact union ≠ serialize_compact local) in
  let assigned := with_sketch union (with_is_dirty dirty (self s)) in
  sketch (self (imerge other s).2) = union ∧
  (durability_level (self s) ≠ STRICT →
   (imerge other s).1 = Ok tt ∧
   self (imerge other s).2 = assigned ∧
   is_dirty (self (imerge other s).2) = dirty ∧
   (is_dirty (self s) = false → serialize_compact union = serialize_compact local →
    is_dirty (self (imerge other s).2) = false)) ∧
  (durability_level (self s) = STRICT →
   ∃ w1, trace_ext no_file (env s) w1 ∧ files w1 = files (env s) ∧
     match committer_work (mkState assigned w1) with
     | (Ok _, s2) => (imerge other s).1 = Ok tt ∧ self (imerge other s).2 = self s2
     | (Raise e, s2) => imerge other s = (Raise e, s2)
     | (OutOfFuel, s2) => imerge other s = (OutOfFuel, s2)
     end).
Proof.
  intros local union dirty assigned. rewrite imerge_eq. cbn zeta.
  change (merge (sketch (self s)) other) with union.
  fold local. fold dirty. fold assigned.
  set (w1 := set_trace _ (env s)).
  destruct (bool_decide_reflect (durability_level (self s) = STRICT)) as [Hd|Hd].
  - split_and!; [|done|].
    + pose proof (committer_work_sketch (mkState assigned w1)) as Hsk.
      destruct (committer_work _) as [[b|e|] s2]; cbn in *; by rewrite Hsk.
    + intros _. exists w1. split_and!; [|done|].
      * eexists. split; [reflexivity|]. by repeat constructor.
      * by destruct (committer_work _) as [[b|e|] s2].
  - split_and!; [done| |done]. intros _. cbn. split_and!; try done.
    intros Hclean Heq. unfold dirty. rewrite Hclean. cbn.
    by apply bool_decide_eq_false_2; intros Hne.
Qed.

End Operations.

(** * Addresses and the configuration *)

(** Every address the command line produces satisfies the invariants. *)
Lemma parse_address_valid py_int address_str host port :
  parse_address py_int address_str = inr (host, port) →
  host ≠ "" ∧ (0 ≤ port ≤ 65535)%Z.
Proof.
  unfold parse_address.
  destruct (rpartition ":" address_str) as [[h sep] port_str].
  destruct (String.eqb_spec (strip ["["%char; "]"%char] h) ""); [discriminate|].
  destruct (py_int port_str) as [p|]; [|discriminate].
  destruct (Z.leb_spec 0 p); cbn; [|discriminate].
  destruct (Z.leb_spec p 65535); cbn; [|discriminate].
  intros [= <- <-]. split; [done|lia].
Qed.

Lemma cut_after_last_None c s : cut_after_last c s = None ↔ has_char c s = false.
Proof.
  induction s as [|a s IH]; cbn; [done|].
  destruct (cut_after_last c s) as [[h t]|].
  - split; [done|]. intros Hf. apply orb_false_elim in Hf as [_ Hf].
    by apply IH in Hf.
  - destruct (Ascii.eqb a c); [done|]. cbn. split; [intros _; by apply IH | done].
Qed.

Lemma append_cons (x : ascii) (a b : string) : String x a +:+ b = String x (a +:+ b).
Proof. reflexivity. Qed.

Lemma append_nil_l (b : string) : "" +:+ b = b.
Proof. reflexivity. Qed.

Lemma append_assoc3 (a b c : string) : (a +:+ b) +:+ c = a +:+ (b +:+ c).
Proof.
  induction a as [|x a IH]; [done|]. by rewrite !append_cons, IH.
Qed.

Lemma cut_after_last_Some c s h t :
  cut_after_last c s = Some (h, t) →
  ∃ h', h = h' +:+ String c "" ∧ s = h +:+ t ∧ has_char c t = false.
Proof.
  revert h t. induction s as [|a s IH]; intros h t; cbn [cut_after_last]; [done|].
  destruct (cut_after_last c s) as [[h0 t0]|] eqn:Hcut.
  - destruct (IH h0 t0 eq_refl) as (h1 & -> & -> & Ht0).
    intros [= <- <-]. exists (String a h1). by rewrite !append_cons.
  - apply cut_after_last_None in Hcut.
    destruct (Ascii.eqb_spec a c) as [->|Hne]; [|done].
    intros [= <- <-]. exists "". by rewrite !append_nil_l, append_cons, append_nil_l.
Qed.

Lemma cut_after_last_at c h t :
  has_char c t = false →
  cut_after_last c (h +:+ String c t) = Some (h +:+ String c "", t).
Proof.
  intros Ht. induction h as [|a h IH].
  - rewrite !append_nil_l. cbn [cut_after_last].
    rewrite (proj2 (cut_after_last_None c t) Ht). by rewrite Ascii.eqb_refl.
  - rewrite !append_cons. cbn [cut_after_last]. by rewrite IH.
Qed.

Lemma substring_append_one h c :
  String.substring 0 (String.length (h +:+ String c "") - 1) (h +:+ String c "") = h.
Proof.
  assert (Hlen : ∀ h, String.length (h +:+ String c "") = S (String.length h)).
  { clear. intros h. induction h as [|a h IH]; [done|].
    rewrite append_cons. cbn [String.length]. by rewrite IH. }
  rewrite Hlen. cbn [Nat.sub]. rewrite Nat.sub_0_r.
  induction h as [|a h IH]; [done|].
  rewrite append_cons. cbn [String.length String.substring]. by rewrite IH.
Qed.

(** [s.rpartition(sep)] splits at the last separator. *)
Lemma rpartition_spec sep s :
  match rpartition sep s with
  | (h, m, t) =>
      (m = String sep "" ∧ s = h +:+ String sep t ∧ has_char sep t = false)
      ∨ (h = "" ∧ m = "" ∧ t = s ∧ has_char sep s = false)
  end.
Proof.
  unfold rpartition. destruct (cut_after_last sep s) as [[h t]|] eqn:Hcut.
  - apply cut_after_last_Some in Hcut as (h' & -> & -> & Ht).
    rewrite substring_append_one. left. split_and!; [done| |done].
    by rewrite append_assoc3.
  - apply cut_after_last_None in Hcut. by right.
Qed.

Lemma rpartition_at sep h t :
  has_char sep t = false →
  rpartition sep (h +:+ String sep t) = (h, String sep "", t).
Proof.
  intros Ht. unfold rpartition. rewrite (cut_after_last_at sep h t Ht).
  by rewrite substring_append_one.
Qed.

(** X7: [parse_address] accepts exactly the strings [h:t] in which [t]
    has no colon, [int(t)] is a number from 0 to 65535, and [h] stripped
    of square brackets is not empty; the result is the stripped host and
    the number. *)
Theorem parse_address_accepts (py_int : string → option Z) (address_str host : string)
    (port : Z) :
  parse_address py_int address_str = inr (host, port) ↔
  ∃ h t,
    address_str = h +:+ ":" +:+ t ∧ has_char ":" t = false ∧
    host = strip ["["%char; "]"%char] h ∧ host ≠ "" ∧
    py_int t = Some port ∧ (0 ≤ port ≤ 65535)%Z.
Proof.
  split.
  - unfold parse_address. pose proof (rpartition_spec ":" address_str) as Hp.
    destruct (rpartition ":" address_str) as [[h m] t].
    destruct (String.eqb_spec (strip ["["%char; "]"%char] h) "") as [|Hhost]; [discriminate|].
    destruct (py_int t) as [p|] eqn:Hint; [|discriminate].
    destruct (Z.leb_spec 0 p); cbn; [|discriminate].
    destruct (Z.leb_spec p 65535); cbn; [|discriminate].
    intros [= <- <-].
    destruct Hp as [(-> & -> & Ht) | (-> & _)]; [|done].
    exists h, t. split_and!; try done; lia.
  - intros (h & t & -> & Ht & -> & Hhost & Hint & Hport).
    unfold parse_address. change (h +:+ ":" +:+ t) with (h +:+ String ":" t).
    rewrite (rpartition_at ":" h t Ht).
    destruct (String.eqb_spec (strip ["["%char; "]"%char] h) ""); [done|].
    rewrite Hint.
    rewrite (proj2 (Z.leb_le 0 port)), (proj2 (Z.leb_le port 65535)) by lia. done.
Qed.

(** X8: [validate_sketch_file] of the command line and the checks of
    the constructor agree: on every path and every file system they make
    the same calls, accept the same paths, and reject with the same
    message ([ArgumentTypeError] in the one, [ValueError] in the other).
    On acceptance the constructor keeps the directory and the base name of
    the path. *)
Theorem validate_sketch_file_agrees (path : string) (w : World) :
  match validate_sketch_file path w, check_sketch_file (Some path) w with
  | (Ok p, w1), (Ok names, w2) =>
      p = path ∧ w1 = w2 ∧ names = (Some (target_dir path), Some (target_base path))
  | (Raise e1, w1), (Raise e2, w2) =>
      w1 = w2 ∧ ∃ msg, e1 = ArgumentTypeError msg ∧ e2 = ValueError msg
  | _, _ => False
  end.
Proof.
  unfold validate_sketch_file, check_sketch_file, target_dir, target_base.
  destruct (os_path_split path) as [dirname basename]. cbn [fst snd].
  destruct (String.eqb basename ""); [cbn; eauto|].
  unfold bind, os_path_isdir, os_path_exists, os_access_W_OK, emit, modify, gets, ret, raise.
  cbn.
  destruct (bool_decide (path ∈ dirs w)); [cbn; eauto|].
  destruct (path_exists _ path); cbn.
  - destruct (bool_decide (path ∈ writable w)); cbn; [|eauto].
    destruct (bool_decide (_ ∈ writable w)); cbn; eauto.
  - destruct (bool_decide (_ ∈ writable w)); cbn; eauto.
Qed.

Section Config.
Context `{SketchLib}.

Ltac cfg_leaf :=
  lazymatch goal with
  | |- steps _ _ (attr _) => unfold attr; apply steps_gets, same_config_refl
  | |- steps _ _ (assign _) => apply steps_assign_same_config; intros ?; reflexivity
  | |- steps _ _ (io _) => apply steps_io_same_config
  | |- _ => idtac
  end.
Ltac cfg := steps_go same_config_refl same_config_trans ltac:(fun _ => cfg_leaf).

Lemma committer_work_same_config : steps any same_config committer_work.
Proof.
  intros s _. split; [done|]. unfold same_config.
  by destruct (committer_work_self s) as [-> | ->].
Qed.

Lemma deserialize_same_config b : steps any same_config (deserialize b).
Proof. unfold deserialize. cfg. Qed.

Lemma reader_work_same_config : steps any same_config reader_work.
Proof. unfold reader_work. cfg. apply deserialize_same_config. Qed.

Lemma update_sketch_same_config d : steps any same_config (update_sketch d).
Proof. unfold update_sketch. cfg. apply committer_work_same_config. Qed.

Lemma imerge_same_config other : steps any same_config (imerge other).
Proof. unfold imerge. cfg. apply committer_work_same_config. Qed.

Lemma push_same_config b : steps any same_config (push b).
Proof. unfold push. cfg; [apply deserialize_same_config | apply imerge_same_config]. Qed.

Lemma client_work_same_config fuel addrs : steps any same_config (client_work fuel addrs).
Proof.
  unfold client_work, try_anti_entropy, anti_entropy, push_pull.
  cfg; [apply deserialize_same_config | apply imerge_same_config].
Qed.

Lemma signal_handler_same_config signum : steps any same_config (signal_handler signum).
Proof. unfold signal_handler. cfg. apply committer_work_same_config. Qed.

Lemma start_handler_same_config : steps any same_config start_handler.
Proof.
  unfold start_handler, start_server, start_client, start_committer.
  cfg. apply reader_work_same_config.
Qed.

Lemma wait_for_server_same_config fuel : steps any same_config (wait_for_server fuel).
Proof. induction fuel as [|fuel IH]; cbn; cfg. apply IH. Qed.

Lemma stop_handler_same_config fuel : steps any same_config (stop_handler fuel).
Proof.
  unfold stop_handler, stop_server, stop_client, stop_committer.
  cfg; [apply wait_for_server_same_config | apply committer_work_same_config].
Qed.

(** The invariant of the constructor depends on the configuration only,
    so every method keeps it. *)
Lemma node_ok_config n n' : config n' = config n → node_ok n → node_ok n'.
Proof.
  unfold config, node_ok. intros [= Hsf Hd Ha Hdir Hbase]. by rewrite Hsf, Hd, Hdir, Hbase.
Qed.

Lemma node_ok_kept {A} (m : M State A) s :
  steps any same_config m → node_ok (self s) → node_ok (self (m s).2).
Proof. intros Hm. destruct (Hm s I) as [_ Hc]. by apply node_ok_config. Qed.
End Config.

(** * A node of VOLATILE durability *)

Section Volatile.
Context `{SketchLib}.
Variable sf : option string.
Variable P : event → Prop.
Hypothesis HP : ∀ ev, is_file_io ev = false → P ev.
Hypothesis HPread :
  ∀ p, sf = Some p → P (EvOpenRead p) ∧ P (EvRead p) ∧ P (EvClose p).

Local Abbreviation quiet := (steps (on_self (volatile_with sf)) (emits P)).

Lemma committer_work_volatile : quiet committer_work.
Proof.
  intros s [Hv Hsf]. rewrite committer_work_eq. cbn zeta.
  rewrite bool_decide_eq_true_2 by done. split; [done | apply emits_refl].
Qed.

Ltac vol_leaf :=
  lazymatch goal with
  | |- steps _ _ (attr _) => unfold attr; apply steps_gets, emits_refl
  | |- steps _ _ (assign _) => apply steps_assign_emits; intros ? ?; assumption
  | |- steps _ _ (io (logging _ _)) =>
      apply steps_io_emits, steps_logging, HP; reflexivity
  | |- steps _ _ (io (time_sleep _)) =>
      apply steps_io_emits, steps_time_sleep, HP; reflexivity
  | |- steps _ _ (io (signal_signal _ _)) =>
      apply steps_io_emits, steps_signal_signal, HP; reflexivity
  | |- steps _ _ (io (signal_getsignal _)) =>
      apply steps_io_emits, steps_signal_getsignal
  | |- steps _ _ (io (os_kill_self _)) =>
      apply steps_io_emits, steps_os_kill_self, HP; reflexivity
  | |- steps _ _ (io (thread_start _)) =>
      apply steps_io_emits, steps_thread_start, HP; reflexivity
  | |- steps _ _ (io (emit _)) => apply steps_io_emits, steps_emit, HP; reflexivity
  | |- steps _ _ (io (wrapper _ _ _)) => apply steps_io_emits, steps_wrapper, HP
  | |- steps _ _ (io (random_sample _ _)) => apply steps_io_emits, steps_random_sample
  | |- steps _ _ committer_work => apply committer_work_volatile
  | |- _ => idtac
  end.

Ltac vol := steps_go (emits_refl P) (emits_trans P) ltac:(fun _ => vol_leaf).

Lemma deserialize_volatile b : quiet (deserialize b).
Proof. unfold deserialize. vol. Qed.

Lemma reader_work_volatile : quiet reader_work.
Proof.
  intros s Hs. pose proof Hs as [Hv Hsf]. unfold reader_work.
  erewrite bind_Ok by reflexivity. cbn beta.
  destruct (sketch_file (self s)) as [path|]; [|split; [done | apply emits_refl]].
  destruct (HPread path (eq_sym Hsf)) as (Hopen & Hread & Hclose).
  revert s Hs Hv Hsf.
  assert (Hq : quiet (
      self_serialized <-
        try_except
          (io (open_rb path) ;;;
           try_finally (b <- io (file_read path) ;; ret (Some b))
                       (io (file_close path)))
          is_FileNotFoundError
          (λ _, ret None) ;;
      match self_serialized with
      | None => ret false
      | Some b =>
          sk <- deserialize b ;;
          assign (with_sketch sk) ;;;
          ret true
      end)).
  { vol; try apply deserialize_volatile.
    - apply steps_io_emits. unfold open_rb. world_steps.
    - apply steps_io_emits. unfold file_read. world_steps.
    - apply steps_io_emits. unfold file_close. world_steps. }
  intros s Hs _ _. by apply Hq.
Qed.

Lemma update_sketch_volatile d : quiet (update_sketch d).
Proof. unfold update_sketch. vol. Qed.

Lemma imerge_volatile other : quiet (imerge other).
Proof. unfold imerge. vol. Qed.

Lemma push_volatile b : quiet (push b).
Proof. unfold push. vol; [apply deserialize_volatile | apply imerge_volatile]. Qed.

Lemma pull_volatile : quiet pull.
Proof. unfold pull. vol. Qed.

Lemma try_anti_entropy_volatile fuel host port : quiet (try_anti_entropy fuel host port).
Proof.
  unfold try_anti_entropy, anti_entropy, push_pull.
  vol; [apply deserialize_volatile | apply imerge_volatile].
Qed.

Lemma client_work_volatile fuel addrs : quiet (client_work fuel addrs).
Proof. unfold client_work. vol. apply try_anti_entropy_volatile. Qed.

Lemma client_work_periodic_volatile fuel addrs : quiet (client_work_periodic fuel addrs).
Proof.
  induction fuel as [|fuel IH]; cbn; vol; [apply client_work_volatile | apply IH].
Qed.

Lemma committer_work_periodic_volatile fuel : quiet (committer_work_periodic fuel).
Proof. induction fuel as [|fuel IH]; cbn; vol. apply IH. Qed.

Lemma signal_handler_volatile signum : quiet (signal_handler signum).
Proof. unfold signal_handler. vol. Qed.

Lemma wait_for_server_volatile fuel : quiet (wait_for_server fuel).
Proof. induction fuel as [|fuel IH]; cbn; vol. apply IH. Qed.

Lemma stop_handler_volatile fuel : quiet (stop_handler fuel).
Proof.
  unfold stop_handler, stop_server, stop_client, stop_committer.
  vol. apply wait_for_server_volatile.
Qed.

Lemma start_handler_volatile : quiet start_handler.
Proof.
  unfold start_handler, start_server, start_client, start_committer.
  vol. apply reader_work_volatile.
Qed.
End Volatile.

Section VolatileNode.
Context `{SketchLib}.

(** C7 (amended). On a node of VOLATILE durability the committer (called
    directly, by the periodic loop, by the signal handler or on stop),
    [update_sketch], the merge, the RPC endpoints and the gossip client
    perform no file-system operation at all.  The one-shot load at start
    performs none when no sketch file is configured; when one is
    configured it opens, reads and closes that file and performs no other
    file-system operation. *)
Theorem volatile_node_file_io (s : State) :
  durability_level (self s) = VOLATILE →
  (no_file_io committer_work s ∧
   (∀ fuel, no_file_io (committer_work_periodic fuel) s) ∧
   (∀ signum, no_file_io (signal_handler signum) s) ∧
   (∀ fuel, no_file_io (stop_handler fuel) s) ∧
   (∀ d, no_file_io (update_sketch d) s) ∧
   (∀ other, no_file_io (imerge other) s) ∧
   (∀ b, no_file_io (push b) s) ∧
   no_file_io pull s ∧
   (∀ fuel addrs, no_file_io (client_work fuel addrs) s)) ∧
  match sketch_file (self s) with
  | None => no_file_io reader_work s ∧ no_file_io start_handler s
  | Some p =>
      emits (no_file_but_read p) s (reader_work s).2 ∧
      emits (no_file_but_read p) s (start_handler s).2
  end.
Proof.
  intros Hv.
  assert (Hs : on_self (volatile_with (sketch_file (self s))) s) by done.
  assert (Hid : ∀ ev, is_file_io ev = false → no_file ev) by done.
  split; [split_and!|].
  - apply (committer_work_volatile _ no_file s Hs).
  - intros fuel. apply (committer_work_periodic_volatile _ no_file Hid fuel s Hs).
  - intros signum. apply (signal_handler_volatile _ no_file Hid signum s Hs).
  - intros fuel. apply (stop_handler_volatile _ no_file Hid fuel s Hs).
  - intros d. apply (update_sketch_volatile _ no_file d s Hs).
  - intros other. apply (imerge_volatile _ no_file Hid other s Hs).
  - intros b. apply (push_volatile _ no_file Hid b s Hs).
  - apply (pull_volatile _ no_file s Hs).
  - intros fuel addrs. apply (client_work_volatile _ no_file Hid fuel addrs s Hs).
  - destruct (sketch_file (self s)) as [p|] eqn:Hsf.
    + assert (Hl : ∀ ev, is_file_io ev = false → no_file_but_read p ev).
      { intros ev Hev. by left. }
      assert (Hr : ∀ q, Some p = Some q →
                no_file_but_read p (EvOpenRead q) ∧ no_file_but_read p (EvRead q)
                ∧ no_file_but_read p (EvClose q)).
      { intros q [= <-]. unfold no_file_but_read.
        split_and!; [by right; left | by right; right; left | by right; right; right]. }
      split.
      * apply (reader_work_volatile _ _ Hr s Hs).
      * apply (start_handler_volatile _ _ Hl Hr s Hs).
    + assert (Hr : ∀ q, None = Some q →
                no_file (EvOpenRead q) ∧ no_file (EvRead q) ∧ no_file (EvClose q))
        by discriminate.
      split.
      * apply (reader_work_volatile _ _ Hr s Hs).
      * apply (start_handler_volatile _ _ Hid Hr s Hs).
Qed.
End VolatileNode.

(** * The gossip client *)

Section Gossip.
Context `{SketchLib}.

Lemma committer_work_total : total committer_work.
Proof.
  intros s. rewrite committer_work_eq. cbn zeta.
  destruct (bool_decide _); [done|].
  destruct (sketch_file (self s)) as [target|]; [|done].
  destruct (is_dirty (self s)); [|done].
  destruct (atomicity (self s)).
  - pose proof (atomic_write_total (sketch_file_dirname (self s))
                  (sketch_file_basename (self s)) target
                  (serialize_compact (sketch (self s))) s) as Ht.
    by destruct (atomic_write _ _ _ _ s) as [[[]|e|] s1].
  - pose proof (direct_write_total target (serialize_compact (sketch (self s))) s) as Ht.
    by destruct (direct_write _ _ s) as [[[]|e|] s1].
Qed.

Lemma deserialize_total b : total (deserialize b).
Proof. unfold deserialize. mesh_total. Qed.

Lemma imerge_total other : total (imerge other).
Proof. unfold imerge. mesh_total; apply committer_work_total. Qed.

Lemma client_call_total {A} a (m : method A) : total (client_call a m).
Proof.
  destruct m; cbn; [apply total_syscall|].
  apply total_bind; [apply total_syscall|]. intros _ w. by destruct (pulled w).
Qed.

Lemma best_effort_total {A} h (m : method A) : total (_invoke_best_effort_broadcast h m).
Proof.
  unfold _invoke_best_effort_broadcast, _invoke, transport_isOpen, transport_open,
    transport_close.
  mesh_total; apply client_call_total.
Qed.

Lemma anti_entropy_total fuel host port : total (anti_entropy fuel host port).
Proof.
  unfold anti_entropy, push_pull, ThriftHelper_init, wrapper. cbn [_reliable].
  mesh_total; first [apply best_effort_total | apply deserialize_total | apply imerge_total].
Qed.

Lemma try_anti_entropy_eq fuel host port s :
  try_anti_entropy fuel host port s =
  match anti_entropy fuel host port s with
  | (Ok _, s1) => (Ok true, s1)
  | (Raise e, s1) => if is_TTransportException e then (Ok false, s1) else (Raise e, s1)
  | (OutOfFuel, s1) => (OutOfFuel, s1)
  end.
Proof.
  unfold try_anti_entropy, try_except, bind.
  by destruct (anti_entropy fuel host port s) as [[[]|e|] s1].
Qed.

Lemma round_cons fuel host port rest s :
  round fuel ((host, port) :: rest) s =
  match try_anti_entropy fuel host port s with
  | (Ok _, s1) => round fuel rest s1
  | (Raise e, s1) => (Raise e, s1)
  | (OutOfFuel, s1) => (OutOfFuel, s1)
  end.
Proof.
  unfold round. cbn [for_each]. unfold bind at 1 2.
  by destruct (try_anti_entropy fuel host port s) as [[b|e|] s1].
Qed.

Lemma client_work_eq fuel addrs s :
  client_work fuel addrs s =
  match random_sample addrs
          (Nat.min (List.length addrs) ANTI_ENTROPY_MAX_CLIENTS) (env s) with
  | (Ok l, w1) => round fuel l (mkState (self s) w1)
  | (Raise e, w1) => (Raise e, mkState (self s) w1)
  | (OutOfFuel, w1) => (OutOfFuel, mkState (self s) w1)
  end.
Proof.
  unfold client_work, bind, io, zoom.
  by destruct (random_sample _ _ (env s)) as [[l|e|] w1].
Qed.

(** A reply to [pull] that does not deserialize. *)
Lemma anti_entropy_bad_reply fuel host port s s1 b s2 :
  let client := ThriftHelper_init host port false (Some ANTI_ENTROPY_TIMEOUT) in
  io (wrapper fuel client (push_rpc (serialize_compact (sketch (self s))))) s = (Ok tt, s1) →
  io (wrapper fuel client pull_rpc) s1 = (Ok b, s2) →
  hll_sketch_deserialize b = None →
  anti_entropy fuel host port s = (Raise (SketchError "deserialize"), s2) ∧
  self s2 = self s.
Proof.
  intros client Hpush Hpull Hb. split.
  - unfold anti_entropy, push_pull. fold client.
    erewrite bind_Ok by reflexivity.
    erewrite bind_Ok by exact Hpush.
    erewrite bind_Ok by exact Hpull.
    unfold deserialize. rewrite Hb. reflexivity.
  - apply io_inv in Hpush as (w1 & -> & _). apply io_inv in Hpull as (w2 & -> & _). done.
Qed.

(** C10. In a gossip round only a transport error of a peer exchange is
    caught: [try_anti_entropy] then returns [False] and the round goes on
    with the next sampled peer.  Any other exception of the exchange leaves
    [try_anti_entropy] and the loop of the round ([client_work] runs that
    loop over the sample) unchanged; so does, in particular, the failure
    to deserialize what the peer returned from [pull]. *)
Theorem only_transport_errors_are_isolated fuel host port rest s :
  match anti_entropy fuel host port s with
  | (Ok _, s1) =>
      try_anti_entropy fuel host port s = (Ok true, s1) ∧
      round fuel ((host, port) :: rest) s = round fuel rest s1
  | (Raise e, s1) =>
      if is_TTransportException e then
        try_anti_entropy fuel host port s = (Ok false, s1) ∧
        round fuel ((host, port) :: rest) s = round fuel rest s1
      else
        try_anti_entropy fuel host port s = (Raise e, s1) ∧
        round fuel ((host, port) :: rest) s = (Raise e, s1)
  | (OutOfFuel, _) => False
  end ∧
  (∀ addrs l w1,
     random_sample addrs (Nat.min (List.length addrs) ANTI_ENTROPY_MAX_CLIENTS) (env s)
     = (Ok l, w1) →
     client_work fuel addrs s = round fuel l (mkState (self s) w1)) ∧
  (∀ s1 b s2,
     let client := ThriftHelper_init host port false (Some ANTI_ENTROPY_TIMEOUT) in
     io (wrapper fuel client (push_rpc (serialize_compact (sketch (self s))))) s
     = (Ok tt, s1) →
     io (wrapper fuel client pull_rpc) s1 = (Ok b, s2) →
     hll_sketch_deserialize b = None →
     try_anti_entropy fuel host port s = (Raise (SketchError "deserialize"), s2) ∧
     round fuel ((host, port) :: rest) s = (Raise (SketchError "deserialize"), s2) ∧
     self s2 = self s).
Proof.
  split_and!.
  - rewrite round_cons, try_anti_entropy_eq.
    pose proof (anti_entropy_total fuel host port s) as Ht.
    destruct (anti_entropy fuel host port s) as [[[]|e|] s1]; [done| |done].
    by destruct (is_TTransportException e).
  - intros addrs l w1 Hs. by rewrite client_work_eq, Hs.
  - intros s1 b s2 client Hpush Hpull Hb.
    destruct (anti_entropy_bad_reply fuel host port s s1 b s2 Hpush Hpull Hb) as [Ha Hs].
    rewrite round_cons, try_anti_entropy_eq, Ha. done.
Qed.
End Gossip.

(** * The connection helper *)

Lemma client_call_eq {A} a (m : method A) w :
  client_call a m w =
  (match hd None (faults w) with Some e => Raise e | None => Ok (reply m w) end,
   match hd None (faults w), m with
   | None, pull_rpc => set_pulled (tl (pulled w)) (tick (rpc_event a m) w)
   | _, _ => tick (rpc_event a m) w
   end).
Proof.
  destruct m; unfold client_call, reply, rpc_event.
  - rewrite syscall_eq. by destruct (hd None (faults w)).
  - unfold bind. rewrite syscall_eq.
    destruct (hd None (faults w)); [done|].
    change (pulled (tick (EvRpcPull a) w)) with (pulled w).
    destruct (pulled w) as [|b rest] eqn:Hp; [|done].
    cbn [hd tl]. f_equal. unfold set_pulled, tick, set_faults, set_trace. cbn.
    rewrite Hp. done.
Qed.

Lemma client_call_conns {A} a (m : method A) w :
  conns (client_call a m w).2 = conns w.
Proof.
  rewrite client_call_eq. cbn.
  destruct (hd None (faults w)); [done|]. by destruct m.
Qed.

Lemma client_call_trace {A} a (m : method A) w :
  trace (client_call a m w).2 = trace w ++ [rpc_event a m].
Proof.
  rewrite client_call_eq. cbn.
  destruct (hd None (faults w)); [done|]. by destruct m.
Qed.

Lemma client_call_total' {A} a (m : method A) w : (client_call a m w).1 ≠ OutOfFuel.
Proof. rewrite client_call_eq. cbn. by destruct (hd None (faults w)). Qed.

(** The outcomes of [_invoke]. *)
Lemma invoke_eq {A} (h : ThriftHelper) (m : method A) w :
  let a := (_host h, _port h) in
  let close := λ w1, set_conns (conns w1 ∖ {[a]}) (set_trace (trace w1 ++ [EvConnClose a]) w1) in
  let call := λ w1,
    match client_call a m w1 with
    | (Raise e, w2) => if is_TTransportException e then (Raise e, close w2) else (Raise e, w2)
    | r => r
    end in
  _invoke h m w =
  if bool_decide (a ∈ conns w) then call w
  else match hd None (faults w) with
       | Some e =>
           if is_TTransportException e
           then (Raise e, close (tick (EvConnOpen a) w))
           else (Raise e, tick (EvConnOpen a) w)
       | None => call (set_conns ({[a]} ∪ conns w) (tick (EvConnOpen a) w))
       end.
Proof.
  cbn zeta. unfold _invoke, try_except, transport_isOpen.
  unfold bind at 1. cbn [gets].
  destruct (bool_decide _); cbn [negb].
  - unfold bind at 1. cbn [ret].
    destruct (client_call _ m w) as [[v|e|] w2]; [done| |done].
    by destruct (is_TTransportException e).
  - unfold transport_open. unfold bind at 1 2. rewrite syscall_eq.
    destruct (hd None (faults w)) as [e|]; cbn.
    + by destruct (is_TTransportException e).
    + destruct (client_call _ m _) as [[v|e|] w2]; [done| |done].
      by destruct (is_TTransportException e).
Qed.

(** X9: [_invoke] and the connection.  After a normal return the
    transport is open, and it was opened first exactly when it was not
    open before.  After a transport exception the transport has been
    closed, as the last recorded step; after any other exception it has
    not been closed. *)
Theorem invoke_connection_discipline {A} (h : ThriftHelper) (m : method A) (w : World) :
  let a := (_host h, _port h) in
  match _invoke h m w with
  | (Ok _, w') =>
      a ∈ conns w' ∧
      trace w' = trace w ++ (if bool_decide (a ∈ conns w) then [] else [EvConnOpen a])
                         ++ [rpc_event a m]
  | (Raise e, w') =>
      if is_TTransportException e then
        (a ∉ conns w') ∧ (∃ t, trace w' = trace w ++ t ++ [EvConnClose a])
      else EvConnClose a ∉ drop (length (trace w)) (trace w')
  | (OutOfFuel, _) => False
  end.
Proof.
  cbn zeta. rewrite invoke_eq. cbn zeta.
  destruct (bool_decide_reflect ((_host h, _port h) ∈ conns w)) as [Hin|Hout].
  - pose proof (client_call_conns (_host h, _port h) m w) as Hc.
    pose proof (client_call_trace (_host h, _port h) m w) as Ht.
    pose proof (client_call_total' (_host h, _port h) m w) as Htot.
    destruct (client_call _ m w) as [[v|e|] w2]; cbn in *; [| |done].
    + rewrite Hc. done.
    + destruct (is_TTransportException e) eqn:He; rewrite ?He.
      * cbn. split; [set_solver|]. exists [rpc_event (_host h, _port h) m].
        rewrite Ht. by rewrite <- app_assoc.
      * rewrite Ht, drop_app_length. destruct m; set_solver.
  - destruct (hd None (faults w)) as [e|].
    + destruct (is_TTransportException e) eqn:He; rewrite ?He.
      * cbn. split; [set_solver|]. exists [EvConnOpen (_host h, _port h)].
        by rewrite <- app_assoc.
      * cbn. rewrite drop_app_length. set_solver.
    + set (w1 := set_conns _ _).
      pose proof (client_call_conns (_host h, _port h) m w1) as Hc.
      pose proof (client_call_trace (_host h, _port h) m w1) as Ht.
      pose proof (client_call_total' (_host h, _port h) m w1) as Htot.
      destruct (client_call _ m w1) as [[v|e|] w2]; cbn in *; [| |done].
      * rewrite Hc, Ht. split; [set_solver|]. by rewrite <- app_assoc.
      * destruct (is_TTransportException e) eqn:He; rewrite ?He.
        -- cbn. split; [set_solver|].
           exists [EvConnOpen (_host h, _port h); rpc_event (_host h, _port h) m].
           rewrite Ht. by rewrite <- !app_assoc.
        -- rewrite Ht, <- app_assoc, drop_app_length. destruct m; set_solver.
Qed.

(** X10: [_invoke_reliable_broadcast] never lets a transport exception
    escape: every exception it raises is of another class. *)
Theorem reliable_never_raises_transport {A} (fuel : nat) (h : ThriftHelper)
    (m : method A) (w : World) (e : exn) :
  (_invoke_reliable_broadcast fuel h m w).1 = Raise e →
  is_TTransportException e = false.
Proof.
  revert w. induction fuel as [|fuel IH]; intros w; cbn; [discriminate|].
  unfold try_except.
  destruct (_invoke h m w) as [[v|e0|] w1]; cbn; [discriminate| |discriminate].
  destruct (is_TTransportException e0) eqn:He0.
  - unfold bind, logging, time_sleep, emit, modify. cbn. apply IH.
  - cbn. intros [= <-]. done.
Qed.

(** X11: [_invoke_reliable_broadcast] retries until the call goes
    through: if the connection attempts fail with transport exceptions
    [msgs] and nothing fails afterwards, it returns the reply of the peer,
    after one failed attempt (open, close, debug message, sleep of one
    second) per exception and one successful open and call; the transport
    is open at the end. *)
Theorem reliable_retries_until_success {A} (h : ThriftHelper) (m : method A)
    (msgs : list string) (fuel : nat) (w : World) :
  let a := (_host h, _port h) in
  a ∉ conns w →
  faults w = transport_down <$> msgs →
  (length msgs < fuel)%nat →
  ∃ w',
    _invoke_reliable_broadcast fuel h m w = (Ok (reply m w), w') ∧
    a ∈ conns w' ∧ faults w' = [] ∧
    trace w' = trace w ++ mjoin (replicate (length msgs) (failed_attempt a))
                       ++ [EvConnOpen a; rpc_event a m].
Proof.
  cbn zeta. revert fuel w.
  induction msgs as [|msg msgs IH]; intros fuel w Hout Hf Hfuel.
  - destruct fuel as [|fuel]; [cbn in Hfuel; lia|].
    cbn [_invoke_reliable_broadcast]. unfold try_except.
    rewrite invoke_eq. cbn zeta. rewrite bool_decide_eq_false_2 by done.
    rewrite Hf. cbn [fmap list_fmap hd].
    set (w1 := set_conns _ _).
    assert (Hf1 : faults w1 = []) by (cbn; by rewrite Hf).
    assert (Hr : reply m w1 = reply m w) by (by destruct m).
    rewrite client_call_eq, Hf1, Hr. cbn [hd].
    eexists. split; [reflexivity|].
    destruct m; cbn; rewrite Hf; (split_and!; [set_solver|done|by rewrite <- app_assoc]).
  - destruct fuel as [|fuel]; [cbn in Hfuel; lia|].
    cbn [_invoke_reliable_broadcast]. unfold try_except.
    rewrite invoke_eq. cbn zeta. rewrite bool_decide_eq_false_2 by done.
    rewrite Hf. cbn [fmap list_fmap hd transport_down is_TTransportException].
    unfold bind, logging, time_sleep, emit, modify. cbn [fst snd].
    match goal with
    | |- ∃ w', _invoke_reliable_broadcast fuel h m ?w1 = _ ∧ _ => set (wn := w1)
    end.
    assert (Hr : reply m wn = reply m w) by (by destruct m).
    destruct (IH fuel wn) as (w' & Hrun & Hin & Hcalm & Htr).
    + cbn. set_solver.
    + cbn. by rewrite Hf.
    + cbn in Hfuel. lia.
    + exists w'. rewrite Hr in Hrun. split; [exact Hrun|]. split_and!; [done..|].
      rewrite Htr. cbn. rewrite <- !app_assoc. done.
Qed.

(** * Sampling the peers *)









Section GossipMore.
Context `{SketchLib}.


(** [imerge] returns normally unless the STRICT flush fails. *)
Lemma imerge_not_strict other s :
  durability_level (self s) ≠ STRICT → ∃ s', imerge other s = (Ok tt, s').
Proof.
  intros Hd. rewrite imerge_eq. cbn zeta. rewrite bool_decide_eq_false_2 by done. eauto.
Qed.

(** X13: when [try_anti_entropy] returns [False] (a transport
    exception) on a node that is not STRICT, the node is as it was: the
    exchange failed before any merge. *)
Theorem failed_exchange_leaves_node (fuel : nat) (host : string) (port : Z)
    (s s' : State) :
  durability_level (self s) ≠ STRICT →
  try_anti_entropy fuel host port s = (Ok false, s') →
  self s' = self s.
Proof.
  intros Hd. rewrite try_anti_entropy_eq.
  destruct (anti_entropy fuel host port s) as [[[]|e|] s1] eqn:Hrun; [discriminate| |discriminate].
  destruct (is_TTransportException e) eqn:He; [|discriminate].
  intros [= <-].
  unfold anti_entropy, push_pull in Hrun.
  erewrite bind_Ok in Hrun by reflexivity.
  match type of Hrun with
  | bind ?m _ ?x = _ => destruct (m x) as [[[]|e1|] s2] eqn:Hpush
  end.
  2:{ erewrite bind_Raise in Hrun by exact Hpush. injection Hrun as <- <-.
      apply io_inv in Hpush as (w2 & -> & _). done. }
  2:{ erewrite bind_OutOfFuel in Hrun by exact Hpush. discriminate Hrun. }
  erewrite bind_Ok in Hrun by exact Hpush.
  apply io_inv in Hpush as (w2 & -> & _).
  match type of Hrun with
  | bind ?m _ ?x = _ => destruct (m x) as [[b|e1|] s3] eqn:Hpull
  end.
  2:{ erewrite bind_Raise in Hrun by exact Hpull. injection Hrun as <- <-.
      apply io_inv in Hpull as (w3 & -> & _). done. }
  2:{ erewrite bind_OutOfFuel in Hrun by exact Hpull. discriminate Hrun. }
  erewrite bind_Ok in Hrun by exact Hpull.
  apply io_inv in Hpull as (w3 & -> & _).
  unfold deserialize in Hrun.
  destruct (hll_sketch_deserialize b) as [other|].
  - erewrite bind_Ok in Hrun by reflexivity.
    match type of Hrun with
    | imerge ?o ?x = _ => destruct (imerge_not_strict o x Hd) as [s4 Him]
    end.
    rewrite Him in Hrun. discriminate Hrun.
  - erewrite bind_Raise in Hrun by reflexivity. injection Hrun as <- <-. discriminate He.
Qed.
End GossipMore.

(** * The committer thread *)

Section Loops.
Context `{SketchLib}.

(** X14: the loop of the committer thread.  With the flag
    [continue_committer] cleared it returns at once and does nothing.
    With the flag set, and no other thread to clear it, it never returns
    normally: it runs on, or it ends with the exception of a flush,
    raised by [committer_work], and the flag is still set. *)
Theorem committer_work_periodic_runs (fuel : nat) (s : State) :
  (continue_committer (self s) = false →
   committer_work_periodic (S fuel) s = (Ok tt, s)) ∧
  (continue_committer (self s) = true →
   match committer_work_periodic fuel s with
   | (Ok _, _) => False
   | (Raise e, s') =>
       continue_committer (self s') = true ∧
       ∃ s1, continue_committer (self s1) = true ∧ committer_work s1 = (Raise e, s')
   | (OutOfFuel, s') => continue_committer (self s') = true
   end).
Proof.
  split.
  - intros Hc. cbn [committer_work_periodic].
    erewrite bind_Ok by reflexivity. cbn beta. by rewrite Hc.
  - revert s. induction fuel as [|fuel IH]; intros s Hc; [done|].
    cbn [committer_work_periodic].
    erewrite bind_Ok by reflexivity. cbn beta. rewrite Hc.
    erewrite bind_Ok by reflexivity.
    match goal with
    | |- context [bind committer_work _ ?x] => set (s1 := x)
    end.
    assert (Hs1 : continue_committer (self s1) = true) by exact Hc.
    assert (Hc1 : continue_committer (self (committer_work s1).2) = true).
    { destruct (committer_work_self s1) as [-> | ->]; exact Hc. }
    unfold bind at 1.
    pose proof (committer_work_total s1) as Htot.
    destruct (committer_work s1) as [[b|e|] s2] eqn:Hcw; cbn [fst snd] in *; [| |done].
    + specialize (IH s2 Hc1).
      by destruct (committer_work_periodic fuel s2) as [[[]|e|] s3].
    + split; [done|]. by exists s1.
Qed.
End Loops.

(** * Stopping, signals and the methods as a whole *)






Section Unfailing.
Context `{SketchLib}.







End Unfailing.

Section Methods.
Context `{SketchLib}.

Lemma same_config_keeps {A} (m : M State A) : steps any same_config m → keeps_config m.
Proof.
  intros Hm s. destruct (Hm s I) as [_ Hc]. split; [exact Hc|].
  by apply node_ok_config.
Qed.

(** X17: no method changes the configuration of a node (sketch file,
    its directory and base name, durability level, atomicity), whatever
    fails in between; so each of them keeps the invariant that the
    constructor establishes. *)
Theorem methods_keep_configuration :
  keeps_config reader_work ∧ keeps_config committer_work ∧
  (∀ d, keeps_config (update_sketch d)) ∧
  (∀ signum, keeps_config (signal_handler signum)) ∧
  keeps_config start_handler ∧
  (∀ fuel, keeps_config (stop_handler fuel)) ∧
  (∀ other, keeps_config (imerge other)) ∧
  (∀ other_serialized, keeps_config (push other_serialized)) ∧
  (∀ fuel addrs, keeps_config (client_work fuel addrs)).
Proof.
  split_and!; intros; apply same_config_keeps.
  - apply reader_work_same_config.
  - apply committer_work_same_config.
  - apply update_sketch_same_config.
  - apply signal_handler_same_config.
  - apply start_handler_same_config.
  - apply stop_handler_same_config.
  - apply imerge_same_config.
  - apply push_same_config.
  - apply client_work_same_config.
Qed.


End Methods.

(** X19: which command lines [parse_args] accepts after parsing: under
    VOLATILE durability those without [--atomicity], under another
    durability those with a sketch file; the atomicity it hands on is
    then off under VOLATILE and on otherwise, whatever was given. *)
Theorem parse_args_check_accepts (sf : option string) (d : DurabilityLevel)
    (a : option bool) (args : Namespace) :
  parse_args_check (mkNamespace sf d a) = inr args ↔
  args = mkNamespace sf d (Some (negb (bool_decide (d = VOLATILE)))) ∧
  (d = VOLATILE → a ≠ Some true) ∧ (d ≠ VOLATILE → is_Some sf).
Proof.
  unfold parse_args_check. cbn [ns_sketch_file ns_durability_level ns_atomicity].
  destruct (bool_decide_reflect (d = VOLATILE)) as [->|Hd]; cbn [negb].
  - destruct a as [[]|]; cbn [py_or]; split; try discriminate.
    + intros (_ & Ha & _). by destruct Ha.
    + intros [= <-]. split_and!; [done|discriminate|done].
    + by intros (-> & _).
    + intros [= <-]. split_and!; [done|discriminate|done].
    + by intros (-> & _).
  - assert (Ha : py_or a true = true) by (by destruct a as [[]|]). rewrite Ha.
    destruct sf as [p|]; split; try discriminate.
    + intros [= <-]. split_and!; [done|done|by eexists].
    + by intros (-> & _).
    + intros (_ & _ & Hsf). destruct (Hsf Hd) as [? [=]].
Qed.

Section ClientLoop.
Context `{SketchLib}.

Lemma same_continue_client_refl s : same_continue_client s s.
Proof. done. Qed.
Lemma same_continue_client_trans a b c :
  same_continue_client a b → same_continue_client b c → same_continue_client a c.
Proof. unfold same_continue_client. congruence. Qed.

Lemma steps_io_same_continue_client {A} (m : M World A) :
  steps any same_continue_client (io m).
Proof. intros s _. unfold io, zoom. by destruct (m (env s)). Qed.

Ltac flag_leaf :=
  lazymatch goal with
  | |- steps _ _ (attr _) => unfold attr; apply steps_gets, same_continue_client_refl
  | |- steps _ _ (assign _) => apply steps_modify; intros ? ?; by split
  | |- steps _ _ (io _) => apply steps_io_same_continue_client
  | |- _ => idtac
  end.
Ltac flag :=
  steps_go same_continue_client_refl same_continue_client_trans ltac:(fun _ => flag_leaf).

Lemma committer_work_same_continue_client : steps any same_continue_client committer_work.
Proof.
  intros s _. split; [done|]. unfold same_continue_client.
  by destruct (committer_work_self s) as [-> | ->].
Qed.

Lemma client_work_same_continue_client fuel addrs :
  steps any same_continue_client (client_work fuel addrs).
Proof.
  unfold client_work, try_anti_entropy, anti_entropy, push_pull, deserialize, imerge.
  flag. apply committer_work_same_continue_client.
Qed.

(** X20: the loop of the client thread.  With [continue_client]
    cleared it returns at once and does nothing; with the flag set, and no
    other thread to clear it, it never returns normally, and no gossip
    round changes the flag. *)
Theorem client_work_periodic_runs (fuel : nat) (addrs : list address) (s : State) :
  (continue_client (self s) = false →
   client_work_periodic (S fuel) addrs s = (Ok tt, s)) ∧
  (continue_client (self s) = true →
   match client_work_periodic fuel addrs s with
   | (Ok _, _) => False
   | (_, s') => continue_client (self s') = true
   end).
Proof.
  split.
  - intros Hc. cbn [client_work_periodic].
    erewrite bind_Ok by reflexivity. cbn beta. by rewrite Hc.
  - revert s. induction fuel as [|fuel IH]; intros s Hc; [done|].
    cbn [client_work_periodic].
    erewrite bind_Ok by reflexivity. cbn beta. rewrite Hc.
    destruct (client_work_same_continue_client fuel addrs s I) as [_ Hsame].
    unfold same_continue_client in Hsame. rewrite Hc in Hsame.
    unfold bind at 1.
    destruct (client_work fuel addrs s) as [[[]|e|] s1]; cbn [fst snd] in *; [|done..].
    erewrite bind_Ok by reflexivity.
    match goal with
    | |- match client_work_periodic fuel addrs ?x with _ => _ end => specialize (IH x Hsame)
    end.
    exact IH.
Qed.
End ClientLoop.

(** * Runs on the small sketch library *)

Import ToySketch Runs.

(** Evaluate the left-hand side of the goal. *)
Ltac eval_lhs :=
  match goal with
  | |- ?l = _ => let v := eval vm_compute in l in change l with v
  end.


Lemma node_ok_node d sf dirty sk : (d = VOLATILE ∨ is_Some sf) → node_ok (node d sf dirty sk).
Proof.
  unfold node_ok. cbn. destruct sf as [target|]; [done|].
  intros [-> | [? ?]]; done.
Qed.

(** C1, on runs: a VOLATILE node with a set dirty flag is left alone; a
    STRICT node with a set dirty flag is flushed, in the atomic way and in
    the direct way. *)
Lemma committer_work_flush_once_witness :
  committer_work (mkState (node VOLATILE None true [3%nat]) world0)
  = (Ok false, mkState (node VOLATILE None true [3%nat]) world0)
  ∧ ((committer_work strict_dirty).1 = Ok true
     ∧ is_dirty (self (committer_work strict_dirty).2) = false
     ∧ files (env (committer_work strict_dirty).2) !! "s1" = Some (compact [3%nat]))
  ∧ ((committer_work direct_dirty).1 = Ok true
     ∧ is_dirty (self (committer_work direct_dirty).2) = false
     ∧ files (env (committer_work direct_dirty).2) !! "s1" = Some (compact [3%nat])
     ∧ trace (env (committer_work direct_dirty).2) = direct_protocol "s1" (compact [3%nat])).
Proof.
  split; [|split].
  - apply (committer_work_flush_once (mkState (node VOLATILE None true [3%nat]) world0)).
    + apply node_ok_node. by left.
    + by left.
  - destruct (committer_work_flush_once strict_dirty) as [_ Hflush].
    + apply node_ok_node. right. by eexists.
    + destruct Hflush as (target & Htarget & Hok & Hrun); [done | reflexivity |].
      injection Htarget as <-. cbn zeta in Hok, Hrun.
      assert (E : (committer_work strict_dirty).1 = Ok true).
      { apply Hok.
        - apply calm_nil. reflexivity.
        - change ("s1" ∉ ({["."]} : gset string)). by intros ?%elem_of_singleton.
        - intros _. exists "k3x9". split; [by left | vm_compute; reflexivity]. }
      destruct (committer_work strict_dirty) as [[flushed|e|] s'];
        cbn [fst] in E; [|discriminate E..].
      destruct Hrun as (_ & Hself & Hfiles & _). cbn [fst snd].
      rewrite Hself, Hfiles. split; [done|]. split; [done|]. apply lookup_insert_eq.
  - destruct (committer_work_flush_once direct_dirty) as [_ Hflush].
    + unfold node_ok. by cbn.
    + destruct Hflush as (target & Htarget & Hok & Hrun); [done | reflexivity |].
      injection Htarget as <-. cbn zeta in Hok, Hrun.
      assert (E : (committer_work direct_dirty).1 = Ok true).
      { apply Hok.
        - apply calm_nil. reflexivity.
        - change ("s1" ∉ ({["."]} : gset string)). by intros ?%elem_of_singleton.
        - intros Ha. discriminate Ha. }
      destruct (committer_work direct_dirty) as [[flushed|e|] s'];
        cbn [fst] in E; [|discriminate E..].
      destruct Hrun as (_ & Hself & Hfiles & Htrace). cbn [fst snd].
      rewrite Hself, Hfiles. split; [done|]. split; [done|].
      split; [apply lookup_insert_eq | exact Htrace].
Defined.

(** C8, on a run. *)
Lemma push_malformed_leaves_state_witness :
  push [Byte.x05; Byte.x01] volatile_clean = (Raise (SketchError "deserialize"), volatile_clean).
Proof. apply push_malformed_leaves_state. reflexivity. Defined.

(** C3, on a run: without STRICT durability the datum is folded in and the
    flag set; with it the flush follows. *)
Lemma update_sketch_folds_marks_and_flushes_witness :
  update_sketch (DStr "a") delayed_clean
  = (Ok tt, mkState (node DELAYED (Some "s1") true [1%nat; 2%nat; 10%nat]) world0).
Proof.
  apply (update_sketch_folds_marks_and_flushes (DStr "a") delayed_clean).
  - apply node_ok_node. right. by eexists.
  - discriminate.
Defined.

(** C2, on a run: the inbound sketch brings nothing new; the union is
    another list in memory, its compact form is the same, and the flag stays
    unset. *)
Lemma imerge_union_and_dirty_witness :
  sketch (self (imerge [2%nat; 1%nat] volatile_clean).2) = [1%nat; 2%nat; 2%nat; 1%nat]
  ∧ is_dirty (self (imerge [2%nat; 1%nat] volatile_clean).2) = false.
Proof.
  pose proof (imerge_union_and_dirty [2%nat; 1%nat] volatile_clean) as (Hsk & Hplain & _).
  split; [exact Hsk|].
  apply Hplain; [discriminate | reflexivity | reflexivity].
Defined.

(** C6 (amended), on a run. *)
Lemma validation_rejects_bad_combinations_witness :
  (∃ msg, __init__ true true None None None VOLATILE (Some true) world0
          = (Raise (ValueError msg), world0))
  ∧ (∃ msg, __init__ true true None None None STRICT None world0
            = (Raise (ValueError msg), world0)).
Proof.
  split.
  - apply (validation_rejects_bad_combinations true true None None None VOLATILE
             (Some true) world0). by left.
  - apply (validation_rejects_bad_combinations true true None None None STRICT None world0).
    right. by split.
Defined.

(** C6 as stated fails: VOLATILE durability with a sketch file is accepted,
    by the constructor and by the command line. *)
Lemma volatile_with_sketch_file_is_accepted :
  (∃ n w, __init__ true true None None (Some "s1") VOLATILE None world0 = (Ok n, w)
          ∧ durability_level n = VOLATILE ∧ sketch_file n = Some "s1")
  ∧ parse_args_check (mkNamespace (Some "s1") VOLATILE None)
    = inr (mkNamespace (Some "s1") VOLATILE (Some false)).
Proof.
  split; [|reflexivity]. eexists _, _.
  split; [eval_lhs; reflexivity|]. split; reflexivity.
Qed.

(** C5: an explicit [atomicity=False] with DELAYED durability is replaced by
    [True], in the constructor and on the command line. *)
Theorem explicit_no_atomicity_is_overridden :
  (∃ n w, __init__ true true None None (Some "s1") DELAYED (Some false) world0 = (Ok n, w)
          ∧ atomicity n = true)
  ∧ (∃ n w, __init__ true true None None (Some "s1") STRICT (Some false) world0 = (Ok n, w)
            ∧ atomicity n = true)
  ∧ parse_args_check (mkNamespace (Some "s1") DELAYED (Some false))
    = inr (mkNamespace (Some "s1") DELAYED (Some true)).
Proof.
  split_and!; [| |reflexivity]; eexists _, _; (split; [eval_lhs; reflexivity|]); reflexivity.
Qed.

(** C4: when the directory part of the sketch file goes through a
    symbolic link and back ([b/..] with [b] a link to [/data/x]), the
    temporary file of an atomic flush is not created in the directory of the
    target.  [tempfile] makes the directory absolute with
    [os.path.abspath], which drops [b/..] without looking at the file
    system: the temporary file is [/srv/mesh/s1_k3x9.tmp], in the working
    directory [/srv/mesh], while the target [b/../s1] is in [/data]. *)
Theorem temp_file_outside_target_directory :
  ∃ n w s',
    __init__ true true None None (Some "b/../s1") STRICT None world_linked = (Ok n, w) ∧
    update_sketch (DInt 3) (mkState n w) = (Ok tt, s') ∧
    drop (List.length (trace w)) (trace (env s'))
    = atomic_protocol "b/.." "s1" "/srv/mesh/s1_k3x9.tmp" "b/../s1" (compact [3%nat]) ∧
    os_path_realpath b_links_to_data (cwd w) 64 (os_path_split "/srv/mesh/s1_k3x9.tmp").1
    = Some "/srv/mesh" ∧
    os_path_realpath b_links_to_data (cwd w) 64 (os_path_split "b/../s1").1
    = Some "/data".
Proof.
  eexists _, _, _. split; [eval_lhs; reflexivity|].
  split; [eval_lhs; reflexivity|].
  split; [eval_lhs; reflexivity|].
  split; vm_compute; reflexivity.
Qed.

(** C9: a client address with an empty host and a port out of range passes
    the constructor and is held by the node. *)
Theorem invalid_client_address_is_accepted :
  ∃ n w, __init__ true true (Some ("::", 6000)) (Some [("", 70000)]) None VOLATILE None world0
         = (Ok n, w)
         ∧ client_addresses n = Some [("", 70000)].
Proof. eexists _, _. split; [eval_lhs; reflexivity | reflexivity]. Qed.

(** C7 as stated fails: a VOLATILE node that was given a sketch file reads it
    when it starts. *)
Lemma volatile_start_reads_the_sketch_file :
  ∃ n w, __init__ false false None None (Some "s1") VOLATILE None world_with_file = (Ok n, w)
         ∧ durability_level n = VOLATILE
         ∧ drop (List.length (trace w)) (trace (env (start_handler (mkState n w)).2))
           = [EvOpenRead "s1"; EvRead "s1"; EvClose "s1";
              EvSignal SIGINT mesh_signal_handler; EvSignal SIGTERM mesh_signal_handler;
              EvSignal SIGQUIT mesh_signal_handler; EvSignal SIGABRT mesh_signal_handler;
              EvSignal SIGHUP mesh_signal_handler; EvSignal SIGTSTP mesh_signal_handler;
              EvSignal SIGPWR mesh_signal_handler]
         ∧ file_io_on "s1" (EvOpenRead "s1") = true.
Proof.
  eexists _, _. split; [eval_lhs; reflexivity|]. split; [reflexivity|].
  split; [vm_compute; reflexivity | reflexivity].
Qed.

(** C7 (amended), on a run: a VOLATILE node that names a sketch file, has
    unsaved changes and whose server is up stops without touching the file
    system (a DELAYED node would flush here), and its start only reads the
    file. *)
Lemma volatile_node_file_io_witness :
  (stop_handler 1 volatile_serving).1 = Ok tt
  ∧ no_file_io (stop_handler 1) volatile_serving
  ∧ emits (no_file_but_read "s1") volatile_serving (start_handler volatile_serving).2.
Proof.
  split; [vm_compute; reflexivity|].
  destruct (volatile_node_file_io volatile_serving) as [(_ & _ & _ & Hstop & _) [_ Hstart]];
    [reflexivity|].
  split; [apply Hstop | exact Hstart].
Defined.

Lemma only_transport_errors_are_isolated_witness :
  try_anti_entropy 0 "::1" 6000 gossiping = (Raise (SketchError "deserialize"), after_pull)
  ∧ client_work 0 [("::1", 6000)] gossiping = (Raise (SketchError "deserialize"), after_pull).
Proof.
  destruct (only_transport_errors_are_isolated 0 "::1" 6000 [] gossiping)
    as (_ & Hround & Hbad).
  destruct (Hbad after_push [Byte.x05; Byte.x01] after_pull) as (Htry & Hloop & _);
    [eval_lhs; reflexivity | eval_lhs; reflexivity | reflexivity |].
  split; [exact Htry|].
  rewrite (Hround [("::1", 6000)] [("::1", 6000)] (env gossiping)); [exact Hloop|].
  eval_lhs. reflexivity.
Defined.

(** X1, on a run: the rename fails; the temporary file is removed and the
    exception escapes. *)
Lemma atomic_flush_single_failure_witness :
  ∃ s', committer_work rename_fails = (Raise (OSError 5), s') ∧
    self s' = self rename_fails ∧
    trace (env s')
    = trace (env rename_fails)
      ++ atomic_calls_until 5 (target_dir "s1") (target_base "s1") "/srv/mesh/s1_k3x9.tmp"
           "s1" (compact [3%nat])
      ++ atomic_cleanup 5 "/srv/mesh/s1_k3x9.tmp" ∧
    files (env s') = if bool_decide (5 ≤ 5)%nat then files (env rename_fails)
                     else <[ "s1" := compact [3%nat] ]> (files (env rename_fails)).
Proof.
  apply (atomic_flush_single_failure rename_fails "s1" "/srv/mesh/s1_k3x9.tmp" ["q7w1"]
           5 (OSError 5)).
  - apply node_ok_node. right. by eexists.
  - discriminate.
  - reflexivity.
  - reflexivity.
  - reflexivity.
  - change ("s1" ∉ ({["."]} : gset string)). by intros ?%elem_of_singleton.
  - discriminate.
  - vm_compute. reflexivity.
  - lia.
  - reflexivity.
Defined.

(** X2, on a run: the DELAYED node loads the empty sketch of its file. *)
Lemma reader_work_load_witness :
  match reader_work delayed_with_file with
  | (Ok found, s') =>
      is_dirty (self s') = is_dirty (self delayed_with_file) ∧
      files (env s') = files (env delayed_with_file) ∧
      if found then
        ∃ path b sk,
          sketch_file (self delayed_with_file) = Some path ∧
          files (env delayed_with_file) !! path = Some b ∧
          hll_sketch_deserialize b = Some sk ∧
          self s' = with_sketch sk (self delayed_with_file) ∧
          trace (env s') = trace (env delayed_with_file)
                           ++ [EvOpenRead path; EvRead path; EvClose path]
      else
        self s' = self delayed_with_file ∧
        match sketch_file (self delayed_with_file) with
        | None => env s' = env delayed_with_file
        | Some path =>
            files (env delayed_with_file) !! path = None ∧
            trace (env s') = trace (env delayed_with_file) ++ [EvOpenRead path]
        end
  | (Raise e, s') =>
      self s' = self delayed_with_file ∧ files (env s') = files (env delayed_with_file) ∧
      ∃ path,
        sketch_file (self delayed_with_file) = Some path ∧
        ((path ∈ dirs (env delayed_with_file) ∧ e = IsADirectoryError path ∧
          trace (env s') = trace (env delayed_with_file) ++ [EvOpenRead path])
         ∨ (∃ b, files (env delayed_with_file) !! path = Some b ∧
                 hll_sketch_deserialize b = None ∧
                 e = SketchError "deserialize" ∧
                 trace (env s') = trace (env delayed_with_file)
                                  ++ [EvOpenRead path; EvRead path; EvClose path]))
  | (OutOfFuel, _) => False
  end
  ∧ (reader_work delayed_with_file).1 = Ok true.
Proof.
  split; [apply (reader_work_load delayed_with_file); reflexivity|].
  vm_compute. reflexivity.
Defined.

(** X3, on a run: after the flush of [strict_dirty] the next one does
    nothing. *)
Lemma committer_work_twice_witness :
  committer_work strict_flushed = (Ok false, strict_flushed).
Proof.
  apply (committer_work_twice strict_dirty strict_flushed true).
  eval_lhs. reflexivity.
Defined.

(** X4, on a run. *)
Lemma flush_then_load_witness :
  files (env strict_flushed) !! "s1" = Some (compact [3%nat]) ∧
  reader_work strict_flushed
  = (Ok true, mkState (with_sketch [3%nat] (self strict_flushed))
                      (loaded "s1" (env strict_flushed))).
Proof.
  apply (flush_then_load strict_dirty strict_flushed "s1").
  - apply node_ok_node. right. by eexists.
  - reflexivity.
  - eval_lhs. reflexivity.
  - reflexivity.
  - change ("s1" ∉ ({["."]} : gset string)). by intros ?%elem_of_singleton.
Defined.

(** X5, on a run: the rename fails and the sketch file keeps its
    content. *)
Lemma atomic_flush_keeps_or_replaces_witness :
  match committer_work rename_fails_on_file with
  | (Ok flushed, s') =>
      files (env s') !! "s1" = Some (if flushed then compact [3%nat] else [])
  | (Raise _, s') =>
      files (env s') !! "s1" = Some [] ∨ files (env s') !! "s1" = Some (compact [3%nat])
  | (OutOfFuel, _) => False
  end
  ∧ (committer_work rename_fails_on_file).1 = Raise (OSError 5).
Proof.
  split; [|vm_compute; reflexivity].
  apply (atomic_flush_keeps_or_replaces rename_fails_on_file "s1" []).
  - apply node_ok_node. right. by eexists.
  - reflexivity.
  - reflexivity.
  - reflexivity.
Defined.

(** X6, on a run: the sketch file held a sketch and is empty after the
    failed write. *)
Lemma direct_write_failure_truncates_witness :
  files (env write_fails) !! "s1" = Some (compact [1%nat; 2%nat]) ∧
  ∃ e',
    (direct_write "s1" (compact [3%nat]) write_fails).1 = Raise e' ∧
    self (direct_write "s1" (compact [3%nat]) write_fails).2 = self write_fails ∧
    files (env (direct_write "s1" (compact [3%nat]) write_fails).2) !! "s1" = Some [].
Proof.
  split; [reflexivity|].
  apply (direct_write_failure_truncates "s1" (compact [3%nat]) write_fails (OSError 28) []).
  - reflexivity.
  - change ("s1" ∉ ({["."]} : gset string)). by intros ?%elem_of_singleton.
Defined.

(** X7, on a run: an IPv6 address in brackets. *)
Lemma parse_address_accepts_witness :
  parse_address int_of_run "[::1]:6000" = inr ("::1", 6000).
Proof.
  apply (parse_address_accepts int_of_run "[::1]:6000" "::1" 6000).
  exists "[::1]", "6000". split_and!; try done; lia.
Defined.

(** X10, on a run: an exception that is no transport exception escapes
    the reliable call at once. *)
Lemma reliable_never_raises_transport_witness :
  (_invoke_reliable_broadcast 3 reliable_peer pull_rpc world_broken).1 = Raise (OSError 24)
  ∧ is_TTransportException (OSError 24) = false.
Proof.
  assert (E : (_invoke_reliable_broadcast 3 reliable_peer pull_rpc world_broken).1
              = Raise (OSError 24)) by (vm_compute; reflexivity).
  split; [exact E|].
  exact (reliable_never_raises_transport 3 reliable_peer pull_rpc world_broken _ E).
Defined.

(** X11, on a run: two refused connections, then the call goes through. *)
Lemma reliable_retries_until_success_witness :
  ∃ w',
    _invoke_reliable_broadcast 3 reliable_peer pull_rpc world_refusing
    = (Ok (reply pull_rpc world_refusing), w') ∧
    ("::1", 6000) ∈ conns w' ∧ faults w' = [] ∧
    trace w' = trace world_refusing
               ++ mjoin (replicate 2 (failed_attempt ("::1", 6000)))
               ++ [EvConnOpen ("::1", 6000); rpc_event ("::1", 6000) pull_rpc].
Proof.
  apply (reliable_retries_until_success reliable_peer pull_rpc ["refused"; "refused"] 3
           world_refusing).
  - change (("::1", 6000) ∉ (∅ : gset address)). apply not_elem_of_empty.
  - reflexivity.
  - cbn. lia.
Defined.

(** X13, on a run: the peer is down. *)
Lemma failed_exchange_leaves_node_witness :
  self after_peer_down = self peer_down.
Proof.
  apply (failed_exchange_leaves_node 0 "::1" 6000 peer_down after_peer_down).
  - discriminate.
  - eval_lhs. reflexivity.
Defined.

(** X14, on runs: a STRICT node has no committer loop to run; on a DELAYED
    node the loop ends with the exception of the failed flush. *)
Lemma committer_work_periodic_runs_witness :
  committer_work_periodic 1 strict_dirty = (Ok tt, strict_dirty)
  ∧ (committer_work_periodic 2 delayed_failing).1 = Raise (OSError 28)
  ∧ continue_committer (self delayed_failed) = true.
Proof.
  split; [|split].
  - apply (committer_work_periodic_runs 0 strict_dirty). reflexivity.
  - vm_compute. reflexivity.
  - destruct (committer_work_periodic_runs 2 delayed_failing) as [_ Hrun].
    assert (E : committer_work_periodic 2 delayed_failing = (Raise (OSError 28), delayed_failed))
      by (eval_lhs; reflexivity).
    rewrite E in Hrun. apply Hrun. reflexivity.
Defined.



(** X17, on a run: the STRICT node after an update. *)
Lemma methods_keep_configuration_witness :
  node_ok (self (update_sketch (DInt 3) strict_dirty).2).
Proof.
  destruct methods_keep_configuration as (_ & _ & Hupdate & _).
  apply (Hupdate (DInt 3) strict_dirty). apply node_ok_node. right. by eexists.
Defined.


(** X19, on a run: DELAYED durability with a sketch file. *)
Lemma parse_args_check_accepts_witness :
  parse_args_check (mkNamespace (Some "s1") DELAYED None)
  = inr (mkNamespace (Some "s1") DELAYED (Some true)).
Proof.
  apply (parse_args_check_accepts (Some "s1") DELAYED None).
  split_and!; [reflexivity | discriminate | by eexists].
Defined.

(** X20, on runs: a stopped client loop, and one whose peer is down. *)
Lemma client_work_periodic_runs_witness :
  client_work_periodic 1 [("::1", 6000)] client_stopped = (Ok tt, client_stopped)
  ∧ continue_client (self (client_work_periodic 2 [("::1", 6000)] peer_down).2) = true.
Proof.
  split.
  - apply (client_work_periodic_runs 0 [("::1", 6000)] client_stopped). reflexivity.
  - destruct (client_work_periodic_runs 2 [("::1", 6000)] peer_down) as [_ Hrun].
    specialize (Hrun eq_refl).
    by destruct (client_work_periodic 2 [("::1", 6000)] peer_down) as [[[]|e|] s'].
Defined.
